(** * Zircon: chunk store protocol and metadata-cache RPC proxies

    A shallow embedding of the Go sources of the zircon repository:

    - [apis]: the types and constants of [lib/apis/chunkserver.go];
    - [twirp]: the wire messages the RPC proxies exchange;
    - [rpc]: the two metadata-cache proxies ([proxyMetadataCacheAsTwirp],
      the server-side adapter, and [proxyTwirpAsMetadataCache], the
      client-side proxy);
    - [chunkserver], [metadatacache], [client]: the storage protocol,
      whose implementation files are not part of the sources at hand and
      which is therefore modelled from the specification text;
    - [filesystem]: the filesystem client, its file streams and
      [erroringWriter], over the methods of [Traverser], [Reference] and
      [File] it calls.

    Go conventions kept by the embedding: an [error] value may be [nil]
    ([option error]); a pointer may be [nil] ([option]); dereferencing
    [nil] panics ([Panics]); a call returns all its results, also next to
    a non-nil error. *)

From Stdlib Require Import ZArith Lia.
From stdpp Require Import base decidable option list strings gmap fin_maps.

Local Open Scope Z_scope.

(** ** Outcomes of Go calls: a result and the next state, or a panic *)

Inductive outcome (A : Type) : Type :=
| Returns (a : A)
| Panics.
Arguments Returns {A} a.
Arguments Panics {A}.

(** Stateful, possibly panicking computations over a receiver state [S]. *)
Definition M (S A : Type) : Type := S → outcome (A * S).

#[global] Instance M_ret (S : Type) : MRet (M S) :=
  λ A a s, Returns (a, s).
#[global] Instance M_bind (S : Type) : MBind (M S) :=
  λ A B f m s,
    match m s with
    | Returns (a, s') => f a s'
    | Panics => Panics
    end.

(** A nil pointer dereference (or a method call on a nil interface). *)
Definition panic {S A : Type} : M S A := λ _, Panics.

(** [p.field] on a pointer [p]: panics when [p] is nil. *)
Definition deref {S A : Type} (p : option A) : M S A :=
  match p with
  | Some a => mret a
  | None => panic
  end.

(** ** Go errors *)

(** The error kinds of the protocol; [errorString] is the dynamic type of
    the values built by [errors.New]. *)
Inductive errorKind : Type :=
| errorString
| NotFound
| StaleVersion
| StaleEntry
| NotOwner
| OutOfBounds
| ReplicationFailure
| Transport
| Storage
| InvalidArgument.

#[global] Instance errorKind_eq_dec : EqDecision errorKind.
Proof. solve_decision. Defined.

(** A non-nil value of interface type [error]: its dynamic kind and the
    text its [Error()] method returns. *)
Record error : Type := mkError { errKind : errorKind; Error : string }.

#[global] Instance error_eq_dec : EqDecision error.
Proof. solve_decision. Defined.

(** [errors.New(text)]. *)
Definition errors_New (text : string) : error := mkError errorString text.

(** [err.Error()] on a possibly nil [err]. *)
Definition Error_of {S : Type} (err : option error) : M S string :=
  e ← deref err; mret (Error e).

(** ** package apis *)

Module apis.

(** [type Version uint64], [type ChunkNum uint64]: integers in
    [0, 2^64). *)
Abbreviation Version := Z (only parsing).
Abbreviation ChunkNum := Z (only parsing).
Abbreviation ServerName := string (only parsing).
(** Replica identifiers, as the entries carry them. *)
Abbreviation ServerID := Z (only parsing).

Definition ChunkNumSize : Z := 64.
Definition MaxChunkSize : Z := 8 * 1024 * 1024.
Definition AnyVersion : Version := 0.

Record ChunkVersion : Type := { Chunk : ChunkNum; Version_ : Version }.

(** [apis.MetadataEntry].  Its declaration is not among the sources; the
    fields are those the proxies read and write. *)
Record MetadataEntry : Type := {
  MostRecentVersion : Version;
  LastConsumedVersion : Version;
  Replicas : list ServerID
}.

(** [apis.MetadataEntry{}]. *)
Definition zeroEntry : MetadataEntry :=
  {| MostRecentVersion := 0; LastConsumedVersion := 0; Replicas := [] |}.

(** The [apis.MetadataCache] interface, with the signatures of the
    methods the proxies implement and call, over the state [S] of the
    value behind it. *)
Record MetadataCache (S : Type) : Type := {
  NewEntry : M S (ChunkNum * option error);
  ReadEntry : ChunkNum → M S (MetadataEntry * ServerName * option error);
  UpdateEntry :
    ChunkNum → MetadataEntry → MetadataEntry →
    M S (ServerName * option error);
  DeleteEntry : ChunkNum → MetadataEntry → M S (ServerName * option error)
}.
Arguments NewEntry {S} _.
Arguments ReadEntry {S} _ _.
Arguments UpdateEntry {S} _ _ _ _.
Arguments DeleteEntry {S} _ _ _.

End apis.

#[global] Instance MetadataEntry_eq_dec : EqDecision apis.MetadataEntry.
Proof. solve_decision. Defined.

(** [uint64] arithmetic wraps around. *)
Definition uint64 (z : Z) : Z := z mod 2 ^ 64.

(** ** package twirp: the wire messages *)

Module twirp.

(** The messages are generated code that is not among the sources; the
    fields are those the proxies read and write. *)
Record MetadataEntry : Type := {
  MostRecentVersion : Z;
  LastConsumedVersion : Z;
  ServerIDs : list Z
}.

Record MetadataCache_NewEntry : Type := mkNewEntry {}.
Record MetadataCache_NewEntry_Result : Type := { NewEntry_Chunk : Z }.

Record MetadataCache_ReadEntry : Type := { ReadEntry_Chunk : Z }.
Record MetadataCache_ReadEntry_Result : Type := {
  ReadEntry_Entry : option MetadataEntry;
  ReadEntry_Owner : string;
  ReadEntry_OwnerErr : string
}.

Record MetadataCache_UpdateEntry : Type := {
  UpdateEntry_Chunk : Z;
  UpdateEntry_PreviousEntry : option MetadataEntry;
  UpdateEntry_NewEntry : option MetadataEntry
}.
Record MetadataCache_UpdateEntry_Result : Type := {
  UpdateEntry_Owner : string;
  UpdateEntry_OwnerErr : string
}.

Record MetadataCache_DeleteEntry : Type := {
  DeleteEntry_Chunk : Z;
  DeleteEntry_PreviousEntry : option MetadataEntry
}.
Record MetadataCache_DeleteEntry_Result : Type := {
  DeleteEntry_Owner : string;
  DeleteEntry_OwnerErr : string
}.

(** The generated [twirp.MetadataCache] interface: every method returns
    a result pointer and an error. *)
Record MetadataCache (S : Type) : Type := {
  NewEntry :
    MetadataCache_NewEntry →
    M S (option MetadataCache_NewEntry_Result * option error);
  ReadEntry :
    MetadataCache_ReadEntry →
    M S (option MetadataCache_ReadEntry_Result * option error);
  UpdateEntry :
    MetadataCache_UpdateEntry →
    M S (option MetadataCache_UpdateEntry_Result * option error);
  DeleteEntry :
    MetadataCache_DeleteEntry →
    M S (option MetadataCache_DeleteEntry_Result * option error)
}.
Arguments NewEntry {S} _ _.
Arguments ReadEntry {S} _ _.
Arguments UpdateEntry {S} _ _.
Arguments DeleteEntry {S} _ _.

End twirp.

(** ** package rpc: the metadata-cache proxies *)

(** The two slice conversions the proxies call.  Their bodies are not
    part of the sources at hand, so they are taken as parameters. *)
Class IDConv : Type := {
  IDArrayToIntArray : list apis.ServerID → list Z;
  IntArrayToIDArray : list Z → list apis.ServerID
}.

Module rpc.
Section proxies.
Context {conv : IDConv} {S : Type}.

(** [apis.MetadataEntry{...}] built from a wire entry. *)
Definition entryFromWire (e : twirp.MetadataEntry) : apis.MetadataEntry :=
  {| apis.MostRecentVersion := twirp.MostRecentVersion e;
     apis.LastConsumedVersion := twirp.LastConsumedVersion e;
     apis.Replicas := IntArrayToIDArray (twirp.ServerIDs e) |}.

(** [&twirp.MetadataEntry{...}] built from an entry. *)
Definition entryToWire (e : apis.MetadataEntry) : twirp.MetadataEntry :=
  {| twirp.MostRecentVersion := apis.MostRecentVersion e;
     twirp.LastConsumedVersion := apis.LastConsumedVersion e;
     twirp.ServerIDs := IDArrayToIntArray (apis.Replicas e) |}.

(** *** proxyMetadataCacheAsTwirp: an [apis.MetadataCache] served as a
    [twirp.MetadataCache] *)

Definition proxyMetadataCacheAsTwirp_NewEntry
    (server : apis.MetadataCache S) (request : twirp.MetadataCache_NewEntry)
  : M S (option twirp.MetadataCache_NewEntry_Result * option error) :=
  '(chunk, err) ← apis.NewEntry server;
  match err with
  | Some e => mret (None, Some e)
  | None => mret (Some {| twirp.NewEntry_Chunk := chunk |}, None)
  end.

Definition proxyMetadataCacheAsTwirp_ReadEntry
    (server : apis.MetadataCache S) (request : twirp.MetadataCache_ReadEntry)
  : M S (option twirp.MetadataCache_ReadEntry_Result * option error) :=
  '(entry, owner, err) ← apis.ReadEntry server (twirp.ReadEntry_Chunk request);
  match err with
  | Some e =>
      if decide (owner = "") then mret (None, Some e)
      else
        mret (Some {| twirp.ReadEntry_Entry := None;
                      twirp.ReadEntry_Owner := owner;
                      twirp.ReadEntry_OwnerErr := Error e |}, None)
  | None =>
      mret (Some {| twirp.ReadEntry_Entry := Some (entryToWire entry);
                    twirp.ReadEntry_Owner := "";
                    twirp.ReadEntry_OwnerErr := "" |}, None)
  end.

Definition proxyMetadataCacheAsTwirp_UpdateEntry
    (server : apis.MetadataCache S) (request : twirp.MetadataCache_UpdateEntry)
  : M S (option twirp.MetadataCache_UpdateEntry_Result * option error) :=
  previous ← deref (twirp.UpdateEntry_PreviousEntry request);
  new ← deref (twirp.UpdateEntry_NewEntry request);
  '(owner, err) ←
    apis.UpdateEntry server (twirp.UpdateEntry_Chunk request)
      (entryFromWire previous) (entryFromWire new);
  if decide (owner ≠ "") then
    text ← Error_of err;
    mret (Some {| twirp.UpdateEntry_Owner := owner;
                  twirp.UpdateEntry_OwnerErr := text |}, None)
  else
    mret (Some {| twirp.UpdateEntry_Owner := owner;
                  twirp.UpdateEntry_OwnerErr := "" |}, err).

Definition proxyMetadataCacheAsTwirp_DeleteEntry
    (server : apis.MetadataCache S) (request : twirp.MetadataCache_DeleteEntry)
  : M S (option twirp.MetadataCache_DeleteEntry_Result * option error) :=
  previous ← deref (twirp.DeleteEntry_PreviousEntry request);
  '(owner, err) ←
    apis.DeleteEntry server (twirp.DeleteEntry_Chunk request)
      (entryFromWire previous);
  if decide (owner ≠ "") then
    text ← Error_of err;
    mret (Some {| twirp.DeleteEntry_Owner := owner;
                  twirp.DeleteEntry_OwnerErr := text |}, None)
  else
    mret (Some {| twirp.DeleteEntry_Owner := owner;
                  twirp.DeleteEntry_OwnerErr := "" |}, err).

Definition proxyMetadataCacheAsTwirp (server : apis.MetadataCache S)
  : twirp.MetadataCache S :=
  {| twirp.NewEntry := proxyMetadataCacheAsTwirp_NewEntry server;
     twirp.ReadEntry := proxyMetadataCacheAsTwirp_ReadEntry server;
     twirp.UpdateEntry := proxyMetadataCacheAsTwirp_UpdateEntry server;
     twirp.DeleteEntry := proxyMetadataCacheAsTwirp_DeleteEntry server |}.

(** *** proxyTwirpAsMetadataCache: a [twirp.MetadataCache] used as an
    [apis.MetadataCache] *)

Definition proxyTwirpAsMetadataCache_NewEntry (server : twirp.MetadataCache S)
  : M S (apis.ChunkNum * option error) :=
  '(result, err) ← twirp.NewEntry server twirp.mkNewEntry;
  match err with
  | Some e => mret (0, Some e)
  | None => r ← deref result; mret (twirp.NewEntry_Chunk r, None)
  end.

Definition proxyTwirpAsMetadataCache_ReadEntry
    (server : twirp.MetadataCache S) (chunk : apis.ChunkNum)
  : M S (apis.MetadataEntry * apis.ServerName * option error) :=
  '(result, err) ← twirp.ReadEntry server {| twirp.ReadEntry_Chunk := chunk |};
  match err with
  | Some e => mret (apis.zeroEntry, "", Some e)
  | None =>
      r ← deref result;
      if decide (twirp.ReadEntry_Owner r ≠ "") then
        mret (apis.zeroEntry, twirp.ReadEntry_Owner r,
              Some (errors_New (twirp.ReadEntry_OwnerErr r)))
      else
        entry ← deref (twirp.ReadEntry_Entry r);
        mret (entryFromWire entry, "", None)
  end.

Definition proxyTwirpAsMetadataCache_UpdateEntry
    (server : twirp.MetadataCache S) (chunk : apis.ChunkNum)
    (previousEntry newEntry : apis.MetadataEntry)
  : M S (apis.ServerName * option error) :=
  '(result, err) ←
    twirp.UpdateEntry server
      {| twirp.UpdateEntry_Chunk := chunk;
         twirp.UpdateEntry_PreviousEntry := Some (entryToWire previousEntry);
         twirp.UpdateEntry_NewEntry := Some (entryToWire newEntry) |};
  r ← deref result;
  if decide (twirp.UpdateEntry_Owner r ≠ "") then
    mret (twirp.UpdateEntry_Owner r,
          Some (errors_New (twirp.UpdateEntry_OwnerErr r)))
  else mret ("", err).

Definition proxyTwirpAsMetadataCache_DeleteEntry
    (server : twirp.MetadataCache S) (chunk : apis.ChunkNum)
    (previous : apis.MetadataEntry)
  : M S (apis.ServerName * option error) :=
  '(result, err) ←
    twirp.DeleteEntry server
      {| twirp.DeleteEntry_Chunk := chunk;
         twirp.DeleteEntry_PreviousEntry := Some (entryToWire previous) |};
  r ← deref result;
  if decide (twirp.DeleteEntry_Owner r ≠ "") then
    mret (twirp.DeleteEntry_Owner r,
          Some (errors_New (twirp.DeleteEntry_OwnerErr r)))
  else mret (twirp.DeleteEntry_Owner r, err).

Definition proxyTwirpAsMetadataCache (server : twirp.MetadataCache S)
  : apis.MetadataCache S :=
  {| apis.NewEntry := proxyTwirpAsMetadataCache_NewEntry server;
     apis.ReadEntry := proxyTwirpAsMetadataCache_ReadEntry server;
     apis.UpdateEntry := proxyTwirpAsMetadataCache_UpdateEntry server;
     apis.DeleteEntry := proxyTwirpAsMetadataCache_DeleteEntry server |}.

End proxies.
End rpc.

(** ** The chunkserver storage engine *)

(** Modelled from the spec: the commit hash, "a deterministic digest of
    (offset, payload)".  The digest function is missing from the sources
    and the specification leaves it open, so it is a parameter. *)
Class Digest : Type := { commitHash : Z → list Byte.byte → string }.

Module chunkserver.

(** The sources declare the chunkserver in the [apis.ChunkserverSingle]
    and [apis.Chunkserver] interfaces only; the storage engine behind the
    interfaces is missing, and its state and operations are modelled
    from the specification (data model and chunkserver contracts). *)

(** A payload: the byte at every index of the chunk.  A chunk is
    logically [apis.MaxChunkSize] bytes long; indices a write never
    touched hold zero. *)
Abbreviation Payload := (Z → Byte.byte) (only parsing).

(** A staged span: [(offset, bytes)]. *)
Abbreviation Span := (Z * list Byte.byte)%type (only parsing).

(** Modelled from the spec: the state of one chunk on one chunkserver
    (the engine's type is missing): [committed] maps a version to its
    payload, [latestVisible] is the version readers get, [prepared] maps
    a commit hash to the spans staged under it. *)
Record ReplicaChunkState : Type := {
  committed : gmap Z (Z → Byte.byte);
  latestVisible : apis.Version;
  prepared : gmap string (list (Z * list Byte.byte))
}.

(** The chunks of one chunkserver. *)
Abbreviation State := (gmap Z ReplicaChunkState) (only parsing).

Definition errNotFound : error := mkError NotFound "chunk not found".
Definition errOutOfBounds : error := mkError OutOfBounds "out of bounds".
Definition errStaleVersion : error := mkError StaleVersion "stale version".
Definition errInvalid : error := mkError InvalidArgument "invalid argument".
Definition errExists : error := mkError InvalidArgument "chunk already exists".
Definition errTransport : error := mkError Transport "no such server".

(** Modelled from the spec: [initialData] zero-padded to the chunk size
    (part of the missing [Add]). *)
Definition zeroPad (data : list Byte.byte) : Z → Byte.byte :=
  λ i, if decide (0 ≤ i) then nth (Z.to_nat i) data Byte.x00 else Byte.x00.

(** Modelled from the spec: the payload [p] with one staged span
    written over it (part of the missing [CommitWrite]). *)
Definition applySpan (p : Z → Byte.byte) (span : Z * list Byte.byte)
  : Z → Byte.byte :=
  λ i,
    if decide (span.1 ≤ i < span.1 + Z.of_nat (length span.2))
    then nth (Z.to_nat (i - span.1)) span.2 Byte.x00
    else p i.

(** Modelled from the spec: the staged write applied to a payload (part
    of the missing [CommitWrite]). *)
Definition applySpans (p : Z → Byte.byte) (spans : list (Z * list Byte.byte))
  : Z → Byte.byte :=
  foldl applySpan p spans.

(** Modelled from the spec: the [length] bytes of [p] from [offset] on
    (part of the missing [Read]). *)
Definition readBytes (p : Z → Byte.byte) (offset length : Z) : list Byte.byte :=
  p <$> seqZ offset length.

(** Modelled from the spec: the missing chunkserver
    [Read(chunk, offset, length, minimum)].  Fails on an unknown chunk;
    fails out of bounds, without a version, when
    [offset + length > MaxChunkSize]; returns the bytes of the
    [latestVisible] version when [minimum] is [AnyVersion] or
    [latestVisible >= minimum]; otherwise fails and returns the current
    [latestVisible]. *)
Definition Read (cs : gmap Z ReplicaChunkState)
    (chunk : apis.ChunkNum) (offset length : Z) (minimum : apis.Version)
  : list Byte.byte * apis.Version * option error :=
  match cs !! chunk with
  | None => ([], 0, Some errNotFound)
  | Some rs =>
      if decide (apis.MaxChunkSize < offset + length)
      then ([], 0, Some errOutOfBounds)
      else if decide (minimum = apis.AnyVersion ∨ minimum ≤ latestVisible rs)
      then
        match committed rs !! latestVisible rs with
        | Some p => (readBytes p offset length, latestVisible rs, None)
        | None => ([], 0, Some errNotFound)
        end
      else ([], latestVisible rs, Some errStaleVersion)
  end.

(** Modelled from the spec: the missing chunkserver
    [StartWrite(chunk, offset, data)].  Stages the span under the commit
    hash of offset and data; fails on an unknown chunk and when
    [offset + len(data) > MaxChunkSize]; no committed version changes. *)
Definition StartWrite {dg : Digest}
    (chunk : apis.ChunkNum) (offset : Z) (data : list Byte.byte)
    (cs : gmap Z ReplicaChunkState)
  : option error * gmap Z ReplicaChunkState :=
  match cs !! chunk with
  | None => (Some errNotFound, cs)
  | Some rs =>
      if decide (apis.MaxChunkSize < offset + Z.of_nat (length data))
      then (Some errOutOfBounds, cs)
      else
        (None,
         <[chunk := {| committed := committed rs;
                       latestVisible := latestVisible rs;
                       prepared :=
                         <[commitHash offset data := [(offset, data)]]>
                           (prepared rs) |}]>
           cs)
  end.

(** Modelled from the spec: the missing chunkserver
    [CommitWrite(chunk, hash, oldVersion, newVersion)].  Requires
    [newVersion > oldVersion], [oldVersion] committed and [hash] staged;
    stores the payload of [oldVersion] with the staged write applied as
    [newVersion], consumes the staged entry, leaves [latestVisible]. *)
Definition CommitWrite
    (chunk : apis.ChunkNum) (hash : string) (oldVersion newVersion : apis.Version)
    (cs : gmap Z ReplicaChunkState)
  : option error * gmap Z ReplicaChunkState :=
  match cs !! chunk with
  | None => (Some errNotFound, cs)
  | Some rs =>
      if decide (oldVersion < newVersion) then
        match committed rs !! oldVersion, prepared rs !! hash with
        | Some p, Some spans =>
            (None,
             <[chunk := {| committed :=
                             <[newVersion := applySpans p spans]> (committed rs);
                           latestVisible := latestVisible rs;
                           prepared := delete hash (prepared rs) |}]> cs)
        | _, _ => (Some errNotFound, cs)
        end
      else (Some errInvalid, cs)
  end.

(** Modelled from the spec: the missing chunkserver
    [UpdateLatestVersion(chunk, oldVersion, newVersion)].  If
    [latestVisible = oldVersion] (and [newVersion >= oldVersion]), sets
    [latestVisible] to [newVersion] and deletes every committed version
    below [newVersion]; otherwise fails without a change. *)
Definition UpdateLatestVersion
    (chunk : apis.ChunkNum) (oldVersion newVersion : apis.Version)
    (cs : gmap Z ReplicaChunkState)
  : option error * gmap Z ReplicaChunkState :=
  match cs !! chunk with
  | None => (Some errNotFound, cs)
  | Some rs =>
      if decide (latestVisible rs = oldVersion) then
        if decide (oldVersion ≤ newVersion) then
          (None,
           <[chunk := {| committed :=
                           filter (λ kv, newVersion ≤ kv.1) (committed rs);
                         latestVisible := newVersion;
                         prepared := prepared rs |}]> cs)
        else (Some errInvalid, cs)
      else (Some errStaleVersion, cs)
  end.

(** Modelled from the spec: the replica state of a chunk right after the
    missing [Add]. *)
Definition added (initialData : list Byte.byte) (initialVersion : apis.Version)
  : ReplicaChunkState :=
  {| committed := {[ initialVersion := zeroPad initialData ]};
     latestVisible := initialVersion;
     prepared := ∅ |}.

(** Modelled from the spec: the missing chunkserver
    [Add(chunk, initialData, initialVersion)].  Requires
    [initialVersion > 0]; fails if the chunk exists. *)
Definition Add
    (chunk : apis.ChunkNum) (initialData : list Byte.byte)
    (initialVersion : apis.Version) (cs : gmap Z ReplicaChunkState)
  : option error * gmap Z ReplicaChunkState :=
  if decide (0 < initialVersion) then
    match cs !! chunk with
    | Some _ => (Some errExists, cs)
    | None =>
        (None, <[chunk := added initialData initialVersion]> cs)
    end
  else (Some errInvalid, cs).

(** Modelled from the spec: the missing chunkserver
    [Delete(chunk, version)].  Removes the chunk if
    [latestVisible = version] and no committed version is above
    [version]; otherwise fails. *)
Definition Delete (chunk : apis.ChunkNum) (version : apis.Version)
    (cs : gmap Z ReplicaChunkState)
  : option error * gmap Z ReplicaChunkState :=
  match cs !! chunk with
  | None => (Some errNotFound, cs)
  | Some rs =>
      if decide (latestVisible rs = version
                 ∧ map_Forall (λ v _, v ≤ version) (committed rs))
      then (None, delete chunk cs)
      else (Some errStaleVersion, cs)
  end.

(** Modelled from the spec: one call on the chunkserver [r] of a cluster,
    standing for the missing RPC client; a server that is not there
    gives a transport error. *)
Definition onServer
    (op : gmap Z ReplicaChunkState → option error * gmap Z ReplicaChunkState)
    (r : apis.ServerID) (servers : gmap Z (gmap Z ReplicaChunkState))
  : option error * gmap Z (gmap Z ReplicaChunkState) :=
  match servers !! r with
  | None => (Some errTransport, servers)
  | Some cs => let '(err, cs') := op cs in (err, <[r := cs']> servers)
  end.

(** Modelled from the spec: the same call "on every replica
    concurrently" (the missing fan-out of client and chunkserver).  Every
    call is issued; the first error, if any, is the result. *)
Fixpoint onEach
    (op : gmap Z ReplicaChunkState → option error * gmap Z ReplicaChunkState)
    (rs : list apis.ServerID) (servers : gmap Z (gmap Z ReplicaChunkState))
  : option error * gmap Z (gmap Z ReplicaChunkState) :=
  match rs with
  | [] => (None, servers)
  | r :: rs' =>
      let '(e1, s1) := onServer op r servers in
      let '(e2, s2) := onEach op rs' s1 in
      (match e1 with Some e => Some e | None => e2 end, s2)
  end.

(** Modelled from the spec: the missing
    [StartWriteReplicated(chunk, offset, data, replicas)] on the
    chunkserver [primary]: stage locally, then on each listed replica;
    fails if any fails to stage. *)
Definition StartWriteReplicated {dg : Digest}
    (primary : apis.ServerID)
    (chunk : apis.ChunkNum) (offset : Z) (data : list Byte.byte)
    (replicas : list apis.ServerID)
    (servers : gmap Z (gmap Z ReplicaChunkState))
  : option error * gmap Z (gmap Z ReplicaChunkState) :=
  let '(err, s1) := onServer (StartWrite chunk offset data) primary servers in
  match err with
  | Some e => (Some e, s1)
  | None => onEach (StartWrite chunk offset data) replicas s1
  end.

(** No committed version of a replica lies below its [latestVisible]: an
    invariant of the modelled engine, kept by every operation. *)
Definition wfReplica (rs : ReplicaChunkState) : Prop :=
  map_Forall (λ v _, latestVisible rs ≤ v) (committed rs).

Definition wfServer (cs : gmap Z ReplicaChunkState) : Prop :=
  map_Forall (λ _ rs, wfReplica rs) cs.

End chunkserver.

(** ** The metadata cache *)

Module metadatacache.

(** Modelled from the spec: the state of the metadata cache.  The sources
    hold the cache's RPC proxies, not the cache itself.  [entries] are
    the entries this cache owns; [redirect] records the chunks whose
    entry another cache owns, with the owner's name; [nextChunk] stands
    for the externally coordinated sequence of chunk numbers. *)
Record State : Type := {
  entries : gmap Z apis.MetadataEntry;
  nextChunk : apis.ChunkNum;
  redirect : gmap Z string
}.

Definition errNotFound : error := mkError NotFound "no such entry".
Definition errNotOwner : error := mkError NotOwner "not the owner of this entry".
Definition errStaleEntry : error := mkError StaleEntry "entry changed".
Definition errInvalid : error := mkError InvalidArgument "versions went backwards".

Definition withEntries (mc : State) (es : gmap Z apis.MetadataEntry) : State :=
  {| entries := es; nextChunk := nextChunk mc; redirect := redirect mc |}.

(** Modelled from the spec: the missing [NewEntry()].  Allocates the next
    chunk number and an entry with both versions 0 and no replicas. *)
Definition NewEntry (mc : State) : (apis.ChunkNum * option error) * State :=
  ((nextChunk mc, None),
   {| entries := <[nextChunk mc := apis.zeroEntry]> (entries mc);
      nextChunk := nextChunk mc + 1;
      redirect := redirect mc |}).

(** Modelled from the spec: the missing [ReadEntry(chunk)].  The entry if
    this cache owns the chunk; the zero entry, the owner's name and a
    not-owner error if another cache does; a not-found error without an
    owner if the chunk does not exist. *)
Definition ReadEntry (mc : State) (chunk : apis.ChunkNum)
  : apis.MetadataEntry * apis.ServerName * option error :=
  match redirect mc !! chunk with
  | Some owner => (apis.zeroEntry, owner, Some errNotOwner)
  | None =>
      match entries mc !! chunk with
      | Some entry => (entry, "", None)
      | None => (apis.zeroEntry, "", Some errNotFound)
      end
  end.

(** Modelled from the spec: the three invariants "enforced on every
    successful UpdateEntry" (part of the missing [UpdateEntry]). *)
Definition advances (prev next : apis.MetadataEntry) : Prop :=
  apis.MostRecentVersion prev ≤ apis.MostRecentVersion next
  ∧ apis.LastConsumedVersion prev ≤ apis.LastConsumedVersion next
  ∧ apis.LastConsumedVersion next ≤ apis.MostRecentVersion next.

#[global] Instance advances_dec prev next : Decision (advances prev next).
Proof. unfold advances. apply _. Defined.

(** Modelled from the spec: the missing [UpdateEntry(chunk, prev, next)],
    a compare-and-swap.  Redirects when another cache owns the chunk;
    fails with a stale-entry error, without a change, when the current
    entry differs from [prev]; enforces the three invariants; otherwise
    publishes [next] and returns the empty owner and no error. *)
Definition UpdateEntry (mc : State) (chunk : apis.ChunkNum)
    (prev next : apis.MetadataEntry)
  : (apis.ServerName * option error) * State :=
  match redirect mc !! chunk with
  | Some owner => ((owner, Some errNotOwner), mc)
  | None =>
      match entries mc !! chunk with
      | None => (("", Some errNotFound), mc)
      | Some current =>
          if decide (current = prev) then
            if decide (advances prev next)
            then (("", None), withEntries mc (<[chunk := next]> (entries mc)))
            else (("", Some errInvalid), mc)
          else (("", Some errStaleEntry), mc)
      end
  end.

(** Modelled from the spec: the missing [DeleteEntry(chunk, prev)], as
    [UpdateEntry], but the entry is removed. *)
Definition DeleteEntry (mc : State) (chunk : apis.ChunkNum)
    (prev : apis.MetadataEntry)
  : (apis.ServerName * option error) * State :=
  match redirect mc !! chunk with
  | Some owner => ((owner, Some errNotOwner), mc)
  | None =>
      match entries mc !! chunk with
      | None => (("", Some errNotFound), mc)
      | Some current =>
          if decide (current = prev)
          then (("", None), withEntries mc (delete chunk (entries mc)))
          else (("", Some errStaleEntry), mc)
      end
  end.

(** The cache behind the [apis.MetadataCache] interface. *)
Definition asMetadataCache : apis.MetadataCache State :=
  {| apis.NewEntry := λ mc, Returns (NewEntry mc);
     apis.ReadEntry := λ chunk mc, Returns (ReadEntry mc chunk, mc);
     apis.UpdateEntry := λ chunk prev next mc,
       Returns (UpdateEntry mc chunk prev next);
     apis.DeleteEntry := λ chunk prev mc, Returns (DeleteEntry mc chunk prev) |}.

(** A run of successful [UpdateEntry] operations. *)
Inductive updates : State → State → Prop :=
| updates_nil mc : updates mc mc
| updates_cons mc chunk prev next mc' mc'' :
    UpdateEntry mc chunk prev next = (("", None), mc') →
    updates mc' mc'' →
    updates mc mc''.

(** I1 on every entry of a cache. *)
Definition I1 (mc : State) : Prop :=
  ∀ chunk e, entries mc !! chunk = Some e →
    apis.LastConsumedVersion e ≤ apis.MostRecentVersion e.

End metadatacache.

(** ** The client write coordinator *)

Module client.

(** Modelled from the spec: what the missing client coordinates, a local
    cluster as the tests prepare it ([PrepareLocalCluster]): one
    metadata cache and the chunkservers, keyed by their identifier.  The
    sources hold the client's tests, not the client. *)
Record Cluster : Type := {
  cache : metadatacache.State;
  servers : gmap Z (gmap Z chunkserver.ReplicaChunkState)
}.

Definition errNoReplica : error := mkError ReplicationFailure "no replica".
Definition errStaleVersion : error := mkError StaleVersion "stale version".

Section coordinator.
Context {dg : Digest}.

(** Modelled from the spec: the replicas tried in turn by the missing
    client [Read]; [last] is the error of the last failure. *)
Fixpoint readFrom (sv : gmap Z (gmap Z chunkserver.ReplicaChunkState))
    (chunk : apis.ChunkNum) (offset length : Z) (minimum : apis.Version)
    (replicas : list apis.ServerID) (last : error)
  : list Byte.byte * apis.Version * option error :=
  match replicas with
  | [] => ([], 0, Some last)
  | r :: replicas' =>
      match sv !! r with
      | None =>
          readFrom sv chunk offset length minimum replicas' chunkserver.errTransport
      | Some cs =>
          let '(data, version, err) :=
            chunkserver.Read cs chunk offset length minimum in
          match err with
          | None => (data, version, None)
          | Some e => readFrom sv chunk offset length minimum replicas' e
          end
      end
  end.

(** Modelled from the spec: the missing client
    [Read(chunk, offset, length)].  Fetch the entry; call the
    chunkserver's [Read] with the entry's [LastConsumedVersion] as the
    minimum on a replica, and on another one when that fails. *)
Definition Read (cl : Cluster) (chunk : apis.ChunkNum) (offset length : Z)
  : list Byte.byte * apis.Version * option error :=
  let '(entry, _, err) := metadatacache.ReadEntry (cache cl) chunk in
  match err with
  | Some e => ([], 0, Some e)
  | None =>
      readFrom (servers cl) chunk offset length
        (apis.LastConsumedVersion entry) (apis.Replicas entry) errNoReplica
  end.

(** Modelled from the spec: the missing client
    [Write(chunk, offset, data, previousVersion)], steps 1 to 7 of the
    protocol.  A stale [previousVersion] (step 1) and a lost race on the
    entry (step 5) return the stale-version error with the current
    [MostRecentVersion]; every other failure returns version 0. *)
Definition Write (cl : Cluster) (chunk : apis.ChunkNum) (offset : Z)
    (data : list Byte.byte) (previousVersion : apis.Version)
  : (apis.Version * option error) * Cluster :=
  let '(entry, _, err) := metadatacache.ReadEntry (cache cl) chunk in
  match err with
  | Some e => ((0, Some e), cl)
  | None =>
  if decide (previousVersion ≠ apis.AnyVersion
             ∧ apis.MostRecentVersion entry ≠ previousVersion)
  then ((apis.MostRecentVersion entry, Some errStaleVersion), cl)
  else
  match apis.Replicas entry with
  | [] => ((0, Some errNoReplica), cl)
  | primary :: others =>
  let '(err, sv1) :=
    chunkserver.StartWriteReplicated primary chunk offset data others (servers cl) in
  match err with
  | Some e => ((0, Some e), {| cache := cache cl; servers := sv1 |})
  | None =>
  let newVersion := uint64 (apis.MostRecentVersion entry + 1) in
  let hash := commitHash offset data in
  let '(err, sv2) :=
    chunkserver.onEach
      (chunkserver.CommitWrite chunk hash (apis.MostRecentVersion entry) newVersion)
      (apis.Replicas entry) sv1 in
  match err with
  | Some e => ((0, Some e), {| cache := cache cl; servers := sv2 |})
  | None =>
  let committedEntry :=
    {| apis.MostRecentVersion := newVersion;
       apis.LastConsumedVersion := apis.LastConsumedVersion entry;
       apis.Replicas := apis.Replicas entry |} in
  let '((_, err), mc1) :=
    metadatacache.UpdateEntry (cache cl) chunk entry committedEntry in
  match err with
  | Some e =>
      if decide (errKind e = StaleEntry) then
        ((apis.MostRecentVersion (metadatacache.ReadEntry mc1 chunk).1.1,
          Some errStaleVersion),
         {| cache := mc1; servers := sv2 |})
      else ((0, Some e), {| cache := mc1; servers := sv2 |})
  | None =>
  let '(err, sv3) :=
    chunkserver.onEach
      (chunkserver.UpdateLatestVersion chunk
         (apis.LastConsumedVersion entry) newVersion)
      (apis.Replicas entry) sv2 in
  match err with
  | Some e => ((0, Some e), {| cache := mc1; servers := sv3 |})
  | None =>
  let '((_, err), mc2) :=
    metadatacache.UpdateEntry mc1 chunk committedEntry
      {| apis.MostRecentVersion := newVersion;
         apis.LastConsumedVersion := newVersion;
         apis.Replicas := apis.Replicas entry |} in
  match err with
  | Some e => ((0, Some e), {| cache := mc2; servers := sv3 |})
  | None => ((newVersion, None), {| cache := mc2; servers := sv3 |})
  end end end end end end end.

(** Modelled from the spec: the missing client [Delete(chunk, version)].
    Read the entry; require [LastConsumedVersion = version]; tombstone
    the entry with [DeleteEntry]; then [Delete] on every replica. *)
Definition Delete (cl : Cluster) (chunk : apis.ChunkNum) (version : apis.Version)
  : option error * Cluster :=
  let '(entry, _, err) := metadatacache.ReadEntry (cache cl) chunk in
  match err with
  | Some e => (Some e, cl)
  | None =>
      if decide (apis.LastConsumedVersion entry = version) then
        let '((_, err), mc1) :=
          metadatacache.DeleteEntry (cache cl) chunk entry in
        match err with
        | Some e => (Some e, {| cache := mc1; servers := servers cl |})
        | None =>
            let '(err, sv1) :=
              chunkserver.onEach (chunkserver.Delete chunk version)
                (apis.Replicas entry) (servers cl) in
            (err, {| cache := mc1; servers := sv1 |})
        end
      else (Some errStaleVersion, cl)
  end.

(** A chunk at rest: its entry is readable, its replicas are distinct,
    and each holds the chunk with [latestVisible] at the entry's
    [LastConsumedVersion] and no committed version above it. *)
Definition settled (cl : Cluster) (chunk : apis.ChunkNum)
    (entry : apis.MetadataEntry) : Prop :=
  metadatacache.ReadEntry (cache cl) chunk = (entry, "", None)
  ∧ NoDup (apis.Replicas entry)
  ∧ ∀ r, r ∈ apis.Replicas entry →
      ∃ cs rs,
        servers cl !! r = Some cs
        ∧ cs !! chunk = Some rs
        ∧ chunkserver.latestVisible rs = apis.LastConsumedVersion entry
        ∧ map_Forall (λ v _, v ≤ apis.LastConsumedVersion entry)
            (chunkserver.committed rs).

(** A chunk at rest with nothing left to collect: moreover the entry's
    two versions agree and every replica holds exactly the payload of
    that version. *)
Definition atRest (cl : Cluster) (chunk : apis.ChunkNum)
    (entry : apis.MetadataEntry) : Prop :=
  metadatacache.ReadEntry (cache cl) chunk = (entry, "", None)
  ∧ apis.MostRecentVersion entry = apis.LastConsumedVersion entry
  ∧ NoDup (apis.Replicas entry)
  ∧ ∀ r, r ∈ apis.Replicas entry →
      ∃ cs rs p,
        servers cl !! r = Some cs
        ∧ cs !! chunk = Some rs
        ∧ chunkserver.latestVisible rs = apis.LastConsumedVersion entry
        ∧ chunkserver.committed rs = {[ apis.LastConsumedVersion entry := p ]}.

End coordinator.
End client.

(** ** The two proxies composed *)

Section composition.
Context {conv : IDConv} {S : Type}.

(** An entry after one trip over the wire and back. *)
Definition viaWire (e : apis.MetadataEntry) : apis.MetadataEntry :=
  rpc.entryFromWire (rpc.entryToWire e).

(** The client-side proxy over the server-side adapter, without a
    transport in between. *)
Definition roundTrip (impl : apis.MetadataCache S) : apis.MetadataCache S :=
  rpc.proxyTwirpAsMetadataCache (rpc.proxyMetadataCacheAsTwirp impl).

(** Two [ReadEntry] outcomes agree: same entry, same owner, same error
    text, same next state. *)
Definition sameRead
    (a b : outcome ((apis.MetadataEntry * string * option error) * S)) : Prop :=
  match a, b with
  | Returns r1, Returns r2 =>
      r1.1.1.1 = r2.1.1.1 ∧ r1.1.1.2 = r2.1.1.2
      ∧ Error <$> r1.1.2 = Error <$> r2.1.2 ∧ r1.2 = r2.2
  | Panics, Panics => True
  | _, _ => False
  end.

End composition.

(** ** Concrete instances used by the examples *)

Module examples.

(** Slice conversions that copy element by element. *)
Definition copyConv : IDConv :=
  {| IDArrayToIntArray := λ ids, ids; IntArrayToIDArray := λ ids, ids |}.

(** A transport whose every call fails with [e] and yields no result
    message. *)
Definition failingTransport (e : error) : twirp.MetadataCache unit :=
  {| twirp.NewEntry := λ _ s, Returns ((None, Some e), s);
     twirp.ReadEntry := λ _ s, Returns ((None, Some e), s);
     twirp.UpdateEntry := λ _ s, Returns ((None, Some e), s);
     twirp.DeleteEntry := λ _ s, Returns ((None, Some e), s) |}.

Definition errTimeout : error := mkError Transport "deadline exceeded".

Definition entry32 : apis.MetadataEntry :=
  {| apis.MostRecentVersion := 3;
     apis.LastConsumedVersion := 2;
     apis.Replicas := [0; 1; 2] |}.

Definition entry33 : apis.MetadataEntry :=
  {| apis.MostRecentVersion := 3;
     apis.LastConsumedVersion := 3;
     apis.Replicas := [0; 1; 2] |}.

(** A cache that owns chunk 5 and knows that "mdc1" owns chunk 7. *)
Definition someCache : metadatacache.State :=
  {| metadatacache.entries := {[ 5 := entry32 ]};
     metadatacache.nextChunk := 8;
     metadatacache.redirect := {[ 7 := "mdc1" ]} |}.

(** An implementation that names an owner next to a successful read. *)
Definition chattyCache : apis.MetadataCache unit :=
  {| apis.NewEntry := λ s, Returns ((0, None), s);
     apis.ReadEntry := λ _ s, Returns ((entry32, "mdc1", None), s);
     apis.UpdateEntry := λ _ _ _ s, Returns (("", None), s);
     apis.DeleteEntry := λ _ _ s, Returns (("", None), s) |}.

(** An implementation that returns an entry next to an error. *)
Definition leakyCache : apis.MetadataCache unit :=
  {| apis.NewEntry := λ s, Returns ((0, None), s);
     apis.ReadEntry := λ _ s,
       Returns ((entry32, "", Some metadatacache.errNotFound), s);
     apis.UpdateEntry := λ _ _ _ s, Returns (("", None), s);
     apis.DeleteEntry := λ _ _ s, Returns (("", None), s) |}.

(** A replica of chunk 9 after [Add] at version 1 and one committed,
    not yet visible write at version 2. *)
Definition twoVersions : gmap Z chunkserver.ReplicaChunkState :=
  {[ 9 := {| chunkserver.committed :=
               {[ 1 := chunkserver.zeroPad [];
                  2 := chunkserver.zeroPad [Byte.x68; Byte.x69] ]};
             chunkserver.latestVisible := 1;
             chunkserver.prepared := ∅ |} ]}.

(** A digest that spells out the low byte of the offset and the data. *)
Definition plainDigest : Digest :=
  {| commitHash := λ offset data,
       String (Ascii.ascii_of_N (Z.to_N (offset `mod` 256)))
              (String.string_of_list_byte data) |}.

(** The local cluster of the client tests: one metadata cache and three
    empty chunkservers. *)
Definition localCluster : client.Cluster :=
  {| client.cache :=
       {| metadatacache.entries := ∅;
          metadatacache.nextChunk := 1;
          metadatacache.redirect := ∅ |};
     client.servers := {[ 0 := ∅; 1 := ∅; 2 := ∅ ]} |}.

(** "hello" *)
Definition hello : list Byte.byte :=
  [Byte.x68; Byte.x65; Byte.x6c; Byte.x6c; Byte.x6f].

(** The local cluster with chunk 1 at rest at version 1: each of the
    three chunkservers holds it as [Add] with no data leaves it, and the
    entry names the three with both versions 1.  How the missing client
    brings a chunk to its first version is not modelled. *)
Definition created : client.Cluster :=
  {| client.cache :=
       {| metadatacache.entries :=
            {[ 1 := {| apis.MostRecentVersion := 1;
                       apis.LastConsumedVersion := 1;
                       apis.Replicas := [2; 1; 0] |} ]};
          metadatacache.nextChunk := 2;
          metadatacache.redirect := ∅ |};
     client.servers :=
       {[ 0 := {[ 1 := chunkserver.added [] 1 ]};
          1 := {[ 1 := chunkserver.added [] 1 ]};
          2 := {[ 1 := chunkserver.added [] 1 ]} ]} |}.

(** ... and after [Write(1, 0, "hello", AnyVersion)], which yields
    version 2. *)
Definition written : client.Cluster :=
  (client.Write (dg := plainDigest) created 1 0 hello apis.AnyVersion).2.

End examples.

(** ** package filesystem *)

(** Computations over a state that return normally. *)
Definition St (S A : Type) : Type := S → A * S.

#[global] Instance St_ret (S : Type) : MRet (St S) := λ A a s, (a, s).
#[global] Instance St_bind (S : Type) : MBind (St S) :=
  λ A B f m s, let '(a, s') := m s in f a s'.

(** Go conversions between integer types: [uint32(x)] keeps the low
    32 bits, [int64(x)] the low 64 bits read in two's complement. *)
Definition uint32 (z : Z) : Z := z `mod` 2 ^ 32.
Definition int64 (z : Z) : Z := (z + 2 ^ 63) `mod` 2 ^ 64 - 2 ^ 63.

(** [len(p)] as a Go [int]. *)
Definition len {A : Type} (p : list A) : Z := Z.of_nat (length p).

(** [copy(p, data)]: the elements of [data] over the front of [p], as
    many as fit. *)
Definition copy {A : Type} (p data : list A) : list A :=
  take (length p) data ++ drop (length data) p.

(** The functions [Dir] and [Base] of Go's [path] package and the
    constant [EntrySize], whose declarations are not among the sources. *)
Class PathLib : Type := {
  Dir : string → string;
  Base : string → string;
  EntrySize : Z
}.

Module filesystem.

(** [NodeType]: the four kinds the code names, and any other value. *)
Inductive NodeType : Type :=
| NONEXISTENT
| FILE
| DIRECTORY
| SYMLINK
| otherNodeType (n : Z).

(** A directory entry; the code reads its [Name]. *)
Record Entry : Type := { Name : string }.

(** The methods of [*Traverser], [*Reference] and [*File] that the code
    calls.  The three types are not among the sources; their values are
    handles, and their methods act on a state [S]. *)
Record World (S : Type) : Type := {
  PathDir : string → St S (Z * option error);
  Root : St S (Z * option error);
  Release : Z → St S unit;
  NewDir : Z → string → St S (option error);
  MoveTo : Z → Z → string → string → St S (option error);
  Remove : Z → string → bool → St S (option error);
  NewSymLink : Z → string → string → St S (option error);
  Stat_ : Z → string → St S (NodeType * option error);
  LookupFile : Z → string → St S (Z * option error);
  LookupDir : Z → string → St S (Z * option error);
  LookupSymLink : Z → string → St S (string * option error);
  listEntries : Z → St S (list Entry * option error);
  NewFile : Z → string → St S (option error);
  File_Release : Z → St S unit;
  File_Size : Z → St S (Z * option error);
  File_Truncate : Z → Z → St S (option error);
  File_Read : Z → Z → Z → St S (list Byte.byte * option error);
  File_Write : Z → Z → list Byte.byte → St S (option error)
}.
Arguments PathDir {S} _ _.
Arguments Root {S} _.
Arguments Release {S} _ _.
Arguments NewDir {S} _ _ _.
Arguments MoveTo {S} _ _ _ _ _.
Arguments Remove {S} _ _ _ _.
Arguments NewSymLink {S} _ _ _ _.
Arguments Stat_ {S} _ _ _.
Arguments LookupFile {S} _ _ _.
Arguments LookupDir {S} _ _ _.
Arguments LookupSymLink {S} _ _ _.
Arguments listEntries {S} _ _.
Arguments NewFile {S} _ _ _.
Arguments File_Release {S} _ _.
Arguments File_Size {S} _ _.
Arguments File_Truncate {S} _ _ _.
Arguments File_Read {S} _ _ _ _.
Arguments File_Write {S} _ _ _ _.

(** [fsFileInfo] *)
Record fsFileInfo : Type := { name : string; size : Z; isdir : bool }.

Definition fsFileInfo_Name (f : fsFileInfo) : string := name f.
Definition fsFileInfo_Size (f : fsFileInfo) : Z := size f.
(** [os.FileMode(0040755)] for a directory, [os.FileMode(0100755)]
    otherwise (octal). *)
Definition fsFileInfo_Mode (f : fsFileInfo) : Z :=
  if isdir f then 16877 else 33261.
Definition fsFileInfo_IsDir (f : fsFileInfo) : bool := isdir f.

(** [fileStream] *)
Record fileStream : Type := { f : Z; closed : bool; head : Z }.

Definition errClosed : error := errors_New "file already closed".
Definition errNotWritable : error := errors_New "not a writable file".
Definition errNoSuchFile : error := errors_New "no such file".
Definition errInvalidStat : error :=
  errors_New "internal error: invalid stat result".
Definition errMismatched : error :=
  errors_New "mismatched exclusive/create options".
(** [io.EOF] *)
Definition io_EOF : error := errors_New "EOF".
(** [fmt.Errorf("two errors: %v -- and -- %v", err, err2)] *)
Definition twoErrors (err err2 : error) : error :=
  errors_New ("two errors: " +:+ Error err +:+ " -- and -- " +:+ Error err2).

(** [io.SeekStart], [io.SeekCurrent], [io.SeekEnd] *)
Definition io_SeekStart : Z := 0.
Definition io_SeekCurrent : Z := 1.
Definition io_SeekEnd : Z := 2.

Section methods.
Context {lib : PathLib} {S : Type} (w : World S).

(** *** filesystem *)

Definition Mkdir (path : string) : St S (option error) :=
  '(ref, err) ← PathDir w (Dir path);
  match err with
  | Some e => mret (Some e)
  | None =>
      result ← NewDir w ref (Base path);
      _ ← Release w ref;
      mret result
  end.

Definition Rename (source dest : string) : St S (option error) :=
  '(srcDir, err) ← PathDir w (Dir source);
  match err with
  | Some e => mret (Some e)
  | None =>
      '(destDir, err) ← PathDir w (Dir dest);
      match err with
      | Some e => _ ← Release w srcDir; mret (Some e)
      | None =>
          result ← MoveTo w srcDir destDir source dest;
          _ ← Release w destDir;
          _ ← Release w srcDir;
          mret result
      end
  end.

Definition Unlink (path : string) : St S (option error) :=
  '(ref, err) ← PathDir w (Dir path);
  match err with
  | Some e => mret (Some e)
  | None =>
      result ← Remove w ref (Base path) false;
      _ ← Release w ref;
      mret result
  end.

Definition Rmdir (path : string) : St S (option error) :=
  '(ref, err) ← PathDir w (Dir path);
  match err with
  | Some e => mret (Some e)
  | None =>
      result ← Remove w ref (Base path) true;
      _ ← Release w ref;
      mret result
  end.

Definition SymLink (source dest : string) : St S (option error) :=
  '(ref, err) ← PathDir w (Dir source);
  match err with
  | Some e => mret (Some e)
  | None =>
      result ← NewSymLink w ref (Base source) dest;
      _ ← Release w ref;
      mret result
  end.

(** The [FILE] case of [Stat]. *)
Definition Stat_file (ref : Z) (path : string)
  : St S (option fsFileInfo * option error) :=
  '(file, err) ← LookupFile w ref (Base path);
  match err with
  | Some e => mret (None, Some e)
  | None =>
      '(sz, err) ← File_Size w file;
      result ←
        match err with
        | Some e => mret (None, Some e)
        | None =>
            mret (Some {| name := Base path; isdir := false;
                          size := int64 sz |}, None)
        end;
      _ ← File_Release w file;
      mret result
  end.

(** The [DIRECTORY] case of [Stat]. *)
Definition Stat_directory (ref : Z) (path : string)
  : St S (option fsFileInfo * option error) :=
  '(r, err) ←
    (if decide (path = "/") then Root w else LookupDir w ref (Base path));
  match err with
  | Some e => mret (None, Some e)
  | None =>
      '(entries, err) ← listEntries w r;
      result ←
        match err with
        | Some e => mret (None, Some e)
        | None =>
            mret (Some {| name := Base path; isdir := true;
                          size := int64 (int64 (EntrySize * len entries)) |},
                  None)
        end;
      _ ← Release w r;
      mret result
  end.

(** The [SYMLINK] case of [Stat]. *)
Definition Stat_symlink (ref : Z) (path : string)
  : St S (option fsFileInfo * option error) :=
  '(link, err) ← LookupSymLink w ref (Base path);
  match err with
  | Some e => mret (None, Some e)
  | None =>
      mret (Some {| name := Base path; isdir := false;
                    size := int64 (Z.of_nat (String.length link)) |}, None)
  end.

Definition Stat (path : string) : St S (option fsFileInfo * option error) :=
  '(ref, err) ← PathDir w (Dir path);
  match err with
  | Some e => mret (None, Some e)
  | None =>
      '(ntype, err) ←
        (if decide (path = "/") then mret (DIRECTORY, None)
         else Stat_ w ref (Base path));
      result ←
        match err with
        | Some e => mret (None, Some e)
        | None =>
            match ntype with
            | NONEXISTENT => mret (None, Some errNoSuchFile)
            | FILE => Stat_file ref path
            | DIRECTORY => Stat_directory ref path
            | SYMLINK => Stat_symlink ref path
            | otherNodeType _ => mret (None, Some errInvalidStat)
            end
        end;
      _ ← Release w ref;
      mret result
  end.

Definition ReadLink (path : string) : St S (string * option error) :=
  '(ref, err) ← PathDir w (Dir path);
  match err with
  | Some e => mret ("", Some e)
  | None =>
      '(link, err) ← LookupSymLink w ref (Base path);
      _ ← Release w ref;
      match err with
      | Some e => mret ("", Some e)
      | None => mret (link, None)
      end
  end.

Definition ListDir (path : string) : St S (list string * option error) :=
  '(ref, err) ← PathDir w path;
  match err with
  | Some e => mret ([], Some e)
  | None =>
      '(entries, err) ← listEntries w ref;
      _ ← Release w ref;
      match err with
      | Some e => mret ([], Some e)
      | None => mret (Name <$> entries, None)
      end
  end.

Definition Truncate (path : string) (length : Z) : St S (option error) :=
  '(ref, err) ← PathDir w (Dir path);
  match err with
  | Some e => mret (Some e)
  | None =>
      '(file, err) ← LookupFile w ref (Base path);
      result ←
        match err with
        | Some e => mret (Some e)
        | None =>
            result ← File_Truncate w file length;
            _ ← File_Release w file;
            mret result
        end;
      _ ← Release w ref;
      mret result
  end.

Definition OpenRead (path : string) : St S (option fileStream * option error) :=
  '(ref, err) ← PathDir w (Dir path);
  match err with
  | Some e => mret (None, Some e)
  | None =>
      '(file, err) ← LookupFile w ref (Base path);
      _ ← Release w ref;
      match err with
      | Some e => mret (None, Some e)
      | None => mret (Some {| f := file; closed := false; head := 0 |}, None)
      end
  end.

(** The body of [OpenWrite] between the deferred release and the final
    return: the file to open, or the error. *)
Definition OpenWrite_file (ref : Z) (path : string) (create exclusive : bool)
  : St S (Z * option error) :=
  if exclusive then
    if negb create then mret (0, Some errMismatched)
    else
      err ← NewFile w ref (Base path);
      match err with
      | Some e => mret (0, Some e)
      | None => LookupFile w ref (Base path)
      end
  else
    '(file, err) ← LookupFile w ref (Base path);
    match err with
    | None => mret (file, None)
    | Some e =>
        if create then
          err2 ← NewFile w ref (Base path);
          match err2 with
          | Some e2 => mret (0, Some (twoErrors e e2))
          | None =>
              '(file, err2) ← LookupFile w ref (Base path);
              match err2 with
              | Some e2 => mret (0, Some (twoErrors e e2))
              | None => mret (file, None)
              end
          end
        else mret (0, Some e)
    end.

Definition OpenWrite (path : string) (create exclusive : bool)
  : St S (option fileStream * option error) :=
  '(ref, err) ← PathDir w (Dir path);
  match err with
  | Some e => mret (None, Some e)
  | None =>
      '(file, err) ← OpenWrite_file ref path create exclusive;
      _ ← Release w ref;
      match err with
      | Some e => mret (None, Some e)
      | None => mret (Some {| f := file; closed := false; head := 0 |}, None)
      end
  end.

(** *** fileStream *)

(** Each method returns the stream as the call leaves it; [Read] and
    [ReadAt] also return the caller's buffer as the call leaves it. *)

Definition fileStream_Read (fs : fileStream) (p : list Byte.byte)
  : St S (fileStream * list Byte.byte * Z * option error) :=
  if closed fs then mret (fs, p, 0, Some errClosed)
  else
    '(data, err) ← File_Read w (f fs) (head fs) (uint32 (len p));
    match err with
    | Some e => mret (fs, p, 0, Some e)
    | None =>
        if decide (len data = 0 ∧ 0 < len p)
        then mret (fs, p, 0, Some io_EOF)
        else
          mret ({| f := f fs; closed := closed fs;
                   head := uint32 (head fs + uint32 (len data)) |},
                copy p data, len data, None)
    end.

Definition fileStream_ReadAt (fs : fileStream) (p : list Byte.byte) (off : Z)
  : St S (fileStream * list Byte.byte * Z * option error) :=
  if closed fs then mret (fs, p, 0, Some errClosed)
  else
    '(data, err) ← File_Read w (f fs) (uint32 off) (uint32 (len p));
    match err with
    | Some e => mret (fs, p, 0, Some e)
    | None =>
        if decide (len data < len p)
        then mret (fs, copy p data, len data, Some io_EOF)
        else mret (fs, copy p data, len data, None)
    end.

Definition fileStream_Write (fs : fileStream) (p : list Byte.byte)
  : St S (fileStream * Z * option error) :=
  if closed fs then mret (fs, 0, Some errClosed)
  else
    err ← File_Write w (f fs) (head fs) p;
    match err with
    | Some e => mret (fs, 0, Some e)
    | None =>
        mret ({| f := f fs; closed := closed fs;
                 head := uint32 (head fs + uint32 (len p)) |}, len p, None)
    end.

Definition fileStream_WriteAt (fs : fileStream) (p : list Byte.byte) (off : Z)
  : St S (fileStream * Z * option error) :=
  if closed fs then mret (fs, 0, Some errClosed)
  else
    err ← File_Write w (f fs) (uint32 off) p;
    match err with
    | Some e => mret (fs, 0, Some e)
    | None => mret (fs, len p, None)
    end.

Definition fileStream_Seek (fs : fileStream) (offset whence : Z)
  : St S (fileStream * Z * option error) :=
  if closed fs then mret (fs, 0, Some errClosed)
  else
    '(nhead, err) ←
      (if decide (whence = io_SeekStart) then mret (uint32 offset, None)
       else if decide (whence = io_SeekCurrent)
       then mret (uint32 (int64 (int64 (head fs) + offset)), None)
       else if decide (whence = io_SeekEnd) then
         '(sz, err) ← File_Size w (f fs);
         match err with
         | Some e => mret (0, Some e)
         | None => mret (uint32 (int64 (int64 sz + offset)), None)
         end
       else mret (0, None));
    match err with
    | Some e => mret (fs, 0, Some e)
    | None =>
        mret ({| f := f fs; closed := closed fs; head := nhead |},
              int64 nhead, None)
    end.

Definition fileStream_Truncate (fs : fileStream) (length : Z)
  : St S (fileStream * option error) :=
  err ← File_Truncate w (f fs) (uint32 length);
  mret (fs, err).

Definition fileStream_Close (fs : fileStream)
  : St S (fileStream * option error) :=
  if closed fs then mret (fs, None)
  else
    _ ← File_Release w (f fs);
    mret ({| f := f fs; closed := true; head := head fs |}, None).

End methods.

(** *** The file interfaces *)

(** [ReadOnlyFile]: [io.Reader], [io.ReaderAt], [io.Seeker], [io.Closer],
    over the state [T] of the value behind the interface.  [Read] and
    [ReadAt] return the buffer as the call leaves it. *)
Record ReadOnlyFile (T : Type) : Type := {
  ro_Read : list Byte.byte → St T (list Byte.byte * Z * option error);
  ro_ReadAt : list Byte.byte → Z → St T (list Byte.byte * Z * option error);
  ro_Seek : Z → Z → St T (Z * option error);
  ro_Close : St T (option error)
}.
Arguments ro_Read {T} _ _.
Arguments ro_ReadAt {T} _ _ _.
Arguments ro_Seek {T} _ _ _.
Arguments ro_Close {T} _.

(** [WritableFile] *)
Record WritableFile (T : Type) : Type := {
  wf_Read : list Byte.byte → St T (list Byte.byte * Z * option error);
  wf_ReadAt : list Byte.byte → Z → St T (list Byte.byte * Z * option error);
  wf_Write : list Byte.byte → St T (Z * option error);
  wf_WriteAt : list Byte.byte → Z → St T (Z * option error);
  wf_Seek : Z → Z → St T (Z * option error);
  wf_Close : St T (option error);
  wf_Truncate : Z → St T (option error)
}.
Arguments wf_Read {T} _ _.
Arguments wf_ReadAt {T} _ _ _.
Arguments wf_Write {T} _ _.
Arguments wf_WriteAt {T} _ _ _.
Arguments wf_Seek {T} _ _ _.
Arguments wf_Close {T} _.
Arguments wf_Truncate {T} _ _.

(** [erroringWriter], built by [WithErroringWrite]. *)
Definition WithErroringWrite {T : Type} (base : ReadOnlyFile T)
  : WritableFile T :=
  {| wf_Read := λ p, ro_Read base p;
     wf_ReadAt := λ p off, ro_ReadAt base p off;
     wf_Write := λ p, mret (0, Some errNotWritable);
     wf_WriteAt := λ p off, mret (0, Some errNotWritable);
     wf_Truncate := λ length, mret (Some errNotWritable);
     wf_Seek := λ offset whence, ro_Seek base offset whence;
     wf_Close := ro_Close base |}.

(** A [*fileStream] behind [WritableFile]: the state is the stream and
    the state of the world its file lives in. *)
Definition streamFile {S : Type} (w : World S)
  : WritableFile (fileStream * S) :=
  {| wf_Read := λ p '(fs, s),
       let '((fs', p', n, err), s') := fileStream_Read w fs p s in
       ((p', n, err), (fs', s'));
     wf_ReadAt := λ p off '(fs, s),
       let '((fs', p', n, err), s') := fileStream_ReadAt w fs p off s in
       ((p', n, err), (fs', s'));
     wf_Write := λ p '(fs, s),
       let '((fs', n, err), s') := fileStream_Write w fs p s in
       ((n, err), (fs', s'));
     wf_WriteAt := λ p off '(fs, s),
       let '((fs', n, err), s') := fileStream_WriteAt w fs p off s in
       ((n, err), (fs', s'));
     wf_Seek := λ offset whence '(fs, s),
       let '((fs', n, err), s') := fileStream_Seek w fs offset whence s in
       ((n, err), (fs', s'));
     wf_Close := λ '(fs, s),
       let '((fs', err), s') := fileStream_Close w fs s in
       (err, (fs', s'));
     wf_Truncate := λ length '(fs, s),
       let '((fs', err), s') := fileStream_Truncate w fs length s in
       (err, (fs', s')) |}.

(** A [*fileStream] behind [ReadOnlyFile], as [OpenRead] returns it. *)
Definition streamReadOnly {S : Type} (w : World S)
  : ReadOnlyFile (fileStream * S) :=
  {| ro_Read := wf_Read (streamFile w);
     ro_ReadAt := wf_ReadAt (streamFile w);
     ro_Seek := wf_Seek (streamFile w);
     ro_Close := wf_Close (streamFile w) |}.

(** *** Calls on a file, as data *)

Inductive fileCall : Type :=
| CallRead (p : list Byte.byte)
| CallReadAt (p : list Byte.byte) (off : Z)
| CallWrite (p : list Byte.byte)
| CallWriteAt (p : list Byte.byte) (off : Z)
| CallSeek (offset whence : Z)
| CallTruncate (length : Z)
| CallClose.

(** What a call returned: the count or position, and the error. *)
Definition perform {T : Type} (file : WritableFile T) (c : fileCall)
  : St T (Z * option error) :=
  match c with
  | CallRead p => '(_, n, err) ← wf_Read file p; mret (n, err)
  | CallReadAt p off => '(_, n, err) ← wf_ReadAt file p off; mret (n, err)
  | CallWrite p => wf_Write file p
  | CallWriteAt p off => wf_WriteAt file p off
  | CallSeek offset whence => wf_Seek file offset whence
  | CallTruncate length => err ← wf_Truncate file length; mret (0, err)
  | CallClose => err ← wf_Close file; mret (0, err)
  end.

Fixpoint performAll {T : Type} (file : WritableFile T) (cs : list fileCall)
  : St T (list (Z * option error)) :=
  match cs with
  | [] => mret []
  | c :: cs' =>
      r ← perform file c;
      rs ← performAll file cs';
      mret (r :: rs)
  end.

Definition writes (c : fileCall) : bool :=
  match c with
  | CallWrite _ | CallWriteAt _ _ | CallTruncate _ => true
  | _ => false
  end.


(** *** A world that keeps a journal *)

Inductive handleKind : Type := ReferenceHandle | FileHandle.

#[global] Instance handleKind_eq_dec : EqDecision handleKind.
Proof. solve_decision. Defined.

(** What the journal records: a handle obtained, a handle released, a
    call that changes the file system. *)
Inductive event : Type :=
| Obtained (k : handleKind) (h : Z)
| Released (k : handleKind) (h : Z)
| Changed (what : string) (handle : Z).

#[global] Instance event_eq_dec : EqDecision event.
Proof. solve_decision. Defined.

Definition obtains {S : Type} (k : handleKind) (call : St S (Z * option error))
  : St (S * list event) (Z * option error) :=
  λ '(s, journal),
    let '((h, err), s') := call s in
    ((h, err),
     (s', match err with
          | None => journal ++ [Obtained k h]
          | Some _ => journal
          end)).

Definition releases {S : Type} (k : handleKind) (h : Z) (call : St S unit)
  : St (S * list event) unit :=
  λ '(s, journal), let '(u, s') := call s in (u, (s', journal ++ [Released k h])).

Definition changes {A S : Type} (what : string) (h : Z) (call : St S A)
  : St (S * list event) A :=
  λ '(s, journal), let '(a, s') := call s in (a, (s', journal ++ [Changed what h])).

Definition reads {A S : Type} (call : St S A) : St (S * list event) A :=
  λ '(s, journal), let '(a, s') := call s in (a, (s', journal)).

(** The world [w] with every call passed on, and a journal kept of the
    handles obtained and released and of the calls that change the file
    system. *)
Definition journaled {S : Type} (w : World S) : World (S * list event) :=
  {| PathDir := λ path, obtains ReferenceHandle (PathDir w path);
     Root := obtains ReferenceHandle (Root w);
     Release := λ ref, releases ReferenceHandle ref (Release w ref);
     NewDir := λ ref n, changes "NewDir" ref (NewDir w ref n);
     MoveTo := λ src dst source dest,
       changes "MoveTo" src (MoveTo w src dst source dest);
     Remove := λ ref n d, changes "Remove" ref (Remove w ref n d);
     NewSymLink := λ ref n dest, changes "NewSymLink" ref (NewSymLink w ref n dest);
     Stat_ := λ ref n, reads (Stat_ w ref n);
     LookupFile := λ ref n, obtains FileHandle (LookupFile w ref n);
     LookupDir := λ ref n, obtains ReferenceHandle (LookupDir w ref n);
     LookupSymLink := λ ref n, reads (LookupSymLink w ref n);
     listEntries := λ ref, reads (listEntries w ref);
     NewFile := λ ref n, changes "NewFile" ref (NewFile w ref n);
     File_Release := λ file, releases FileHandle file (File_Release w file);
     File_Size := λ file, reads (File_Size w file);
     File_Truncate := λ file l, changes "Truncate" file (File_Truncate w file l);
     File_Read := λ file off l, reads (File_Read w file off l);
     File_Write := λ file off d, changes "Write" file (File_Write w file off d) |}.

(** The handles a journal leaves held, innermost first: [None] when a
    handle is released that is not the innermost one held. *)
Fixpoint held (journal : list event) (stack : list (handleKind * Z))
  : option (list (handleKind * Z)) :=
  match journal with
  | [] => Some stack
  | Obtained k h :: rest => held rest ((k, h) :: stack)
  | Released k h :: rest =>
      match stack with
      | top :: stack' =>
          if decide (top = (k, h)) then held rest stack' else None
      | [] => None
      end
  | Changed _ _ :: rest => held rest stack
  end.

(** A bag of handles with one occurrence of [x] taken out: [None] when
    there is none. *)
Fixpoint takeOut (x : handleKind * Z) (bag : list (handleKind * Z))
  : option (list (handleKind * Z)) :=
  match bag with
  | [] => None
  | y :: bag' =>
      if decide (x = y) then Some bag' else (y ::.) <$> takeOut x bag'
  end.

(** The handles a journal leaves held, in whatever order they are
    released: [None] when a handle is released that is not held. *)
Fixpoint kept (journal : list event) (bag : list (handleKind * Z))
  : option (list (handleKind * Z)) :=
  match journal with
  | [] => Some bag
  | Obtained k h :: rest => kept rest ((k, h) :: bag)
  | Released k h :: rest => takeOut (k, h) bag ≫= kept rest
  | Changed _ _ :: rest => kept rest bag
  end.

(** The calls of a journal that change the file system. *)
Definition changesOf (journal : list event) : list (string * Z) :=
  omap (λ e, match e with Changed what h => Some (what, h) | _ => None end)
    journal.

(** The handles a journal releases. *)
Definition releasesOf (journal : list event) : list (handleKind * Z) :=
  omap (λ e, match e with Released k h => Some (k, h) | _ => None end) journal.

(** A computation adds [evs] to the journal, whatever the state. *)
Definition journals {S A : Type} (m : St (S * list event) A)
    (P : A → list event → Prop) : Prop :=
  ∀ s journal, ∃ evs, (m (s, journal)).2.2 = journal ++ evs
                      ∧ P (m (s, journal)).1 evs.

End filesystem.

(** * Properties of the RPC proxies *)

Ltac msimpl :=
  repeat (unfold mbind, M_bind, mret, M_ret, deref, panic, Error_of in *;
          simpl in * ).

Section proxy_facts.
Context {conv : IDConv} {S : Type}.

Lemma Error_errors_New text : Error (errors_New text) = text.
Proof. reflexivity. Qed.

Lemma viaWire_id e :
  (∀ ids, IntArrayToIDArray (IDArrayToIntArray ids) = ids) → viaWire e = e.
Proof.
  intros Hrt. destruct e as [m l r]. unfold viaWire, rpc.entryFromWire,
    rpc.entryToWire. simpl. by rewrite Hrt.
Qed.

(** *** What the server-side adapter puts on the wire *)

Lemma adapter_UpdateEntry_wire impl chunk pw nw s owner err s' :
  apis.UpdateEntry impl chunk (rpc.entryFromWire pw) (rpc.entryFromWire nw) s
    = Returns ((owner, err), s') →
  rpc.proxyMetadataCacheAsTwirp_UpdateEntry impl
    {| twirp.UpdateEntry_Chunk := chunk;
       twirp.UpdateEntry_PreviousEntry := Some pw;
       twirp.UpdateEntry_NewEntry := Some nw |} s
  = if decide (owner ≠ "") then
      match err return outcome ((option _ * option error) * S) with
      | Some e =>
          Returns ((Some {| twirp.UpdateEntry_Owner := owner;
                            twirp.UpdateEntry_OwnerErr := Error e |}, None), s')
      | None => Panics
      end
    else Returns ((Some {| twirp.UpdateEntry_Owner := owner;
                           twirp.UpdateEntry_OwnerErr := "" |}, err), s').
Proof.
  intros H. unfold rpc.proxyMetadataCacheAsTwirp_UpdateEntry. msimpl.
  rewrite H. destruct (decide (owner ≠ "")); [destruct err|]; reflexivity.
Qed.

Lemma adapter_DeleteEntry_wire impl chunk pw s owner err s' :
  apis.DeleteEntry impl chunk (rpc.entryFromWire pw) s
    = Returns ((owner, err), s') →
  rpc.proxyMetadataCacheAsTwirp_DeleteEntry impl
    {| twirp.DeleteEntry_Chunk := chunk;
       twirp.DeleteEntry_PreviousEntry := Some pw |} s
  = if decide (owner ≠ "") then
      match err return outcome ((option _ * option error) * S) with
      | Some e =>
          Returns ((Some {| twirp.DeleteEntry_Owner := owner;
                            twirp.DeleteEntry_OwnerErr := Error e |}, None), s')
      | None => Panics
      end
    else Returns ((Some {| twirp.DeleteEntry_Owner := owner;
                           twirp.DeleteEntry_OwnerErr := "" |}, err), s').
Proof.
  intros H. unfold rpc.proxyMetadataCacheAsTwirp_DeleteEntry. msimpl.
  rewrite H. destruct (decide (owner ≠ "")); [destruct err|]; reflexivity.
Qed.

Lemma adapter_ReadEntry_wire impl chunk s entry owner err s' :
  apis.ReadEntry impl chunk s = Returns ((entry, owner, err), s') →
  rpc.proxyMetadataCacheAsTwirp_ReadEntry impl
    {| twirp.ReadEntry_Chunk := chunk |} s
  = match err return outcome ((option _ * option error) * S) with
    | Some e =>
        if decide (owner = "") then Returns ((None, Some e), s')
        else Returns ((Some {| twirp.ReadEntry_Entry := None;
                               twirp.ReadEntry_Owner := owner;
                               twirp.ReadEntry_OwnerErr := Error e |}, None), s')
    | None =>
        Returns ((Some {| twirp.ReadEntry_Entry := Some (rpc.entryToWire entry);
                          twirp.ReadEntry_Owner := "";
                          twirp.ReadEntry_OwnerErr := "" |}, None), s')
    end.
Proof.
  intros H. unfold rpc.proxyMetadataCacheAsTwirp_ReadEntry. msimpl.
  rewrite H. destruct err; [destruct (decide (owner = ""))|]; reflexivity.
Qed.

(** *** What the client-side proxy makes of a response *)

Lemma proxy_UpdateEntry_result (server : twirp.MetadataCache S)
    chunk prev new s r err s' :
  twirp.UpdateEntry server
    {| twirp.UpdateEntry_Chunk := chunk;
       twirp.UpdateEntry_PreviousEntry := Some (rpc.entryToWire prev);
       twirp.UpdateEntry_NewEntry := Some (rpc.entryToWire new) |} s
    = Returns ((Some r, err), s') →
  rpc.proxyTwirpAsMetadataCache_UpdateEntry server chunk prev new s
  = if decide (twirp.UpdateEntry_Owner r ≠ "")
    then Returns ((twirp.UpdateEntry_Owner r,
                   Some (errors_New (twirp.UpdateEntry_OwnerErr r))), s')
    else Returns (("", err), s').
Proof.
  intros H. unfold rpc.proxyTwirpAsMetadataCache_UpdateEntry. msimpl.
  rewrite H. destruct (decide _); reflexivity.
Qed.

Lemma proxy_DeleteEntry_result (server : twirp.MetadataCache S)
    chunk prev s r err s' :
  twirp.DeleteEntry server
    {| twirp.DeleteEntry_Chunk := chunk;
       twirp.DeleteEntry_PreviousEntry := Some (rpc.entryToWire prev) |} s
    = Returns ((Some r, err), s') →
  rpc.proxyTwirpAsMetadataCache_DeleteEntry server chunk prev s
  = if decide (twirp.DeleteEntry_Owner r ≠ "")
    then Returns ((twirp.DeleteEntry_Owner r,
                   Some (errors_New (twirp.DeleteEntry_OwnerErr r))), s')
    else Returns (("", err), s').
Proof.
  intros H. unfold rpc.proxyTwirpAsMetadataCache_DeleteEntry. msimpl.
  rewrite H. destruct (decide _) as [|Hn]; [reflexivity|].
  apply dec_stable in Hn. by rewrite Hn.
Qed.

End proxy_facts.

Section proxy_claims.
Context {conv : IDConv} {S : Type}.

(** C8. Owner field of the metadata-cache RPC results.  For [UpdateEntry],
    [DeleteEntry] and [ReadEntry]: when the implementation names an owner
    next to an error (redirection), the response carries that owner and
    the error's text, and the client-side proxy gives back exactly that
    owner with an error of that text; when the implementation names no
    owner, the response carries the empty owner and the proxy gives back
    the empty owner with the error unchanged, so that a successful
    [UpdateEntry] comes out as the empty owner and no error.  From any
    response with a non-empty owner field the client-side proxy
    rebuilds the pair of that owner and an error with the carried text. *)
Theorem owner_field_means_redirection (impl : apis.MetadataCache S)
    (server : twirp.MetadataCache S) chunk prev new s :
  (∀ owner e s',
     apis.UpdateEntry impl chunk (viaWire prev) (viaWire new) s
       = Returns ((owner, Some e), s') →
     owner ≠ "" →
     twirp.UpdateEntry (rpc.proxyMetadataCacheAsTwirp impl)
       {| twirp.UpdateEntry_Chunk := chunk;
          twirp.UpdateEntry_PreviousEntry := Some (rpc.entryToWire prev);
          twirp.UpdateEntry_NewEntry := Some (rpc.entryToWire new) |} s
       = Returns ((Some {| twirp.UpdateEntry_Owner := owner;
                           twirp.UpdateEntry_OwnerErr := Error e |}, None), s')
     ∧ apis.UpdateEntry (roundTrip impl) chunk prev new s
       = Returns ((owner, Some (errors_New (Error e))), s'))
  ∧ (∀ err s',
     apis.UpdateEntry impl chunk (viaWire prev) (viaWire new) s
       = Returns (("", err), s') →
     twirp.UpdateEntry (rpc.proxyMetadataCacheAsTwirp impl)
       {| twirp.UpdateEntry_Chunk := chunk;
          twirp.UpdateEntry_PreviousEntry := Some (rpc.entryToWire prev);
          twirp.UpdateEntry_NewEntry := Some (rpc.entryToWire new) |} s
       = Returns ((Some {| twirp.UpdateEntry_Owner := "";
                           twirp.UpdateEntry_OwnerErr := "" |}, err), s')
     ∧ apis.UpdateEntry (roundTrip impl) chunk prev new s
       = Returns (("", err), s'))
  ∧ (∀ owner e s',
     apis.DeleteEntry impl chunk (viaWire prev) s
       = Returns ((owner, Some e), s') →
     owner ≠ "" →
     twirp.DeleteEntry (rpc.proxyMetadataCacheAsTwirp impl)
       {| twirp.DeleteEntry_Chunk := chunk;
          twirp.DeleteEntry_PreviousEntry := Some (rpc.entryToWire prev) |} s
       = Returns ((Some {| twirp.DeleteEntry_Owner := owner;
                           twirp.DeleteEntry_OwnerErr := Error e |}, None), s')
     ∧ apis.DeleteEntry (roundTrip impl) chunk prev s
       = Returns ((owner, Some (errors_New (Error e))), s'))
  ∧ (∀ err s',
     apis.DeleteEntry impl chunk (viaWire prev) s = Returns (("", err), s') →
     twirp.DeleteEntry (rpc.proxyMetadataCacheAsTwirp impl)
       {| twirp.DeleteEntry_Chunk := chunk;
          twirp.DeleteEntry_PreviousEntry := Some (rpc.entryToWire prev) |} s
       = Returns ((Some {| twirp.DeleteEntry_Owner := "";
                           twirp.DeleteEntry_OwnerErr := "" |}, err), s')
     ∧ apis.DeleteEntry (roundTrip impl) chunk prev s
       = Returns (("", err), s'))
  ∧ (∀ entry owner e s',
     apis.ReadEntry impl chunk s = Returns ((entry, owner, Some e), s') →
     owner ≠ "" →
     twirp.ReadEntry (rpc.proxyMetadataCacheAsTwirp impl)
       {| twirp.ReadEntry_Chunk := chunk |} s
       = Returns ((Some {| twirp.ReadEntry_Entry := None;
                           twirp.ReadEntry_Owner := owner;
                           twirp.ReadEntry_OwnerErr := Error e |}, None), s')
     ∧ apis.ReadEntry (roundTrip impl) chunk s
       = Returns ((apis.zeroEntry, owner, Some (errors_New (Error e))), s'))
  ∧ (∀ entry owner s',
     apis.ReadEntry impl chunk s = Returns ((entry, owner, None), s') →
     twirp.ReadEntry (rpc.proxyMetadataCacheAsTwirp impl)
       {| twirp.ReadEntry_Chunk := chunk |} s
       = Returns ((Some {| twirp.ReadEntry_Entry := Some (rpc.entryToWire entry);
                           twirp.ReadEntry_Owner := "";
                           twirp.ReadEntry_OwnerErr := "" |}, None), s')
     ∧ apis.ReadEntry (roundTrip impl) chunk s
       = Returns ((viaWire entry, "", None), s'))
  ∧ (∀ r err s',
     twirp.UpdateEntry server
       {| twirp.UpdateEntry_Chunk := chunk;
          twirp.UpdateEntry_PreviousEntry := Some (rpc.entryToWire prev);
          twirp.UpdateEntry_NewEntry := Some (rpc.entryToWire new) |} s
       = Returns ((Some r, err), s') →
     twirp.UpdateEntry_Owner r ≠ "" →
     ∃ e', apis.UpdateEntry (rpc.proxyTwirpAsMetadataCache server)
             chunk prev new s
           = Returns ((twirp.UpdateEntry_Owner r, Some e'), s')
         ∧ Error e' = twirp.UpdateEntry_OwnerErr r).
Proof.
  split; [|split; [|split; [|split; [|split; [|split]]]]].
  - intros owner e s' H Hne.
    assert (Hwire := adapter_UpdateEntry_wire _ _ _ _ _ _ _ _ H).
    rewrite decide_True in Hwire by done. split; [exact Hwire|].
    simpl. rewrite (proxy_UpdateEntry_result (rpc.proxyMetadataCacheAsTwirp impl)
              _ _ _ _ _ _ _ Hwire).
    simpl. by rewrite decide_True.
  - intros err s' H.
    assert (Hwire := adapter_UpdateEntry_wire _ _ _ _ _ _ _ _ H).
    simpl in Hwire. split; [exact Hwire|].
    simpl. rewrite (proxy_UpdateEntry_result (rpc.proxyMetadataCacheAsTwirp impl)
              _ _ _ _ _ _ _ Hwire).
    reflexivity.
  - intros owner e s' H Hne.
    assert (Hwire := adapter_DeleteEntry_wire _ _ _ _ _ _ _ H).
    rewrite decide_True in Hwire by done. split; [exact Hwire|].
    simpl. rewrite (proxy_DeleteEntry_result (rpc.proxyMetadataCacheAsTwirp impl)
              _ _ _ _ _ _ Hwire).
    simpl. by rewrite decide_True.
  - intros err s' H.
    assert (Hwire := adapter_DeleteEntry_wire _ _ _ _ _ _ _ H).
    simpl in Hwire. split; [exact Hwire|].
    simpl. rewrite (proxy_DeleteEntry_result (rpc.proxyMetadataCacheAsTwirp impl)
              _ _ _ _ _ _ Hwire).
    reflexivity.
  - intros entry owner e s' H Hne.
    assert (Hwire := adapter_ReadEntry_wire _ _ _ _ _ _ _ H).
    simpl in Hwire. rewrite decide_False in Hwire by done.
    split; [exact Hwire|].
    simpl. unfold rpc.proxyTwirpAsMetadataCache_ReadEntry. msimpl.
    rewrite Hwire. simpl. by rewrite decide_True.
  - intros entry owner s' H.
    assert (Hwire := adapter_ReadEntry_wire _ _ _ _ _ _ _ H).
    simpl in Hwire. split; [exact Hwire|].
    simpl. unfold rpc.proxyTwirpAsMetadataCache_ReadEntry. msimpl.
    rewrite Hwire. reflexivity.
  - intros r err s' H Hr. eexists. split.
    + simpl. rewrite (proxy_UpdateEntry_result _ _ _ _ _ _ _ _ H).
      by rewrite decide_True.
    + reflexivity.
Qed.

(** C9. In the client-side proxy, [UpdateEntry] and [DeleteEntry] read
    [result.Owner] before looking at the error: when the underlying RPC
    returns a nil result next to its error, the call panics on the nil
    dereference.  [ReadEntry] returns the error of the RPC first and does
    not touch the result. *)
Theorem proxy_dereferences_result_before_error
    (server : twirp.MetadataCache S) chunk prev new s :
  (∀ e s',
     twirp.UpdateEntry server
       {| twirp.UpdateEntry_Chunk := chunk;
          twirp.UpdateEntry_PreviousEntry := Some (rpc.entryToWire prev);
          twirp.UpdateEntry_NewEntry := Some (rpc.entryToWire new) |} s
       = Returns ((None, Some e), s') →
     rpc.proxyTwirpAsMetadataCache_UpdateEntry server chunk prev new s = Panics)
  ∧ (∀ e s',
     twirp.DeleteEntry server
       {| twirp.DeleteEntry_Chunk := chunk;
          twirp.DeleteEntry_PreviousEntry := Some (rpc.entryToWire prev) |} s
       = Returns ((None, Some e), s') →
     rpc.proxyTwirpAsMetadataCache_DeleteEntry server chunk prev s = Panics)
  ∧ (∀ result e s',
     twirp.ReadEntry server {| twirp.ReadEntry_Chunk := chunk |} s
       = Returns ((result, Some e), s') →
     rpc.proxyTwirpAsMetadataCache_ReadEntry server chunk s
       = Returns ((apis.zeroEntry, "", Some e), s')).
Proof.
  split; [|split].
  - intros e s' H. unfold rpc.proxyTwirpAsMetadataCache_UpdateEntry. msimpl.
    by rewrite H.
  - intros e s' H. unfold rpc.proxyTwirpAsMetadataCache_DeleteEntry. msimpl.
    by rewrite H.
  - intros result e s' H. unfold rpc.proxyTwirpAsMetadataCache_ReadEntry.
    msimpl. by rewrite H.
Qed.

(** C10, as amended.  With slice conversions that undo each other, and
    for an implementation whose [ReadEntry] names no owner when it
    returns no error and returns the zero entry when it returns an error,
    [ReadEntry] through the client-side proxy over the server-side
    adapter agrees with the direct call: same entry, same owner, same
    error text, same next state. *)
Theorem ReadEntry_round_trip (impl : apis.MetadataCache S) chunk s :
  (∀ ids, IntArrayToIDArray (IDArrayToIntArray ids) = ids) →
  (∀ entry owner err s',
     apis.ReadEntry impl chunk s = Returns ((entry, owner, err), s') →
     (err = None → owner = "") ∧ (err ≠ None → entry = apis.zeroEntry)) →
  sameRead (apis.ReadEntry impl chunk s)
           (apis.ReadEntry (roundTrip impl) chunk s).
Proof.
  intros Hrt Hcontract.
  destruct (apis.ReadEntry impl chunk s) as [[[[entry owner] err] s']|] eqn:H.
  - destruct (Hcontract _ _ _ _ eq_refl) as [Hok Herr].
    simpl. unfold rpc.proxyTwirpAsMetadataCache_ReadEntry. msimpl.
    rewrite (adapter_ReadEntry_wire _ _ _ _ _ _ _ H).
    destruct err as [e|].
    + rewrite Herr by done.
      destruct (decide (owner = "")) as [->|Hne]; simpl.
      * done.
      * by rewrite decide_True.
    + rewrite Hok by done. simpl.
      fold (viaWire entry). by rewrite viaWire_id.
  - simpl. unfold rpc.proxyTwirpAsMetadataCache_ReadEntry. msimpl.
    unfold rpc.proxyMetadataCacheAsTwirp_ReadEntry. msimpl. by rewrite H.
Qed.

End proxy_claims.

#[local] Existing Instance examples.copyConv.

Lemma owner_field_means_redirection_witness :
  apis.UpdateEntry
    (roundTrip (conv := examples.copyConv) metadatacache.asMetadataCache)
    7 examples.entry32 examples.entry33 examples.someCache
  = Returns (("mdc1", Some (errors_New "not the owner of this entry")),
             examples.someCache)
  ∧ apis.UpdateEntry
      (roundTrip (conv := examples.copyConv) metadatacache.asMetadataCache)
      5 examples.entry32 examples.entry33 examples.someCache
    = Returns (("", None),
               (metadatacache.UpdateEntry examples.someCache 5
                  examples.entry32 examples.entry33).2).
Proof.
  split.
  - destruct (owner_field_means_redirection (conv := examples.copyConv)
                metadatacache.asMetadataCache
                (rpc.proxyMetadataCacheAsTwirp metadatacache.asMetadataCache)
                7 examples.entry32 examples.entry33 examples.someCache)
      as (Hredirect & _).
    destruct (Hredirect "mdc1" metadatacache.errNotOwner examples.someCache)
      as [_ Hproxy]; [reflexivity | discriminate | exact Hproxy].
  - destruct (owner_field_means_redirection (conv := examples.copyConv)
                metadatacache.asMetadataCache
                (rpc.proxyMetadataCacheAsTwirp metadatacache.asMetadataCache)
                5 examples.entry32 examples.entry33 examples.someCache)
      as (_ & Howner & _).
    destruct (Howner None
                (metadatacache.UpdateEntry examples.someCache 5
                   examples.entry32 examples.entry33).2)
      as [_ Hproxy]; [reflexivity | exact Hproxy].
Defined.

Lemma proxy_dereferences_result_before_error_witness :
  rpc.proxyTwirpAsMetadataCache_UpdateEntry (conv := examples.copyConv)
    (examples.failingTransport examples.errTimeout)
    5 examples.entry32 examples.entry33 tt = Panics
  ∧ rpc.proxyTwirpAsMetadataCache_DeleteEntry (conv := examples.copyConv)
      (examples.failingTransport examples.errTimeout)
      5 examples.entry32 tt = Panics
  ∧ rpc.proxyTwirpAsMetadataCache_ReadEntry (conv := examples.copyConv)
      (examples.failingTransport examples.errTimeout) 5 tt
    = Returns ((apis.zeroEntry, "", Some examples.errTimeout), tt).
Proof.
  destruct (proxy_dereferences_result_before_error
              (conv := examples.copyConv)
              (examples.failingTransport examples.errTimeout)
              5 examples.entry32 examples.entry33 tt)
    as (Hupdate & Hdelete & Hread).
  split; [|split].
  - apply (Hupdate examples.errTimeout tt). reflexivity.
  - apply (Hdelete examples.errTimeout tt). reflexivity.
  - apply (Hread None examples.errTimeout tt). reflexivity.
Defined.

(** The modelled cache names no owner next to an entry and returns no
    entry next to an error. *)
Lemma metadatacache_ReadEntry_contract mc chunk entry owner err :
  metadatacache.ReadEntry mc chunk = (entry, owner, err) →
  (err = None → owner = "") ∧ (err ≠ None → entry = apis.zeroEntry).
Proof.
  unfold metadatacache.ReadEntry.
  destruct (metadatacache.redirect mc !! chunk);
    [|destruct (metadatacache.entries mc !! chunk)];
    intros [= <- <- <-]; split; done.
Qed.

Lemma ReadEntry_round_trip_witness :
  sameRead
    (apis.ReadEntry metadatacache.asMetadataCache 7 examples.someCache)
    (apis.ReadEntry
       (roundTrip (conv := examples.copyConv) metadatacache.asMetadataCache)
       7 examples.someCache).
Proof.
  apply (ReadEntry_round_trip (conv := examples.copyConv)).
  - intros ids. reflexivity.
  - intros entry owner err s' H. vm_compute in H.
    injection H as <- <- <- <-. split; [discriminate | reflexivity].
Defined.

(** C10, as stated, fails: an implementation that names an owner next to
    a successful read gets the owner dropped on the way. *)
Lemma ReadEntry_round_trip_drops_owner :
  ¬ sameRead
      (apis.ReadEntry examples.chattyCache 5 tt)
      (apis.ReadEntry
         (roundTrip (conv := examples.copyConv) examples.chattyCache) 5 tt).
Proof. vm_compute. intros (_ & Howner & _). discriminate Howner. Qed.

(** Likewise an entry returned next to an error does not cross the wire. *)
Lemma ReadEntry_round_trip_drops_entry :
  ¬ sameRead
      (apis.ReadEntry examples.leakyCache 5 tt)
      (apis.ReadEntry
         (roundTrip (conv := examples.copyConv) examples.leakyCache) 5 tt).
Proof. vm_compute. intros (Hentry & _). discriminate Hentry. Qed.

(** * Properties of the chunkserver *)

Section chunkserver_facts.
Context {dg : Digest}.
Implicit Types (cs : gmap Z chunkserver.ReplicaChunkState).
Implicit Types (rs : chunkserver.ReplicaChunkState).

Lemma replica_eta rs :
  {| chunkserver.committed := chunkserver.committed rs;
     chunkserver.latestVisible := chunkserver.latestVisible rs;
     chunkserver.prepared := chunkserver.prepared rs |} = rs.
Proof. by destruct rs. Qed.

(** The invariant is kept by every operation of the engine. *)

Lemma wfServer_insert cs chunk rs :
  chunkserver.wfServer cs → chunkserver.wfReplica rs →
  chunkserver.wfServer (<[chunk := rs]> cs).
Proof. intros Hcs Hrs. by apply map_Forall_insert_2. Qed.

Lemma Add_wf cs chunk data v :
  chunkserver.wfServer cs →
  chunkserver.wfServer (chunkserver.Add chunk data v cs).2.
Proof.
  intros Hwf. unfold chunkserver.Add.
  destruct (decide (0 < v)); [|done].
  destruct (cs !! chunk); [done|]. simpl.
  apply wfServer_insert; [done|].
  unfold chunkserver.wfReplica. simpl. by apply map_Forall_singleton.
Qed.

Lemma StartWrite_wf cs chunk offset data :
  chunkserver.wfServer cs →
  chunkserver.wfServer (chunkserver.StartWrite chunk offset data cs).2.
Proof.
  intros Hwf. unfold chunkserver.StartWrite.
  destruct (cs !! chunk) as [rs|] eqn:Hrs; [|done].
  destruct (decide _); [done|]. simpl.
  apply wfServer_insert; [done|]. exact (Hwf _ _ Hrs).
Qed.

Lemma CommitWrite_wf cs chunk hash old new :
  chunkserver.wfServer cs →
  chunkserver.wfServer (chunkserver.CommitWrite chunk hash old new cs).2.
Proof.
  intros Hwf. unfold chunkserver.CommitWrite.
  destruct (cs !! chunk) as [rs|] eqn:Hrs; [|done].
  destruct (decide (old < new)); [|done].
  destruct (chunkserver.committed rs !! old) as [p|] eqn:Hp; [|done].
  destruct (chunkserver.prepared rs !! hash); [|done]. simpl.
  apply wfServer_insert; [done|].
  unfold chunkserver.wfReplica. simpl.
  apply map_Forall_insert_2; [|exact (Hwf _ _ Hrs)].
  pose proof (Hwf _ _ Hrs _ _ Hp) as Hle. simpl in Hle. lia.
Qed.

Lemma UpdateLatestVersion_wf cs chunk old new :
  chunkserver.wfServer cs →
  chunkserver.wfServer (chunkserver.UpdateLatestVersion chunk old new cs).2.
Proof.
  intros Hwf. unfold chunkserver.UpdateLatestVersion.
  destruct (cs !! chunk) as [rs|] eqn:Hrs; [|done].
  destruct (decide _); [|done]. destruct (decide _); [|done]. simpl.
  apply wfServer_insert; [done|].
  unfold chunkserver.wfReplica. simpl.
  intros v p [_ Hv]%map_lookup_filter_Some. exact Hv.
Qed.

Lemma Delete_wf cs chunk v :
  chunkserver.wfServer cs →
  chunkserver.wfServer (chunkserver.Delete chunk v cs).2.
Proof.
  intros Hwf. unfold chunkserver.Delete.
  destruct (cs !! chunk); [|done]. destruct (decide _); [|done]. simpl.
  by apply map_Forall_delete.
Qed.

(** [UpdateLatestVersion], case by case. *)

Lemma UpdateLatestVersion_ok cs chunk rs old new :
  cs !! chunk = Some rs → chunkserver.latestVisible rs = old → old ≤ new →
  chunkserver.UpdateLatestVersion chunk old new cs
  = (None,
     <[chunk := {| chunkserver.committed :=
                     filter (λ kv, new ≤ kv.1) (chunkserver.committed rs);
                   chunkserver.latestVisible := new;
                   chunkserver.prepared := chunkserver.prepared rs |}]> cs).
Proof.
  intros Hrs Hold Hle. unfold chunkserver.UpdateLatestVersion.
  rewrite Hrs. by rewrite !decide_True.
Qed.

Lemma UpdateLatestVersion_stale cs chunk rs old new :
  cs !! chunk = Some rs → chunkserver.latestVisible rs ≠ old →
  chunkserver.UpdateLatestVersion chunk old new cs
  = (Some chunkserver.errStaleVersion, cs).
Proof.
  intros Hrs Hold. unfold chunkserver.UpdateLatestVersion.
  rewrite Hrs. by rewrite decide_False.
Qed.

Lemma UpdateLatestVersion_fails_unchanged cs chunk old new e cs' :
  chunkserver.UpdateLatestVersion chunk old new cs = (Some e, cs') → cs' = cs.
Proof.
  unfold chunkserver.UpdateLatestVersion.
  destruct (cs !! chunk); [|by intros [= _ <-]].
  repeat (destruct (decide _)); by intros [= <-] || intros [= _ <-].
Qed.

Lemma UpdateLatestVersion_twice cs chunk old new :
  (chunkserver.UpdateLatestVersion chunk old new
     (chunkserver.UpdateLatestVersion chunk old new cs).2).2
  = (chunkserver.UpdateLatestVersion chunk old new cs).2.
Proof.
  destruct (cs !! chunk) as [rs|] eqn:Hrs.
  - destruct (decide (chunkserver.latestVisible rs = old)) as [Hold|Hold].
    + destruct (decide (old ≤ new)) as [Hle|Hle].
      * rewrite (UpdateLatestVersion_ok _ _ _ _ _ Hrs Hold Hle). simpl.
        destruct (decide (new = old)) as [->|Hne].
        -- erewrite UpdateLatestVersion_ok;
             [|apply lookup_insert_eq|done|done].
           simpl. rewrite insert_insert_eq. f_equal. f_equal.
           apply map_filter_id. intros v p [_ Hv]%map_lookup_filter_Some.
           exact Hv.
        -- erewrite UpdateLatestVersion_stale;
             [done|apply lookup_insert_eq|done].
      * unfold chunkserver.UpdateLatestVersion at 2. rewrite Hrs.
        rewrite decide_True by done. rewrite decide_False by done. simpl.
        unfold chunkserver.UpdateLatestVersion. rewrite Hrs.
        rewrite decide_True by done. by rewrite decide_False by done.
    + rewrite (UpdateLatestVersion_stale _ _ _ _ _ Hrs Hold). simpl.
      by rewrite (UpdateLatestVersion_stale _ _ _ _ _ Hrs Hold).
  - unfold chunkserver.UpdateLatestVersion. rewrite Hrs. simpl. by rewrite Hrs.
Qed.

(** Pruning below the highest committed version leaves that version
    alone. *)
Lemma prune_to_highest (committed : gmap Z (Z → Byte.byte)) new p :
  committed !! new = Some p →
  map_Forall (λ v _, v ≤ new) committed →
  filter (λ kv : Z * (Z → Byte.byte), new ≤ kv.1) committed = {[ new := p ]}.
Proof.
  intros Hp Hmax. apply map_eq. intros v. rewrite map_lookup_filter.
  destruct (decide (v = new)) as [->|Hne].
  - rewrite Hp, lookup_singleton_eq. simpl. by rewrite option_guard_True.
  - rewrite lookup_singleton_ne by done.
    destruct (committed !! v) as [q|] eqn:Hq; [|done].
    simpl. rewrite option_guard_False; [done|].
    pose proof (Hmax _ _ Hq) as Hv. simpl in *. lia.
Qed.

Lemma wfServer_empty : chunkserver.wfServer ∅.
Proof. apply map_Forall_empty. Qed.

(** C3. [UpdateLatestVersion(chunk, oldVersion, newVersion)] on a replica
    that holds the chunk: with [newVersion >= oldVersion] it succeeds
    exactly when [latestVisible] equals [oldVersion]; on success
    [latestVisible] becomes [newVersion], every committed version below
    [newVersion] is gone and the others stay, the staged writes and the
    other chunks are untouched; on a mismatch it fails and the state is
    the same; with [newVersion = oldVersion] it succeeds and, on a
    replica with no committed version below [latestVisible], changes
    nothing; two invocations leave the state one invocation leaves; and
    when [newVersion] is the highest committed version, exactly its
    payload remains. *)
Theorem UpdateLatestVersion_contract cs chunk rs old new :
  cs !! chunk = Some rs →
  (old ≤ new →
     (chunkserver.UpdateLatestVersion chunk old new cs).1 = None
     ↔ chunkserver.latestVisible rs = old)
  ∧ (old ≤ new → chunkserver.latestVisible rs = old →
     ∃ rs',
       (chunkserver.UpdateLatestVersion chunk old new cs).2 !! chunk = Some rs'
       ∧ chunkserver.latestVisible rs' = new
       ∧ (∀ v, v < new → chunkserver.committed rs' !! v = None)
       ∧ (∀ v, new ≤ v →
            chunkserver.committed rs' !! v = chunkserver.committed rs !! v)
       ∧ chunkserver.prepared rs' = chunkserver.prepared rs
       ∧ (∀ other, other ≠ chunk →
            (chunkserver.UpdateLatestVersion chunk old new cs).2 !! other
            = cs !! other))
  ∧ (chunkserver.latestVisible rs ≠ old →
     ∃ e, chunkserver.UpdateLatestVersion chunk old new cs = (Some e, cs))
  ∧ (chunkserver.wfReplica rs →
     chunkserver.latestVisible rs = old → new = old →
     chunkserver.UpdateLatestVersion chunk old new cs = (None, cs))
  ∧ (chunkserver.UpdateLatestVersion chunk old new
       (chunkserver.UpdateLatestVersion chunk old new cs).2).2
    = (chunkserver.UpdateLatestVersion chunk old new cs).2
  ∧ (∀ p, old ≤ new → chunkserver.latestVisible rs = old →
     chunkserver.committed rs !! new = Some p →
     map_Forall (λ v _, v ≤ new) (chunkserver.committed rs) →
     ∃ rs',
       (chunkserver.UpdateLatestVersion chunk old new cs).2 !! chunk = Some rs'
       ∧ chunkserver.committed rs' = {[ new := p ]}
       ∧ size (chunkserver.committed rs') = 1%nat).
Proof.
  intros Hrs.
  split; [|split; [|split; [|split; [|split]]]].
  - intros Hle. split.
    + intros Hok. destruct (decide (chunkserver.latestVisible rs = old));
        [done|].
      rewrite (UpdateLatestVersion_stale _ _ _ _ _ Hrs) in Hok; done.
    + intros Hold. by rewrite (UpdateLatestVersion_ok _ _ _ _ _ Hrs Hold Hle).
  - intros Hle Hold.
    rewrite (UpdateLatestVersion_ok _ _ _ _ _ Hrs Hold Hle). simpl.
    eexists. split; [apply lookup_insert_eq|]. simpl.
    split; [done|]. split; [|split; [|split; [done|]]].
    + intros v Hv. apply map_lookup_filter_None. right. intros p _. simpl. lia.
    + intros v Hv. rewrite map_lookup_filter.
      destruct (chunkserver.committed rs !! v); [|done]. simpl.
      by rewrite option_guard_True.
    + intros other Hother. by rewrite lookup_insert_ne.
  - intros Hold. eexists. by apply UpdateLatestVersion_stale with rs.
  - intros Hwf Hold ->.
    rewrite (UpdateLatestVersion_ok _ _ _ _ _ Hrs Hold (Z.le_refl _)).
    f_equal. rewrite map_filter_id.
    + rewrite <- Hold at 1. rewrite replica_eta. by apply insert_id.
    + intros v p Hv. simpl. rewrite <- Hold. exact (Hwf _ _ Hv).
  - apply UpdateLatestVersion_twice.
  - intros p Hle Hold Hp Hmax.
    rewrite (UpdateLatestVersion_ok _ _ _ _ _ Hrs Hold Hle). simpl.
    eexists. split; [apply lookup_insert_eq|]. simpl.
    rewrite (prune_to_highest _ _ _ Hp Hmax).
    split; [done|]. apply map_size_singleton.
Qed.

End chunkserver_facts.

Lemma UpdateLatestVersion_contract_witness :
  (chunkserver.UpdateLatestVersion 9 1 2 examples.twoVersions).1 = None
  ∧ ∃ rs',
      (chunkserver.UpdateLatestVersion 9 1 2 examples.twoVersions).2 !! 9
      = Some rs'
      ∧ chunkserver.committed rs'
        = {[ 2 := chunkserver.zeroPad [Byte.x68; Byte.x69] ]}
      ∧ size (chunkserver.committed rs') = 1%nat.
Proof.
  destruct (UpdateLatestVersion_contract examples.twoVersions 9
              {| chunkserver.committed :=
                   {[ 1 := chunkserver.zeroPad [];
                      2 := chunkserver.zeroPad [Byte.x68; Byte.x69] ]};
                 chunkserver.latestVisible := 1;
                 chunkserver.prepared := ∅ |} 1 2)
    as (Hiff & _ & _ & _ & _ & Hone).
  - reflexivity.
  - split.
    + apply Hiff; [lia | reflexivity].
    + apply Hone; [lia | reflexivity | reflexivity |].
      apply map_Forall_insert_2; [lia|].
      apply map_Forall_insert_2; [lia|]. apply map_Forall_empty.
Defined.

(** * Properties of the metadata cache *)

Section metadatacache_facts.
Implicit Types (mc : metadatacache.State) (prev next : apis.MetadataEntry).

Lemma UpdateEntry_ok_inv mc chunk prev next owner mc' :
  metadatacache.UpdateEntry mc chunk prev next = ((owner, None), mc') →
  owner = ""
  ∧ metadatacache.redirect mc !! chunk = None
  ∧ metadatacache.entries mc !! chunk = Some prev
  ∧ metadatacache.advances prev next
  ∧ mc' = metadatacache.withEntries mc
            (<[chunk := next]> (metadatacache.entries mc)).
Proof.
  unfold metadatacache.UpdateEntry.
  destruct (metadatacache.redirect mc !! chunk); [done|].
  destruct (metadatacache.entries mc !! chunk) as [current|]; [|done].
  destruct (decide (current = prev)) as [->|]; [|done].
  destruct (decide (metadatacache.advances prev next)); [|done].
  by intros [= <- <-].
Qed.

Lemma UpdateEntry_fails_unchanged mc chunk prev next owner e mc' :
  metadatacache.UpdateEntry mc chunk prev next = ((owner, Some e), mc') →
  mc' = mc.
Proof.
  unfold metadatacache.UpdateEntry.
  destruct (metadatacache.redirect mc !! chunk); [by intros [= _ _ <-]|].
  destruct (metadatacache.entries mc !! chunk) as [current|];
    [|by intros [= _ _ <-]].
  destruct (decide (current = prev)); [|by intros [= _ _ <-]].
  destruct (decide (metadatacache.advances prev next)); [done|].
  by intros [= _ _ <-].
Qed.

Lemma UpdateEntry_ok_read mc chunk prev next owner mc' :
  metadatacache.UpdateEntry mc chunk prev next = ((owner, None), mc') →
  metadatacache.ReadEntry mc' chunk = (next, "", None).
Proof.
  intros (_ & Hred & _ & _ & ->)%UpdateEntry_ok_inv.
  unfold metadatacache.ReadEntry. simpl. rewrite Hred.
  by rewrite lookup_insert_eq.
Qed.

Lemma ReadEntry_ok_inv mc chunk entry owner :
  metadatacache.ReadEntry mc chunk = (entry, owner, None) →
  owner = ""
  ∧ metadatacache.redirect mc !! chunk = None
  ∧ metadatacache.entries mc !! chunk = Some entry.
Proof.
  unfold metadatacache.ReadEntry.
  destruct (metadatacache.redirect mc !! chunk); [done|].
  destruct (metadatacache.entries mc !! chunk); [|done].
  by intros [= <- <-].
Qed.

Lemma DeleteEntry_ok_inv mc chunk prev owner mc' :
  metadatacache.DeleteEntry mc chunk prev = ((owner, None), mc') →
  metadatacache.redirect mc !! chunk = None
  ∧ metadatacache.entries mc !! chunk = Some prev
  ∧ mc' = metadatacache.withEntries mc
            (delete chunk (metadatacache.entries mc)).
Proof.
  unfold metadatacache.DeleteEntry.
  destruct (metadatacache.redirect mc !! chunk); [done|].
  destruct (metadatacache.entries mc !! chunk) as [current|]; [|done].
  destruct (decide (current = prev)) as [->|]; [|done].
  by intros [= <- <-].
Qed.


(** One successful [UpdateEntry] moves no version of any entry back. *)
Lemma UpdateEntry_monotone mc chunk prev next mc' other e :
  metadatacache.UpdateEntry mc chunk prev next = (("", None), mc') →
  metadatacache.entries mc !! other = Some e →
  ∃ e', metadatacache.entries mc' !! other = Some e'
        ∧ apis.MostRecentVersion e ≤ apis.MostRecentVersion e'
        ∧ apis.LastConsumedVersion e ≤ apis.LastConsumedVersion e'.
Proof.
  intros (_ & _ & Hprev & (Hm & Hl & _) & ->)%UpdateEntry_ok_inv He. simpl.
  destruct (decide (chunk = other)) as [->|Hne].
  - rewrite lookup_insert_eq. exists next. rewrite Hprev in He.
    injection He as <-. done.
  - rewrite lookup_insert_ne by done. exists e. split; [done|lia].
Qed.

Lemma UpdateEntry_I1 mc chunk prev next mc' :
  metadatacache.UpdateEntry mc chunk prev next = (("", None), mc') →
  metadatacache.I1 mc → metadatacache.I1 mc'.
Proof.
  intros (_ & _ & _ & (_ & _ & Hi) & ->)%UpdateEntry_ok_inv HI other e.
  simpl. destruct (decide (chunk = other)) as [->|Hne].
  - rewrite lookup_insert_eq. by intros [= <-].
  - rewrite lookup_insert_ne by done. apply HI.
Qed.

Lemma NewEntry_I1 mc :
  metadatacache.I1 mc → metadatacache.I1 (metadatacache.NewEntry mc).2.
Proof.
  intros HI chunk e. simpl.
  destruct (decide (metadatacache.nextChunk mc = chunk)) as [->|Hne].
  - rewrite lookup_insert_eq. by intros [= <-].
  - rewrite lookup_insert_ne by done. apply HI.
Qed.

Lemma DeleteEntry_I1 mc chunk prev :
  metadatacache.I1 mc →
  metadatacache.I1 (metadatacache.DeleteEntry mc chunk prev).2.
Proof.
  intros HI. unfold metadatacache.DeleteEntry.
  destruct (metadatacache.redirect mc !! chunk); [done|].
  destruct (metadatacache.entries mc !! chunk); [|done].
  destruct (decide _); [|done]. intros other e'. simpl.
  intros [_ He]%lookup_delete_Some. by apply (HI other).
Qed.

Lemma updates_monotone mc mc' :
  metadatacache.updates mc mc' →
  ∀ chunk e, metadatacache.entries mc !! chunk = Some e →
  ∃ e', metadatacache.entries mc' !! chunk = Some e'
        ∧ apis.MostRecentVersion e ≤ apis.MostRecentVersion e'
        ∧ apis.LastConsumedVersion e ≤ apis.LastConsumedVersion e'.
Proof.
  induction 1 as [mc|mc c prev next mc1 mc2 Hstep _ IH]; intros chunk e He.
  - exists e. split; [done|lia].
  - destruct (UpdateEntry_monotone _ _ _ _ _ _ _ Hstep He)
      as (e1 & He1 & Hm1 & Hl1).
    destruct (IH _ _ He1) as (e2 & He2 & Hm2 & Hl2).
    exists e2. split; [done|lia].
Qed.

Lemma updates_I1 mc mc' :
  metadatacache.updates mc mc' → metadatacache.I1 mc → metadatacache.I1 mc'.
Proof.
  induction 1 as [mc|mc c prev next mc1 mc2 Hstep _ IH]; [done|].
  intros HI. apply IH. by eapply UpdateEntry_I1.
Qed.

End metadatacache_facts.

(** * Calls on the replicas of a chunk *)

Section replica_calls.
Implicit Types (sv : gmap Z (gmap Z chunkserver.ReplicaChunkState)).
Implicit Types
  (op : gmap Z chunkserver.ReplicaChunkState
        → option error * gmap Z chunkserver.ReplicaChunkState).

Lemma onServer_ok_inv op r sv sv' :
  chunkserver.onServer op r sv = (None, sv') →
  ∃ cs cs', sv !! r = Some cs ∧ op cs = (None, cs') ∧ sv' = <[r := cs']> sv.
Proof.
  unfold chunkserver.onServer. destruct (sv !! r) as [cs|]; [|done].
  destruct (op cs) as [err cs'] eqn:Hop. intros [= -> <-]. by exists cs, cs'.
Qed.

(** A call that leaves the chunkserver as it is when it fails leaves the
    cluster as it is. *)
Lemma onServer_fails_unchanged op r sv e sv' :
  (∀ cs e cs', op cs = (Some e, cs') → cs' = cs) →
  chunkserver.onServer op r sv = (Some e, sv') → sv' = sv.
Proof.
  intros Hop. unfold chunkserver.onServer.
  destruct (sv !! r) as [cs|] eqn:Hcs; [|by intros [= _ <-]].
  destruct (op cs) as [err cs'] eqn:Hcall. intros [= -> <-].
  rewrite (Hop _ _ _ Hcall). by apply insert_id.
Qed.

Lemma onEach_ok_inv op r rs sv sv' :
  chunkserver.onEach op (r :: rs) sv = (None, sv') →
  ∃ s1, chunkserver.onServer op r sv = (None, s1)
        ∧ chunkserver.onEach op rs s1 = (None, sv').
Proof.
  simpl. destruct (chunkserver.onServer op r sv) as [e1 s1].
  destruct (chunkserver.onEach op rs s1) as [e2 s2] eqn:Hrest.
  destruct e1; [done|]. intros [= -> <-]. by exists s1.
Qed.

(** Servers that are not called keep their state. *)
Lemma onEach_other op rs sv r :
  r ∉ rs → (chunkserver.onEach op rs sv).2 !! r = sv !! r.
Proof.
  revert sv. induction rs as [|r' rs IH]; intros sv Hr; [done|].
  apply not_elem_of_cons in Hr as [Hne Hr]. simpl.
  destruct (chunkserver.onServer op r' sv) as [e1 s1] eqn:H1.
  specialize (IH s1 Hr).
  destruct (chunkserver.onEach op rs s1) as [e2 s2]. simpl in *.
  rewrite IH. unfold chunkserver.onServer in H1.
  destruct (sv !! r') as [cs|]; [|by injection H1 as _ <-].
  destruct (op cs). injection H1 as _ <-. by rewrite lookup_insert_ne.
Qed.

(** When the call succeeds on each of distinct servers, it succeeds on
    all, and each ends in the state its call leaves. *)
Lemma onEach_ok op rs sv :
  NoDup rs →
  (∀ r, r ∈ rs → ∃ cs, sv !! r = Some cs ∧ (op cs).1 = None) →
  (chunkserver.onEach op rs sv).1 = None
  ∧ ∀ r, r ∈ rs →
      ∃ cs, sv !! r = Some cs
            ∧ (chunkserver.onEach op rs sv).2 !! r = Some (op cs).2.
Proof.
  revert sv. induction rs as [|r rs IH]; intros sv Hnd Hall.
  - split; [done|]. intros r Hr. by apply elem_of_nil in Hr.
  - apply NoDup_cons in Hnd as [Hr Hnd].
    destruct (Hall r) as (cs & Hcs & Hok); [by left|].
    destruct (op cs) as [e1 cs'] eqn:Hop. simpl in Hok. subst e1.
    assert (chunkserver.onServer op r sv = (None, <[r := cs']> sv)) as H1.
    { unfold chunkserver.onServer. by rewrite Hcs, Hop. }
    simpl. rewrite H1.
    destruct (IH (<[r := cs']> sv) Hnd) as [IHok IHst].
    { intros r' Hr'. destruct (Hall r') as (cs0 & Hcs0 & Hok0); [by right|].
      exists cs0. split; [|done]. rewrite lookup_insert_ne; [done|].
      intros ->. done. }
    pose proof (onEach_other op rs (<[r := cs']> sv) r Hr) as Hsame.
    destruct (chunkserver.onEach op rs (<[r := cs']> sv)) as [e2 s2].
    simpl in *. split; [done|].
    intros r' [->|Hr']%elem_of_cons.
    + exists cs. split; [done|]. rewrite Hsame, lookup_insert_eq.
      by rewrite Hop.
    + destruct (IHst r' Hr') as (cs0 & Hcs0 & Hs2).
      rewrite lookup_insert_ne in Hcs0 by (intros ->; done).
      by exists cs0.
Qed.

(** When every call fails without a change, nothing changes. *)
Lemma onEach_unchanged op rs sv :
  (∀ cs, (op cs).2 = cs) → (chunkserver.onEach op rs sv).2 = sv.
Proof.
  intros Hop. revert sv. induction rs as [|r rs IH]; intros sv; [done|].
  simpl. unfold chunkserver.onServer.
  destruct (sv !! r) as [cs|] eqn:Hcs.
  - specialize (Hop cs). destruct (op cs) as [e cs']. simpl in Hop. subst cs'.
    rewrite insert_id by done. specialize (IH sv).
    by destruct (chunkserver.onEach op rs sv).
  - specialize (IH sv). by destruct (chunkserver.onEach op rs sv).
Qed.

End replica_calls.

(** * Properties of the client write coordinator *)

Section chunkserver_calls.
Context {dg : Digest}.
Implicit Types (cs : gmap Z chunkserver.ReplicaChunkState).

Lemma CommitWrite_ok_lt chunk hash old new cs cs' :
  chunkserver.CommitWrite chunk hash old new cs = (None, cs') → old < new.
Proof.
  unfold chunkserver.CommitWrite. destruct (cs !! chunk); [|done].
  destruct (decide (old < new)); done.
Qed.


End chunkserver_calls.

Section client_facts.
Context {dg : Digest}.
Implicit Types (cl : client.Cluster).

(** What a successful [Write] went through. *)
Lemma Write_ok_inv cl chunk offset data previousVersion v cl' :
  client.Write cl chunk offset data previousVersion = ((v, None), cl') →
  ∃ entry primary others sv1 sv2 mc1,
    metadatacache.ReadEntry (client.cache cl) chunk = (entry, "", None)
    ∧ (previousVersion = apis.AnyVersion
       ∨ apis.MostRecentVersion entry = previousVersion)
    ∧ apis.Replicas entry = primary :: others
    ∧ v = uint64 (apis.MostRecentVersion entry + 1)
    ∧ chunkserver.StartWriteReplicated primary chunk offset data others
        (client.servers cl) = (None, sv1)
    ∧ chunkserver.onEach
        (chunkserver.CommitWrite chunk (commitHash offset data)
           (apis.MostRecentVersion entry) v)
        (primary :: others) sv1 = (None, sv2)
    ∧ metadatacache.UpdateEntry (client.cache cl) chunk entry
        {| apis.MostRecentVersion := v;
           apis.LastConsumedVersion := apis.LastConsumedVersion entry;
           apis.Replicas := primary :: others |} = (("", None), mc1)
    ∧ chunkserver.onEach
        (chunkserver.UpdateLatestVersion chunk
           (apis.LastConsumedVersion entry) v)
        (primary :: others) sv2 = (None, client.servers cl')
    ∧ metadatacache.UpdateEntry mc1 chunk
        {| apis.MostRecentVersion := v;
           apis.LastConsumedVersion := apis.LastConsumedVersion entry;
           apis.Replicas := primary :: others |}
        {| apis.MostRecentVersion := v;
           apis.LastConsumedVersion := v;
           apis.Replicas := primary :: others |}
      = (("", None), client.cache cl').
Proof.
  unfold client.Write. cbv zeta.
  destruct (metadatacache.ReadEntry (client.cache cl) chunk)
    as [[entry owner] err] eqn:Hread.
  destruct err; [done|].
  destruct (decide _) as [Hstale|Hfresh]; [done|].
  destruct (apis.Replicas entry) as [|primary others] eqn:HR; [done|].
  destruct (chunkserver.StartWriteReplicated _ _ _ _ _ _)
    as [err1 sv1] eqn:Hstart.
  destruct err1; [done|].
  destruct (chunkserver.onEach _ _ sv1) as [err2 sv2] eqn:Hcommit.
  destruct err2; [done|].
  destruct (metadatacache.UpdateEntry (client.cache cl) _ _ _)
    as [[o1 err3] mc1] eqn:Hcas1.
  destruct err3; [by destruct (decide _)|].
  destruct (chunkserver.onEach _ _ sv2) as [err4 sv3] eqn:Hlatest.
  destruct err4; [done|].
  destruct (metadatacache.UpdateEntry mc1 _ _ _)
    as [[o2 err5] mc2] eqn:Hcas2.
  destruct err5; [done|].
  intros [= <- <-]. simpl.
  pose proof (ReadEntry_ok_inv _ _ _ _ Hread) as (-> & _).
  pose proof (UpdateEntry_ok_inv _ _ _ _ _ _ Hcas1) as (-> & _).
  pose proof (UpdateEntry_ok_inv _ _ _ _ _ _ Hcas2) as (-> & _).
  exists entry, primary, others, sv1, sv2, mc1.
  repeat split; try done.
  apply not_and_l in Hfresh as [Hany|Hsame].
  - left. by apply dec_stable.
  - right. by apply dec_stable.
Qed.

(** A successful [Write] leaves the entry at the new version. *)
Lemma Write_ok_read cl chunk offset data previousVersion v cl' :
  client.Write cl chunk offset data previousVersion = ((v, None), cl') →
  ∃ replicas,
    metadatacache.ReadEntry (client.cache cl') chunk
    = ({| apis.MostRecentVersion := v;
          apis.LastConsumedVersion := v;
          apis.Replicas := replicas |}, "", None).
Proof.
  intros (entry & primary & others & sv1 & sv2 & mc1 & _ & _ & _ & _ & _ & _
          & _ & _ & Hcas2)%Write_ok_inv.
  exists (primary :: others). by eapply UpdateEntry_ok_read.
Qed.

Lemma Write_ok_advances cl chunk offset data previousVersion v cl' :
  client.Write cl chunk offset data previousVersion = ((v, None), cl') →
  ∃ entry,
    metadatacache.ReadEntry (client.cache cl) chunk = (entry, "", None)
    ∧ (previousVersion = apis.AnyVersion
       ∨ apis.MostRecentVersion entry = previousVersion)
    ∧ apis.MostRecentVersion entry < v
    ∧ 0 ≤ v.
Proof.
  intros (entry & primary & others & sv1 & sv2 & mc1 & Hread & Hpv & _ & Hv
          & _ & Hcommit & _)%Write_ok_inv.
  exists entry. split; [done|]. split; [done|].
  apply onEach_ok_inv in Hcommit as (s1 & Hfirst & _).
  apply onServer_ok_inv in Hfirst as (cs & cs' & _ & Hcw & _).
  apply CommitWrite_ok_lt in Hcw. split; [done|].
  subst v. unfold uint64. apply Z.mod_pos_bound. lia.
Qed.

(** A stale [previousVersion] is turned away at step 1. *)
Lemma Write_stale cl chunk offset data previousVersion entry owner :
  metadatacache.ReadEntry (client.cache cl) chunk = (entry, owner, None) →
  previousVersion ≠ apis.AnyVersion →
  apis.MostRecentVersion entry ≠ previousVersion →
  client.Write cl chunk offset data previousVersion
  = ((apis.MostRecentVersion entry, Some client.errStaleVersion), cl).
Proof.
  intros Hread Hany Hne. unfold client.Write. rewrite Hread.
  by rewrite decide_True.
Qed.

End client_facts.

Section client_claims.
Context {dg : Digest}.
Implicit Types (cl : client.Cluster).

(** C1. Over a run of successful [UpdateEntry] operations no entry's
    [MostRecentVersion] or [LastConsumedVersion] goes down, and
    [LastConsumedVersion <= MostRecentVersion] stays true of every entry;
    each successful [UpdateEntry] publishes an entry with
    [LastConsumedVersion <= MostRecentVersion] that is not behind the one
    it replaces.  A successful client [Write] returns a version above
    the [MostRecentVersion] it read and above the [previousVersion] it
    was given. *)
Theorem versions_advance :
  (∀ mc mc', metadatacache.updates mc mc' →
     (∀ chunk e, metadatacache.entries mc !! chunk = Some e →
        ∃ e', metadatacache.entries mc' !! chunk = Some e'
              ∧ apis.MostRecentVersion e ≤ apis.MostRecentVersion e'
              ∧ apis.LastConsumedVersion e ≤ apis.LastConsumedVersion e')
     ∧ (metadatacache.I1 mc → metadatacache.I1 mc'))
  ∧ (∀ mc chunk prev next mc',
       metadatacache.UpdateEntry mc chunk prev next = (("", None), mc') →
       metadatacache.entries mc !! chunk = Some prev
       ∧ metadatacache.entries mc' !! chunk = Some next
       ∧ apis.MostRecentVersion prev ≤ apis.MostRecentVersion next
       ∧ apis.LastConsumedVersion prev ≤ apis.LastConsumedVersion next
       ∧ apis.LastConsumedVersion next ≤ apis.MostRecentVersion next)
  ∧ (∀ cl chunk offset data previousVersion v cl',
       client.Write cl chunk offset data previousVersion = ((v, None), cl') →
       ∃ entry,
         metadatacache.ReadEntry (client.cache cl) chunk = (entry, "", None)
         ∧ apis.MostRecentVersion entry < v
         ∧ (previousVersion ≠ apis.AnyVersion → previousVersion < v)
         ∧ (0 ≤ apis.MostRecentVersion entry → previousVersion < v)).
Proof.
  split; [|split].
  - intros mc mc' Hrun. split.
    + by apply updates_monotone.
    + by apply updates_I1.
  - intros mc chunk prev next mc' Hcas.
    pose proof (UpdateEntry_ok_inv _ _ _ _ _ _ Hcas)
      as (_ & _ & Hprev & (Hm & Hl & Hi) & ->).
    simpl. by rewrite lookup_insert_eq.
  - intros cl chunk offset data previousVersion v cl' Hw.
    destruct (Write_ok_advances _ _ _ _ _ _ _ Hw)
      as (entry & Hread & Hpv & Hlt & Hv).
    exists entry. split; [done|]. split; [done|].
    unfold apis.AnyVersion in *. split; intros ?; destruct Hpv; lia.
Qed.

(** C2. A [Write] whose [previousVersion] is neither [AnyVersion] nor the
    entry's [MostRecentVersion] fails with a stale-version error that
    carries the current [MostRecentVersion], and leaves the cluster, and
    so every later read, as it was.  In particular a second [Write] from
    the version a successful one started from fails with the version the
    first one produced. *)
Theorem stale_write_rejected cl chunk offset data previousVersion :
  (∀ entry owner,
     metadatacache.ReadEntry (client.cache cl) chunk = (entry, owner, None) →
     previousVersion ≠ apis.AnyVersion →
     apis.MostRecentVersion entry ≠ previousVersion →
     client.Write cl chunk offset data previousVersion
     = ((apis.MostRecentVersion entry, Some client.errStaleVersion), cl)
     ∧ errKind client.errStaleVersion = StaleVersion
     ∧ ∀ offset' length',
         client.Read
           (client.Write cl chunk offset data previousVersion).2
           chunk offset' length'
         = client.Read cl chunk offset' length')
  ∧ (∀ offset0 data0 v cl1,
       previousVersion ≠ apis.AnyVersion →
       client.Write cl chunk offset0 data0 previousVersion = ((v, None), cl1) →
       client.Write cl1 chunk offset data previousVersion
       = ((v, Some client.errStaleVersion), cl1)).
Proof.
  split.
  - intros entry owner Hread Hany Hne.
    rewrite (Write_stale _ _ _ _ _ _ _ Hread Hany Hne). done.
  - intros offset0 data0 v cl1 Hany Hw.
    destruct (Write_ok_advances _ _ _ _ _ _ _ Hw)
      as (entry & _ & Hpv & Hlt & _).
    destruct (Write_ok_read _ _ _ _ _ _ _ Hw) as [replicas Hread].
    rewrite (Write_stale _ _ _ _ _ _ _ Hread Hany); [done|].
    simpl. destruct Hpv; [done|lia].
Qed.

End client_claims.

Section client_lifecycle.
Implicit Types (cl : client.Cluster).



End client_lifecycle.

(** * A write on a chunk at rest *)

Section write_at_rest.
Context {dg : Digest}.
Implicit Types (cl : client.Cluster).
Implicit Types (cs : gmap Z chunkserver.ReplicaChunkState).

Lemma StartWrite_ok_inv chunk offset data cs cs' :
  chunkserver.StartWrite chunk offset data cs = (None, cs') →
  ∃ rs,
    cs !! chunk = Some rs
    ∧ cs' = <[chunk :=
               {| chunkserver.committed := chunkserver.committed rs;
                  chunkserver.latestVisible := chunkserver.latestVisible rs;
                  chunkserver.prepared :=
                    <[commitHash offset data := [(offset, data)]]>
                      (chunkserver.prepared rs) |}]> cs.
Proof.
  unfold chunkserver.StartWrite. destruct (cs !! chunk) as [rs|]; [|done].
  destruct (decide _); [done|]. intros [= <-]. by exists rs.
Qed.

Lemma CommitWrite_ok_inv chunk hash old new cs cs' :
  chunkserver.CommitWrite chunk hash old new cs = (None, cs') →
  ∃ rs p spans,
    cs !! chunk = Some rs
    ∧ old < new
    ∧ chunkserver.committed rs !! old = Some p
    ∧ chunkserver.prepared rs !! hash = Some spans
    ∧ cs' = <[chunk :=
               {| chunkserver.committed :=
                    <[new := chunkserver.applySpans p spans]>
                      (chunkserver.committed rs);
                  chunkserver.latestVisible := chunkserver.latestVisible rs;
                  chunkserver.prepared :=
                    delete hash (chunkserver.prepared rs) |}]> cs.
Proof.
  unfold chunkserver.CommitWrite. destruct (cs !! chunk) as [rs|]; [|done].
  destruct (decide (old < new)); [|done].
  destruct (chunkserver.committed rs !! old) as [p|] eqn:Hp; [|done].
  destruct (chunkserver.prepared rs !! hash) as [spans|] eqn:Hs; [|done].
  intros [= <-]. by exists rs, p, spans.
Qed.

Lemma UpdateLatestVersion_ok_inv chunk old new cs cs' :
  chunkserver.UpdateLatestVersion chunk old new cs = (None, cs') →
  ∃ rs,
    cs !! chunk = Some rs
    ∧ chunkserver.latestVisible rs = old
    ∧ old ≤ new
    ∧ cs' = <[chunk :=
               {| chunkserver.committed :=
                    filter (λ kv, new ≤ kv.1) (chunkserver.committed rs);
                  chunkserver.latestVisible := new;
                  chunkserver.prepared := chunkserver.prepared rs |}]> cs.
Proof.
  unfold chunkserver.UpdateLatestVersion.
  destruct (cs !! chunk) as [rs|]; [|done].
  destruct (decide _); [|done]. destruct (decide _); [|done].
  intros [= <-]. by exists rs.
Qed.

(** A call that succeeded on each of distinct servers: every server went
    from its state before to the state its own call left. *)
Lemma onEach_ok_states
    (op : gmap Z chunkserver.ReplicaChunkState
          → option error * gmap Z chunkserver.ReplicaChunkState)
    rs (sv sv' : gmap Z (gmap Z chunkserver.ReplicaChunkState)) :
  NoDup rs →
  chunkserver.onEach op rs sv = (None, sv') →
  ∀ r, r ∈ rs →
    ∃ cs cs', sv !! r = Some cs ∧ op cs = (None, cs') ∧ sv' !! r = Some cs'.
Proof.
  revert sv. induction rs as [|r rs IH]; intros sv Hnd Hok r' Hr'.
  - by apply elem_of_nil in Hr'.
  - apply NoDup_cons in Hnd as [Hr Hnd].
    apply onEach_ok_inv in Hok as (s1 & Hfirst & Hrest).
    apply onServer_ok_inv in Hfirst as (cs & cs' & Hcs & Hop & ->).
    apply elem_of_cons in Hr' as [->|Hr'].
    + exists cs, cs'. split; [done|]. split; [done|].
      pose proof (onEach_other op rs (<[r := cs']> sv) r Hr) as Hsame.
      rewrite Hrest in Hsame. simpl in Hsame.
      by rewrite Hsame, lookup_insert_eq.
    + destruct (IH _ Hnd Hrest r' Hr') as (cs0 & cs0' & Hcs0 & Hop0 & Hsv').
      rewrite lookup_insert_ne in Hcs0 by (intros ->; done).
      by exists cs0, cs0'.
Qed.

(** A successful [StartWriteReplicated] staged on the primary and on
    every listed replica. *)
Lemma StartWriteReplicated_ok_inv primary chunk offset data others
    (sv sv' : gmap Z (gmap Z chunkserver.ReplicaChunkState)) :
  chunkserver.StartWriteReplicated primary chunk offset data others sv
    = (None, sv') →
  chunkserver.onEach (chunkserver.StartWrite chunk offset data)
    (primary :: others) sv = (None, sv').
Proof.
  unfold chunkserver.StartWriteReplicated. simpl.
  destruct (chunkserver.onServer _ primary sv) as [e1 s1].
  destruct e1; [done|]. intros ->. done.
Qed.

(** A successful [Write] on a chunk at rest, whose entry has
    [LastConsumedVersion <= MostRecentVersion], leaves the chunk at rest
    at the new version, and every replica with exactly one committed
    payload, that of the new version. *)
Lemma Write_settled cl chunk offset data previousVersion v cl' entry :
  client.settled cl chunk entry →
  apis.LastConsumedVersion entry ≤ apis.MostRecentVersion entry →
  client.Write cl chunk offset data previousVersion = ((v, None), cl') →
  client.settled cl' chunk
    {| apis.MostRecentVersion := v;
       apis.LastConsumedVersion := v;
       apis.Replicas := apis.Replicas entry |}
  ∧ ∀ r, r ∈ apis.Replicas entry →
      ∃ cs rs p,
        client.servers cl' !! r = Some cs
        ∧ cs !! chunk = Some rs
        ∧ chunkserver.latestVisible rs = v
        ∧ chunkserver.committed rs = {[ v := p ]}.
Proof.
  intros (Hread & Hnd & Hreplicas) HI1 Hw.
  apply Write_ok_inv in Hw
    as (entry' & primary & others & sv1 & sv2 & mc1 & Hread' & _ & HR & Hv
        & Hstart & Hcommit & Hcas1 & Hlatest & Hcas2).
  rewrite Hread in Hread'. injection Hread' as <-.
  rewrite HR in *.
  apply StartWriteReplicated_ok_inv in Hstart.
  assert (∀ r, r ∈ primary :: others →
            ∃ cs rs p,
              client.servers cl' !! r = Some cs
              ∧ cs !! chunk = Some rs
              ∧ chunkserver.latestVisible rs = v
              ∧ chunkserver.committed rs = {[ v := p ]}) as Hafter.
  { intros r Hr.
    destruct (Hreplicas r Hr) as (cs & rs & Hcs & Hrs & Hvis & Hmax).
    destruct (onEach_ok_states _ _ _ _ Hnd Hstart r Hr)
      as (cs0 & cs1 & Hcs0 & Hop1 & Hsv1).
    rewrite Hcs in Hcs0. injection Hcs0 as <-.
    apply StartWrite_ok_inv in Hop1 as (rs0 & Hrs0 & ->).
    rewrite Hrs in Hrs0. injection Hrs0 as <-.
    destruct (onEach_ok_states _ _ _ _ Hnd Hcommit r Hr)
      as (cs1' & cs2 & Hcs1 & Hop2 & Hsv2).
    rewrite Hsv1 in Hcs1. injection Hcs1 as <-.
    apply CommitWrite_ok_inv in Hop2
      as (rs1 & p & spans & Hrs1 & Hlt & Hp & _ & ->).
    rewrite lookup_insert_eq in Hrs1. injection Hrs1 as <-. simpl in *.
    destruct (onEach_ok_states _ _ _ _ Hnd Hlatest r Hr)
      as (cs2' & cs3 & Hcs2 & Hop3 & Hsv3).
    rewrite Hsv2 in Hcs2. injection Hcs2 as <-.
    apply UpdateLatestVersion_ok_inv in Hop3 as (rs2 & Hrs2 & _ & _ & ->).
    rewrite lookup_insert_eq in Hrs2. injection Hrs2 as <-. simpl in *.
    eexists _, _, _. split; [exact Hsv3|].
    split; [apply lookup_insert_eq|]. simpl. split; [done|].
    apply prune_to_highest; [apply lookup_insert_eq|].
    apply map_Forall_insert_2; [done|].
    intros k q Hk. pose proof (Hmax _ _ Hk) as Hle. simpl in Hle. lia. }
  split; [|exact Hafter].
  split; [by eapply UpdateEntry_ok_read|]. split; [done|]. simpl.
  intros r Hr. destruct (Hafter r Hr) as (cs & rs & p & Hcs & Hrs & Hvis & Hc).
  exists cs, rs. split; [done|]. split; [done|]. split; [done|].
  rewrite Hc. by apply map_Forall_singleton.
Qed.

End write_at_rest.

(** * The write path on a chunk at rest *)

Section write_path.
Context {dg : Digest}.
Implicit Types (cl : client.Cluster).
Implicit Types (cs : gmap Z chunkserver.ReplicaChunkState).

Lemma atRest_settled cl chunk entry :
  client.atRest cl chunk entry → client.settled cl chunk entry.
Proof.
  intros (Hread & _ & Hnd & Hreplicas). split; [done|]. split; [done|].
  intros r Hr. destruct (Hreplicas r Hr) as (cs & rs & p & Hcs & Hrs & Hv & Hc).
  exists cs, rs. split; [done|]. split; [done|]. split; [done|].
  rewrite Hc. by apply map_Forall_singleton.
Qed.

(** A successful [Write] leaves it at rest at the new version. *)
Lemma Write_atRest cl chunk offset data previousVersion v cl' entry :
  client.atRest cl chunk entry →
  client.Write cl chunk offset data previousVersion = ((v, None), cl') →
  client.atRest cl' chunk
    {| apis.MostRecentVersion := v;
       apis.LastConsumedVersion := v;
       apis.Replicas := apis.Replicas entry |}.
Proof.
  intros Hrest Hw.
  pose proof Hrest as (_ & Hsame & _).
  destruct (Write_settled _ _ _ _ _ _ _ _ (atRest_settled _ _ _ Hrest)
              ltac:(lia) Hw) as [(Hread & Hnd & _) Hone].
  split; [done|]. split; [done|]. split; [done|]. exact Hone.
Qed.

Lemma StartWrite_ok chunk offset data cs rs :
  cs !! chunk = Some rs →
  offset + Z.of_nat (length data) ≤ apis.MaxChunkSize →
  chunkserver.StartWrite chunk offset data cs
  = (None,
     <[chunk :=
         {| chunkserver.committed := chunkserver.committed rs;
            chunkserver.latestVisible := chunkserver.latestVisible rs;
            chunkserver.prepared :=
              <[commitHash offset data := [(offset, data)]]>
                (chunkserver.prepared rs) |}]> cs).
Proof.
  intros Hrs Hfit. unfold chunkserver.StartWrite. rewrite Hrs.
  by rewrite decide_False by lia.
Qed.

Lemma CommitWrite_ok chunk hash old new cs rs p spans :
  cs !! chunk = Some rs →
  old < new →
  chunkserver.committed rs !! old = Some p →
  chunkserver.prepared rs !! hash = Some spans →
  chunkserver.CommitWrite chunk hash old new cs
  = (None,
     <[chunk :=
         {| chunkserver.committed :=
              <[new := chunkserver.applySpans p spans]>
                (chunkserver.committed rs);
            chunkserver.latestVisible := chunkserver.latestVisible rs;
            chunkserver.prepared := delete hash (chunkserver.prepared rs) |}]>
       cs).
Proof.
  intros Hrs Hlt Hp Hs. unfold chunkserver.CommitWrite. rewrite Hrs.
  rewrite decide_True by done. by rewrite Hp, Hs.
Qed.

Lemma StartWriteReplicated_as_onEach primary chunk offset data others
    (sv : gmap Z (gmap Z chunkserver.ReplicaChunkState)) :
  (chunkserver.onEach (chunkserver.StartWrite chunk offset data)
     (primary :: others) sv).1 = None →
  chunkserver.StartWriteReplicated primary chunk offset data others sv
  = chunkserver.onEach (chunkserver.StartWrite chunk offset data)
      (primary :: others) sv.
Proof.
  unfold chunkserver.StartWriteReplicated. simpl.
  destruct (chunkserver.onServer _ primary sv) as [e1 s1].
  destruct (chunkserver.onEach _ others s1) as [e2 s2]. simpl.
  destruct e1; [done|]. by intros ->.
Qed.

Lemma UpdateEntry_ok mc chunk entry next :
  metadatacache.ReadEntry mc chunk = (entry, "", None) →
  metadatacache.advances entry next →
  metadatacache.UpdateEntry mc chunk entry next
  = (("", None),
     metadatacache.withEntries mc (<[chunk := next]> (metadatacache.entries mc))).
Proof.
  intros (_ & Hred & Hentry)%ReadEntry_ok_inv Hadv.
  unfold metadatacache.UpdateEntry. rewrite Hred, Hentry.
  by rewrite !decide_True.
Qed.

(** On a chunk at rest with at least one replica, a [Write] that fits
    the chunk and names the current version (or [AnyVersion]) goes
    through all seven steps and returns the next version. *)
Lemma Write_atRest_succeeds cl chunk offset data previousVersion entry :
  client.atRest cl chunk entry →
  apis.Replicas entry ≠ [] →
  0 ≤ apis.MostRecentVersion entry →
  apis.MostRecentVersion entry + 1 < 2 ^ 64 →
  previousVersion = apis.AnyVersion
  ∨ apis.MostRecentVersion entry = previousVersion →
  offset + Z.of_nat (length data) ≤ apis.MaxChunkSize →
  ∃ cl',
    client.Write cl chunk offset data previousVersion
    = ((apis.MostRecentVersion entry + 1, None), cl').
Proof.
  intros (Hread & Hsame & Hnd & Hreplicas) Hsome Hpos Hmax Hpv Hfit.
  assert (uint64 (apis.MostRecentVersion entry + 1)
          = apis.MostRecentVersion entry + 1) as Hv.
  { unfold uint64. apply Z.mod_small. lia. }
  set (v := apis.MostRecentVersion entry + 1) in *.
  set (h := commitHash offset data).
  (* step 2: staging *)
  destruct (onEach_ok (chunkserver.StartWrite chunk offset data)
              (apis.Replicas entry) (client.servers cl) Hnd)
    as [Hok1 Hst1].
  { intros r Hr.
    destruct (Hreplicas r Hr) as (cs & rs & p & Hcs & Hrs & _).
    exists cs. split; [done|]. by rewrite (StartWrite_ok _ _ _ _ _ Hrs Hfit). }
  destruct (chunkserver.onEach (chunkserver.StartWrite chunk offset data)
              (apis.Replicas entry) (client.servers cl))
    as [e1 sv1] eqn:Hstage.
  simpl in Hok1, Hst1. subst e1.
  (* step 4: commit *)
  destruct (onEach_ok
              (chunkserver.CommitWrite chunk h
                 (apis.MostRecentVersion entry) v)
              (apis.Replicas entry) sv1 Hnd) as [Hok2 Hst2].
  { intros r Hr.
    destruct (Hreplicas r Hr) as (cs & rs & p & Hcs & Hrs & _ & Hc).
    destruct (Hst1 r Hr) as (cs0 & Hcs0 & Hsv1).
    rewrite Hcs in Hcs0. injection Hcs0 as <-.
    rewrite (StartWrite_ok _ _ _ _ _ Hrs Hfit) in Hsv1. simpl in Hsv1.
    eexists. split; [exact Hsv1|].
    erewrite CommitWrite_ok; [done|apply lookup_insert_eq| |simpl|simpl].
    - unfold v. lia.
    - rewrite Hc, Hsame. apply lookup_singleton_eq.
    - apply lookup_insert_eq. }
  destruct (chunkserver.onEach
              (chunkserver.CommitWrite chunk h
                 (apis.MostRecentVersion entry) v)
              (apis.Replicas entry) sv1) as [e2 sv2] eqn:Hcommit.
  simpl in Hok2, Hst2. subst e2.
  (* step 6: the new version becomes visible *)
  destruct (onEach_ok
              (chunkserver.UpdateLatestVersion chunk
                 (apis.LastConsumedVersion entry) v)
              (apis.Replicas entry) sv2 Hnd) as [Hok3 _].
  { intros r Hr.
    destruct (Hreplicas r Hr) as (cs & rs & p & Hcs & Hrs & Hvis & Hc).
    destruct (Hst1 r Hr) as (cs0 & Hcs0 & Hsv1).
    rewrite Hcs in Hcs0. injection Hcs0 as <-.
    rewrite (StartWrite_ok _ _ _ _ _ Hrs Hfit) in Hsv1. simpl in Hsv1.
    destruct (Hst2 r Hr) as (cs1 & Hcs1 & Hsv2).
    rewrite Hsv1 in Hcs1. injection Hcs1 as <-.
    erewrite CommitWrite_ok in Hsv2;
      [|apply lookup_insert_eq| |simpl|simpl].
    2:{ unfold v. lia. }
    2:{ rewrite Hc, Hsame. apply lookup_singleton_eq. }
    2:{ apply lookup_insert_eq. }
    simpl in Hsv2. eexists. split; [exact Hsv2|].
    erewrite UpdateLatestVersion_ok; [done|apply lookup_insert_eq|done|].
    unfold v. lia. }
  destruct (chunkserver.onEach
              (chunkserver.UpdateLatestVersion chunk
                 (apis.LastConsumedVersion entry) v)
              (apis.Replicas entry) sv2) as [e3 sv3] eqn:Hlatest.
  simpl in Hok3. subst e3.
  (* the protocol *)
  unfold client.Write. cbv zeta. rewrite Hread.
  rewrite decide_False by (unfold apis.AnyVersion in *; intros [??]; lia).
  destruct (apis.Replicas entry) as [|primary others] eqn:HR; [done|].
  rewrite StartWriteReplicated_as_onEach by (by rewrite Hstage).
  rewrite Hstage. fold v. rewrite Hv. fold h. rewrite Hcommit.
  erewrite UpdateEntry_ok; [|exact Hread|].
  2:{ unfold metadatacache.advances. simpl. unfold v. lia. }
  rewrite Hlatest.
  erewrite UpdateEntry_ok.
  - by eexists.
  - unfold metadatacache.ReadEntry. simpl.
    apply ReadEntry_ok_inv in Hread as (_ & -> & _).
    by rewrite lookup_insert_eq.
  - unfold metadatacache.advances. simpl. unfold v. lia.
Qed.

End write_path.

#[local] Existing Instance examples.plainDigest.

Lemma Write_created :
  client.Write examples.created 1 0 examples.hello apis.AnyVersion
  = ((2, None), examples.written).
Proof. vm_compute. reflexivity. Qed.

Lemma versions_advance_witness :
  (∃ e',
     metadatacache.entries
       (metadatacache.UpdateEntry examples.someCache 5
          examples.entry32 examples.entry33).2 !! 5 = Some e'
     ∧ 3 ≤ apis.MostRecentVersion e'
     ∧ 2 ≤ apis.LastConsumedVersion e')
  ∧ ∃ entry,
      metadatacache.ReadEntry (client.cache examples.created) 1
      = (entry, "", None)
      ∧ apis.MostRecentVersion entry < 2.
Proof.
  destruct (versions_advance (dg := examples.plainDigest))
    as (Hrun & _ & Hwrite).
  split.
  - destruct (Hrun examples.someCache
                (metadatacache.UpdateEntry examples.someCache 5
                   examples.entry32 examples.entry33).2) as [Hmono _].
    + apply (metadatacache.updates_cons examples.someCache 5
               examples.entry32 examples.entry33
               (metadatacache.UpdateEntry examples.someCache 5
                  examples.entry32 examples.entry33).2).
      * vm_compute. reflexivity.
      * apply metadatacache.updates_nil.
    + apply (Hmono 5 examples.entry32). vm_compute. reflexivity.
  - destruct (Hwrite examples.created 1 0 examples.hello apis.AnyVersion 2
                examples.written) as (entry & Hread & Hlt & _).
    + vm_compute. reflexivity.
    + exists entry. split; [exact Hread | exact Hlt].
Defined.

Lemma stale_write_rejected_witness :
  client.Write examples.written 1 7 examples.hello 1
  = ((2, Some client.errStaleVersion), examples.written).
Proof.
  destruct (stale_write_rejected (dg := examples.plainDigest)
              examples.written 1 7 examples.hello 1) as [Hstale _].
  destruct (Hstale {| apis.MostRecentVersion := 2;
                      apis.LastConsumedVersion := 2;
                      apis.Replicas := [2; 1; 0] |} "")
    as [Hwrite _].
  - vm_compute. reflexivity.
  - unfold apis.AnyVersion. lia.
  - simpl. lia.
  - exact Hwrite.
Defined.



(** The simple read-write scenario of the client tests, started on a
    chunk at rest at version 1: write, read back, write from the version
    read, a second write from that same version turned away with the
    version the first one produced, a stale delete turned away, the
    delete at the current version, and the read that no longer finds the
    chunk. *)
Example simple_read_write_scenario :
  let w1 := client.Write examples.created 1 0 examples.hello apis.AnyVersion in
  let w2 := client.Write w1.2 1 3 [Byte.x21] 2 in
  let w3 := client.Write w2.2 1 3 [Byte.x3f] 2 in
  let d1 := client.Delete w3.2 1 2 in
  let d2 := client.Delete d1.2 1 3 in
  w1.1 = (2, None)
  ∧ client.Read w1.2 1 0 6 = (examples.hello ++ [Byte.x00], 2, None)
  ∧ w2.1 = (3, None)
  ∧ client.Read w2.2 1 0 6
    = ([Byte.x68; Byte.x65; Byte.x6c; Byte.x21; Byte.x6f; Byte.x00], 3, None)
  ∧ w3.1 = (3, Some client.errStaleVersion)
  ∧ client.Read w3.2 1 0 6 = client.Read w2.2 1 0 6
  ∧ d1.1 = Some client.errStaleVersion
  ∧ d2.1 = None
  ∧ client.Read d2.2 1 0 6 = ([], 0, Some metadatacache.errNotFound)
  ∧ client.servers d2.2 = client.servers examples.localCluster.
Proof. vm_compute. repeat split. Qed.

(** * Properties of the filesystem package *)

(** Case analysis on every answer of the world in the goal. *)
Ltac world_case w :=
  match goal with
  | |- context [filesystem.PathDir w ?a ?s] =>
      destruct (filesystem.PathDir w a s) as [[? [?|]] ?]
  | |- context [filesystem.Root w ?s] =>
      destruct (filesystem.Root w s) as [[? [?|]] ?]
  | |- context [filesystem.Release w ?a ?s] =>
      destruct (filesystem.Release w a s) as [[] ?]
  | |- context [filesystem.NewDir w ?a ?b ?s] =>
      destruct (filesystem.NewDir w a b s) as [[?|] ?]
  | |- context [filesystem.MoveTo w ?a ?b ?c ?d ?s] =>
      destruct (filesystem.MoveTo w a b c d s) as [[?|] ?]
  | |- context [filesystem.Remove w ?a ?b ?c ?s] =>
      destruct (filesystem.Remove w a b c s) as [[?|] ?]
  | |- context [filesystem.NewSymLink w ?a ?b ?c ?s] =>
      destruct (filesystem.NewSymLink w a b c s) as [[?|] ?]
  | |- context [filesystem.Stat_ w ?a ?b ?s] =>
      destruct (filesystem.Stat_ w a b s) as [[[| | | |?] [?|]] ?]
  | |- context [filesystem.LookupFile w ?a ?b ?s] =>
      destruct (filesystem.LookupFile w a b s) as [[? [?|]] ?]
  | |- context [filesystem.LookupDir w ?a ?b ?s] =>
      destruct (filesystem.LookupDir w a b s) as [[? [?|]] ?]
  | |- context [filesystem.LookupSymLink w ?a ?b ?s] =>
      destruct (filesystem.LookupSymLink w a b s) as [[? [?|]] ?]
  | |- context [filesystem.listEntries w ?a ?s] =>
      destruct (filesystem.listEntries w a s) as [[? [?|]] ?]
  | |- context [filesystem.NewFile w ?a ?b ?s] =>
      destruct (filesystem.NewFile w a b s) as [[?|] ?]
  | |- context [filesystem.File_Release w ?a ?s] =>
      destruct (filesystem.File_Release w a s) as [[] ?]
  | |- context [filesystem.File_Size w ?a ?s] =>
      destruct (filesystem.File_Size w a s) as [[? [?|]] ?]
  | |- context [filesystem.File_Truncate w ?a ?b ?s] =>
      destruct (filesystem.File_Truncate w a b s) as [[?|] ?]
  | |- context [filesystem.File_Read w ?a ?b ?c ?s] =>
      destruct (filesystem.File_Read w a b c s) as [[? [?|]] ?]
  | |- context [filesystem.File_Write w ?a ?b ?c ?s] =>
      destruct (filesystem.File_Write w a b c s) as [[?|] ?]
  end.

Ltac stsimpl :=
  unfold mbind, St_bind, mret, St_ret, filesystem.obtains,
    filesystem.releases, filesystem.changes, filesystem.reads; simpl.

Ltac world_cases w := stsimpl; repeat (world_case w; stsimpl).

(** The journal grew by the events written out in the goal. *)
Ltac journal_done :=
  eexists; split;
  [ first [ symmetry; apply app_nil_r | rewrite <- ?app_assoc; reflexivity ]
  | simpl; rewrite ?decide_True by done; try done ].

Ltac stream_cases w :=
  unfold filesystem.perform, filesystem.streamFile,
    filesystem.fileStream_Read, filesystem.fileStream_ReadAt,
    filesystem.fileStream_Write, filesystem.fileStream_WriteAt,
    filesystem.fileStream_Seek, filesystem.fileStream_Truncate,
    filesystem.fileStream_Close;
  stsimpl;
  repeat (first [ world_case w | case_decide ]; stsimpl).

Section filesystem_facts.
Context {lib : PathLib} {S : Type} (w : filesystem.World S).

Lemma held_app evs1 evs2 stack :
  filesystem.held (evs1 ++ evs2) stack
  = filesystem.held evs1 stack ≫= filesystem.held evs2.
Proof.
  revert stack. induction evs1 as [|[k h|k h|what h] evs1 IH]; intros stack;
    simpl; [done|apply IH| |apply IH].
  destruct stack as [|top stack]; [done|].
  destruct (decide (top = (k, h))); [apply IH|done].
Qed.

(** X1. Whatever the world answers, [Mkdir], [Rename], [Unlink], [Rmdir],
    [SymLink], [Stat], [ReadLink], [ListDir] and [Truncate] release every
    directory reference and file they obtained, each once, the innermost
    first, before they return. *)
Theorem operations_release_their_handles path other length :
  filesystem.journals (filesystem.Mkdir (filesystem.journaled w) path)
    (λ _ evs, filesystem.held evs [] = Some [])
  ∧ filesystem.journals (filesystem.Rename (filesystem.journaled w) path other)
      (λ _ evs, filesystem.held evs [] = Some [])
  ∧ filesystem.journals (filesystem.Unlink (filesystem.journaled w) path)
      (λ _ evs, filesystem.held evs [] = Some [])
  ∧ filesystem.journals (filesystem.Rmdir (filesystem.journaled w) path)
      (λ _ evs, filesystem.held evs [] = Some [])
  ∧ filesystem.journals (filesystem.SymLink (filesystem.journaled w) path other)
      (λ _ evs, filesystem.held evs [] = Some [])
  ∧ filesystem.journals (filesystem.Stat (filesystem.journaled w) path)
      (λ _ evs, filesystem.held evs [] = Some [])
  ∧ filesystem.journals (filesystem.ReadLink (filesystem.journaled w) path)
      (λ _ evs, filesystem.held evs [] = Some [])
  ∧ filesystem.journals (filesystem.ListDir (filesystem.journaled w) path)
      (λ _ evs, filesystem.held evs [] = Some [])
  ∧ filesystem.journals
      (filesystem.Truncate (filesystem.journaled w) path length)
      (λ _ evs, filesystem.held evs [] = Some []).
Proof.
  repeat apply conj; intros s journal.
  - unfold filesystem.Mkdir. world_cases w; journal_done.
  - unfold filesystem.Rename. world_cases w; journal_done.
  - unfold filesystem.Unlink. world_cases w; journal_done.
  - unfold filesystem.Rmdir. world_cases w; journal_done.
  - unfold filesystem.SymLink. world_cases w; journal_done.
  - unfold filesystem.Stat, filesystem.Stat_file, filesystem.Stat_directory,
      filesystem.Stat_symlink.
    destruct (decide (path = "/")); world_cases w; journal_done.
  - unfold filesystem.ReadLink. world_cases w; journal_done.
  - unfold filesystem.ListDir. world_cases w; journal_done.
  - unfold filesystem.Truncate. world_cases w; journal_done.
Qed.

(** The journal only observes: an operation on the journaled world
    returns what it returns on the world itself, and leaves the world in
    the same state. *)
Lemma journal_observes_open path create exclusive s journal :
  (filesystem.OpenRead (filesystem.journaled w) path (s, journal)).1
    = (filesystem.OpenRead w path s).1
  ∧ (filesystem.OpenRead (filesystem.journaled w) path (s, journal)).2.1
    = (filesystem.OpenRead w path s).2
  ∧ (filesystem.OpenWrite (filesystem.journaled w) path create exclusive
       (s, journal)).1
    = (filesystem.OpenWrite w path create exclusive s).1
  ∧ (filesystem.OpenWrite (filesystem.journaled w) path create exclusive
       (s, journal)).2.1
    = (filesystem.OpenWrite w path create exclusive s).2.
Proof.
  unfold filesystem.OpenRead, filesystem.OpenWrite, filesystem.OpenWrite_file.
  destruct create, exclusive; world_cases w; done.
Qed.

Lemma journal_observes_Stat path s journal :
  (filesystem.Stat (filesystem.journaled w) path (s, journal)).1
    = (filesystem.Stat w path s).1
  ∧ (filesystem.Stat (filesystem.journaled w) path (s, journal)).2.1
    = (filesystem.Stat w path s).2.
Proof.
  unfold filesystem.Stat, filesystem.Stat_file, filesystem.Stat_directory,
    filesystem.Stat_symlink.
  destruct (decide (path = "/")); world_cases w; done.
Qed.

Lemma kept_app evs1 evs2 bag :
  filesystem.kept (evs1 ++ evs2) bag
  = filesystem.kept evs1 bag ≫= filesystem.kept evs2.
Proof.
  revert bag. induction evs1 as [|[k h|k h|what h] evs1 IH]; intros bag;
    simpl; [done|apply IH| |apply IH].
  destruct (filesystem.takeOut (k, h) bag); [apply IH|done].
Qed.

(** Removing a handle of one kind from a bag that starts with a handle
    of the other kind. *)
Ltac bag_done :=
  simpl; repeat (case_decide; simplify_eq; simpl); try done.

(** X2. [OpenRead] and [OpenWrite] release the directory reference they
    obtained on every path.  When they succeed they return an open
    stream at position 0 and hold exactly its file; when they fail they
    hold nothing and return no stream.  [Close] releases the file of an
    open stream and nothing of a closed one, and leaves the stream
    closed. *)
Theorem open_hands_over_one_file path create exclusive fs :
  let handsOver (r : option filesystem.fileStream * option error)
        (evs : list filesystem.event) :=
    match r with
    | (Some stream, None) =>
        filesystem.kept evs []
          = Some [(filesystem.FileHandle, filesystem.f stream)]
        ∧ filesystem.closed stream = false
        ∧ filesystem.head stream = 0
    | (None, Some _) => filesystem.kept evs [] = Some []
    | _ => False
    end in
  filesystem.journals (filesystem.OpenRead (filesystem.journaled w) path)
    handsOver
  ∧ filesystem.journals
      (filesystem.OpenWrite (filesystem.journaled w) path create exclusive)
      handsOver
  ∧ filesystem.journals
      (filesystem.fileStream_Close (filesystem.journaled w) fs)
      (λ closing evs,
         evs = (if filesystem.closed fs then []
                else [filesystem.Released filesystem.FileHandle
                        (filesystem.f fs)])
         ∧ filesystem.closed closing.1 = true
         ∧ filesystem.f closing.1 = filesystem.f fs
         ∧ closing.2 = None).
Proof.
  split; [|split]; intros s journal.
  - unfold filesystem.OpenRead. world_cases w; eexists;
      (split; [ first [ symmetry; apply app_nil_r
                      | rewrite <- ?app_assoc; reflexivity ] |]);
      bag_done.
  - unfold filesystem.OpenWrite, filesystem.OpenWrite_file.
    destruct create, exclusive; world_cases w; eexists;
      (split; [ first [ symmetry; apply app_nil_r
                      | rewrite <- ?app_assoc; reflexivity ] |]);
      bag_done.
  - unfold filesystem.fileStream_Close.
    destruct (filesystem.closed fs) eqn:Hclosed; world_cases w; eexists;
      (split; [ first [ symmetry; apply app_nil_r
                      | rewrite <- ?app_assoc; reflexivity ] |]);
      done.
Qed.

(** X3. [OpenWrite] creates a file only on request: without [create] it
    changes nothing; with [create] it makes at most one call that
    changes the file system, a [NewFile].
    With [exclusive] it returns a stream only after it called [NewFile],
    and with [exclusive] but without [create] it returns no stream and
    fails with the mismatched-options error (or, before that, with the
    error of the directory lookup). *)
Theorem OpenWrite_creates_only_on_request path create exclusive :
  filesystem.journals
    (filesystem.OpenWrite (filesystem.journaled w) path create exclusive)
    (λ r evs,
       (filesystem.changesOf evs = []
        ∨ create = true
          ∧ ∃ ref, filesystem.changesOf evs = [("NewFile", ref)])
       ∧ (create = false → filesystem.changesOf evs = [])
       ∧ (exclusive = true → r.2 = None →
          ∃ ref, filesystem.changesOf evs = [("NewFile", ref)])
       ∧ (exclusive = true → create = false →
          r.1 = None
          ∧ filesystem.changesOf evs = []
          ∧ (r.2 = Some filesystem.errMismatched ∨ r.2 ≠ None ∧ evs = []))).
Proof.
  intros s journal.
  unfold filesystem.OpenWrite, filesystem.OpenWrite_file.
  destruct create, exclusive; world_cases w; eexists;
    (split; [ first [ symmetry; apply app_nil_r
                    | rewrite <- ?app_assoc; reflexivity ] |]);
    simpl; repeat split; try done; eauto.
Qed.

(** X4. [Stat], [ReadLink], [ListDir] and [OpenRead] make no call that
    changes the file system. *)
Theorem lookups_change_nothing path :
  filesystem.journals (filesystem.Stat (filesystem.journaled w) path)
    (λ _ evs, filesystem.changesOf evs = [])
  ∧ filesystem.journals (filesystem.ReadLink (filesystem.journaled w) path)
      (λ _ evs, filesystem.changesOf evs = [])
  ∧ filesystem.journals (filesystem.ListDir (filesystem.journaled w) path)
      (λ _ evs, filesystem.changesOf evs = [])
  ∧ filesystem.journals (filesystem.OpenRead (filesystem.journaled w) path)
      (λ _ evs, filesystem.changesOf evs = []).
Proof.
  repeat apply conj; intros s journal.
  - unfold filesystem.Stat, filesystem.Stat_file, filesystem.Stat_directory,
      filesystem.Stat_symlink.
    destruct (decide (path = "/")); world_cases w; journal_done.
  - unfold filesystem.ReadLink. world_cases w; journal_done.
  - unfold filesystem.ListDir. world_cases w; journal_done.
  - unfold filesystem.OpenRead. world_cases w; journal_done.
Qed.

Lemma int64_range z : - 2 ^ 63 ≤ int64 z < 2 ^ 63.
Proof.
  unfold int64. pose proof (Z.mod_pos_bound (z + 2 ^ 63) (2 ^ 64)). lia.
Qed.

Lemma int64_small z : - 2 ^ 63 ≤ z < 2 ^ 63 → int64 z = z.
Proof. intros Hz. unfold int64. rewrite Z.mod_small; lia. Qed.

Lemma uint32_range z : 0 ≤ uint32 z < 2 ^ 32.
Proof. unfold uint32. apply Z.mod_pos_bound. lia. Qed.

Lemma uint32_small z : 0 ≤ z < 2 ^ 32 → uint32 z = z.
Proof. intros Hz. unfold uint32. by apply Z.mod_small. Qed.

(** Converting to [int64] on the way to [uint32] changes nothing. *)
Lemma uint32_int64 z : uint32 (int64 z) = uint32 z.
Proof.
  unfold uint32, int64.
  rewrite (Z.mod_eq (z + 2 ^ 63) (2 ^ 64)) by lia.
  replace (z + 2 ^ 63 - 2 ^ 64 * ((z + 2 ^ 63) `div` 2 ^ 64) - 2 ^ 63)
    with (z + (- (2 ^ 32 * ((z + 2 ^ 63) `div` 2 ^ 64))) * 2 ^ 32) by lia.
  apply Z_mod_plus_full.
Qed.

Lemma uint32_add_l a b : uint32 (uint32 a + b) = uint32 (a + b).
Proof. unfold uint32. by rewrite Zplus_mod_idemp_l. Qed.

Lemma uint32_add_int64 a b : uint32 (int64 (int64 a + b)) = uint32 (a + b).
Proof.
  rewrite uint32_int64, <- uint32_add_l, uint32_int64. apply uint32_add_l.
Qed.

Lemma uint32_wraps z k : uint32 (z + k * 2 ^ 32) = uint32 z.
Proof. unfold uint32. apply Z_mod_plus_full. Qed.

(** X5. [Stat] returns either a file info and no error, or no info and
    an error.  The info carries [Base(path)] as its name and a size
    within [int64]; for the path ["/"] it is a directory. *)
Theorem Stat_result path s :
  match (filesystem.Stat w path s).1 with
  | (Some info, None) =>
      filesystem.name info = Base path
      ∧ - 2 ^ 63 ≤ filesystem.size info < 2 ^ 63
      ∧ (path = "/" → filesystem.isdir info = true)
  | (None, Some _) => True
  | _ => False
  end.
Proof.
  unfold filesystem.Stat, filesystem.Stat_file, filesystem.Stat_directory,
    filesystem.Stat_symlink.
  destruct (decide (path = "/")); world_cases w;
    repeat split; try done; apply int64_range.
Qed.

(** *** Streams *)

Lemma releasesOf_app evs1 evs2 :
  filesystem.releasesOf (evs1 ++ evs2)
  = filesystem.releasesOf evs1 ++ filesystem.releasesOf evs2.
Proof. apply omap_app. Qed.

Lemma changesOf_app evs1 evs2 :
  filesystem.changesOf (evs1 ++ evs2)
  = filesystem.changesOf evs1 ++ filesystem.changesOf evs2.
Proof. apply omap_app. Qed.

Lemma perform_releases c fs s journal :
  let after :=
    (filesystem.perform (filesystem.streamFile (filesystem.journaled w)) c
       (fs, (s, journal))).2 in
  ∃ evs,
    after.2.2 = journal ++ evs
    ∧ filesystem.releasesOf evs
      = (if filesystem.closed fs then []
         else if filesystem.closed after.1
         then [(filesystem.FileHandle, filesystem.f fs)] else [])
    ∧ filesystem.f after.1 = filesystem.f fs
    ∧ (filesystem.closed fs = true → filesystem.closed after.1 = true).
Proof.
  destruct fs as [h [|] pos]; destruct c; stream_cases w;
    eexists;
    (split; [ first [ symmetry; apply app_nil_r
                    | rewrite <- ?app_assoc; reflexivity ] |]);
    done.
Qed.

(** X6. Over any sequence of calls on a stream, the file is released at
    most once: exactly once if the sequence closes a stream that was
    open, not at all otherwise.  The stream keeps its file, and a closed
    stream stays closed. *)
Theorem stream_releases_its_file_once cs fs s journal :
  let after :=
    (filesystem.performAll (filesystem.streamFile (filesystem.journaled w))
       cs (fs, (s, journal))).2 in
  ∃ evs,
    after.2.2 = journal ++ evs
    ∧ filesystem.releasesOf evs
      = (if filesystem.closed fs then []
         else if filesystem.closed after.1
         then [(filesystem.FileHandle, filesystem.f fs)] else [])
    ∧ filesystem.f after.1 = filesystem.f fs
    ∧ (filesystem.closed fs = true → filesystem.closed after.1 = true).
Proof.
  revert fs s journal. induction cs as [|c cs IH]; intros fs s journal.
  - simpl. exists []. rewrite app_nil_r. by destruct (filesystem.closed fs).
  - pose proof (perform_releases c fs s journal) as Hstep. cbv zeta in Hstep.
    cbv zeta. cbn [filesystem.performAll]. stsimpl.
    destruct (filesystem.perform _ c (fs, (s, journal)))
      as [r [fs1 [s1 journal1]]].
    destruct Hstep as (evs1 & Hj1 & Hr1 & Hf1 & Hc1). simpl in *.
    specialize (IH fs1 s1 journal1). cbv zeta in IH.
    destruct (filesystem.performAll _ cs (fs1, (s1, journal1)))
      as [rs [fs2 [s2 journal2]]].
    destruct IH as (evs2 & Hj2 & Hr2 & Hf2 & Hc2). simpl in *.
    exists (evs1 ++ evs2). subst journal1 journal2.
    split; [by rewrite app_assoc|]. rewrite releasesOf_app, Hr1, Hr2, Hf1.
    split; [|split; [congruence|tauto]].
    destruct (filesystem.closed fs) eqn:H0.
    + by rewrite Hc1.
    + destruct (filesystem.closed fs1) eqn:H1.
      * by rewrite Hc2.
      * done.
Qed.

Lemma performAll_cons {T : Type} (file : filesystem.WritableFile T) c cs t :
  filesystem.performAll file (c :: cs) t
  = let '(r, t1) := filesystem.perform file c t in
    let '(rs, t2) := filesystem.performAll file cs t1 in
    (r :: rs, t2).
Proof. reflexivity. Qed.



(** X8. [Seek] on an open stream computes positions modulo 2^32 and
    never rejects a target: from the start it goes to [offset mod 2^32],
    from the current position to [(head + offset) mod 2^32], from the
    end to [(size + offset) mod 2^32], where only a failing [Size]
    makes it fail; any other [whence] rewinds to 0 without an error.
    The position returned is the new head. *)
Theorem Seek_wraps_and_unknown_whence_rewinds h pos offset whence s :
  let fs := {| filesystem.f := h; filesystem.closed := false;
               filesystem.head := pos |} in
  let at_ (n : Z) :=
    ({| filesystem.f := h; filesystem.closed := false;
        filesystem.head := n `mod` 2 ^ 32 |}, n `mod` 2 ^ 32, @None error) in
  filesystem.fileStream_Seek w fs offset whence s
  = if decide (whence = filesystem.io_SeekStart) then (at_ offset, s)
    else if decide (whence = filesystem.io_SeekCurrent)
    then (at_ (pos + offset), s)
    else if decide (whence = filesystem.io_SeekEnd) then
      match filesystem.File_Size w h s with
      | ((sz, None), s') => (at_ (sz + offset), s')
      | ((_, Some e), s') => ((fs, 0, Some e), s')
      end
    else (at_ 0, s).
Proof.
  cbv zeta. unfold filesystem.fileStream_Seek. stsimpl.
  assert (∀ n, int64 (uint32 n) = n `mod` 2 ^ 32) as Hback.
  { intros n. rewrite int64_small; [done|].
    pose proof (uint32_range n). unfold uint32 in *. lia. }
  repeat case_decide; stsimpl; try world_case w; stsimpl;
    rewrite ?uint32_add_int64, ?Hback; try done.
Qed.

(** X10. Offsets and lengths are cut to 32 bits without a check:
    [ReadAt] and [WriteAt] at an offset, [Seek] from the start to an
    offset, and [Truncate] to a length do exactly what they do at that
    number plus any multiple of 2^32. *)
Theorem offsets_are_cut_to_32_bits fs p n k :
  filesystem.fileStream_ReadAt w fs p (n + k * 2 ^ 32)
    = filesystem.fileStream_ReadAt w fs p n
  ∧ filesystem.fileStream_WriteAt w fs p (n + k * 2 ^ 32)
    = filesystem.fileStream_WriteAt w fs p n
  ∧ filesystem.fileStream_Seek w fs (n + k * 2 ^ 32) filesystem.io_SeekStart
    = filesystem.fileStream_Seek w fs n filesystem.io_SeekStart
  ∧ filesystem.fileStream_Truncate w fs (n + k * 2 ^ 32)
    = filesystem.fileStream_Truncate w fs n.
Proof.
  unfold filesystem.fileStream_ReadAt, filesystem.fileStream_WriteAt,
    filesystem.fileStream_Seek, filesystem.fileStream_Truncate.
  rewrite !decide_True by done. by rewrite !uint32_wraps.
Qed.

End filesystem_facts.

Section erroringWriter_facts.
Context {T : Type} (base : filesystem.ReadOnlyFile T).

Lemma perform_erroringWriter c t :
  filesystem.writes c = true →
  filesystem.perform (filesystem.WithErroringWrite base) c t
  = ((0, Some filesystem.errNotWritable), t).
Proof. by destruct c. Qed.

(** X11. Through [WithErroringWrite], [Write], [WriteAt] and [Truncate]
    fail with the not-writable error and write 0 bytes, and they never
    reach the file: a sequence of calls leaves the file in the state the
    same sequence without its writes leaves it in. *)
Theorem erroringWriter_never_writes cs t :
  let run := filesystem.performAll (filesystem.WithErroringWrite base) in
  (run cs t).2 = (run (List.filter (λ c, negb (filesystem.writes c)) cs) t).2
  ∧ Forall2
      (λ c res,
         filesystem.writes c = true →
         res = (0, Some filesystem.errNotWritable))
      cs (run cs t).1.
Proof.
  cbv zeta. revert t. induction cs as [|c cs IH]; intros t.
  - simpl. split; [done|constructor].
  - rewrite performAll_cons. cbn [List.filter].
    destruct (filesystem.writes c) eqn:Hw; cbn [negb].
    + rewrite perform_erroringWriter by done.
      destruct (IH t) as [IH1 IH2].
      destruct (filesystem.performAll _ cs t) as [rs t2].
      simpl in *. split; [done|]. by constructor.
    + rewrite performAll_cons.
      destruct (filesystem.perform _ c t) as [r t1].
      destruct (IH t1) as [IH1 IH2].
      destruct (filesystem.performAll _ cs t1) as [rs t2].
      destruct (filesystem.performAll _ (List.filter _ cs) t1) as [rs' t'].
      simpl in *. split; [done|]. constructor; [congruence|done].
Qed.

End erroringWriter_facts.

Section readonly_stream_facts.
Context {S : Type} (w : filesystem.World S).

Lemma perform_readonly_changes c fs s journal :
  let after :=
    (filesystem.perform
       (filesystem.WithErroringWrite
          (filesystem.streamReadOnly (filesystem.journaled w)))
       c (fs, (s, journal))).2 in
  ∃ evs, after.2.2 = journal ++ evs ∧ filesystem.changesOf evs = [].
Proof.
  destruct fs as [h [|] pos]; destruct c; cbv zeta;
    unfold filesystem.WithErroringWrite, filesystem.streamReadOnly;
    stream_cases w; journal_done.
Qed.

(** X12. A stream wrapped by [WithErroringWrite] never changes the file
    system: whatever calls are made on it, none reaches [Write] or
    [Truncate] of the file. *)
Theorem readonly_stream_changes_nothing cs fs s journal :
  let after :=
    (filesystem.performAll
       (filesystem.WithErroringWrite
          (filesystem.streamReadOnly (filesystem.journaled w)))
       cs (fs, (s, journal))).2 in
  ∃ evs, after.2.2 = journal ++ evs ∧ filesystem.changesOf evs = [].
Proof.
  cbv zeta. revert fs s journal.
  induction cs as [|c cs IH]; intros fs s journal.
  - exists []. by rewrite app_nil_r.
  - rewrite performAll_cons.
    pose proof (perform_readonly_changes c fs s journal) as Hstep.
    cbv zeta in Hstep.
    destruct (filesystem.perform _ c (fs, (s, journal)))
      as [r [fs1 [s1 journal1]]].
    destruct Hstep as (evs1 & Hj1 & Hc1). simpl in Hj1.
    specialize (IH fs1 s1 journal1).
    destruct (filesystem.performAll _ cs (fs1, (s1, journal1)))
      as [rs [fs2 [s2 journal2]]].
    destruct IH as (evs2 & Hj2 & Hc2). simpl in *.
    exists (evs1 ++ evs2). subst. split; [by rewrite app_assoc|].
    by rewrite changesOf_app, Hc1, Hc2.
Qed.

End readonly_stream_facts.

Section filesystem_more.
Context {lib : PathLib} {S : Type} (w : filesystem.World S).

Lemma copy_length {A : Type} (p data : list A) :
  length (copy p data) = length p.
Proof.
  unfold copy. rewrite length_app, length_take, length_drop. lia.
Qed.

(** X13. Counts and errors of the stream's reads and writes.  [Read] and
    [ReadAt] keep the length of the caller's buffer.  A failing [Read]
    returns 0 and leaves buffer and stream alone; a successful [Read]
    returns 0 only for an empty buffer and moves the head by the count
    returned, modulo 2^32.  [ReadAt] returns fewer bytes than the buffer
    holds only next to an error, and never moves the head.  [Write] and
    [WriteAt] return the length of the data on success and 0 next to an
    error; [Write] then moves the head by that length, modulo 2^32, and
    [WriteAt] never moves it. *)
Theorem counts_and_errors fs p off s :
  match (filesystem.fileStream_Read w fs p s).1 with
  | (fs', p', n, err) =>
      length p' = length p
      ∧ 0 ≤ n
      ∧ (err ≠ None → n = 0 ∧ p' = p ∧ fs' = fs)
      ∧ (err = None → n = 0 → p = [])
      ∧ (err = None →
         fs' = {| filesystem.f := filesystem.f fs;
                  filesystem.closed := filesystem.closed fs;
                  filesystem.head := (filesystem.head fs + n) `mod` 2 ^ 32 |})
  end
  ∧ match (filesystem.fileStream_ReadAt w fs p off s).1 with
    | (fs', p', n, err) =>
        length p' = length p ∧ 0 ≤ n ∧ fs' = fs ∧ (n < len p → err ≠ None)
    end
  ∧ match (filesystem.fileStream_Write w fs p s).1 with
    | (fs', n, Some _) => n = 0 ∧ fs' = fs
    | (fs', n, None) =>
        n = len p
        ∧ fs' = {| filesystem.f := filesystem.f fs;
                   filesystem.closed := filesystem.closed fs;
                   filesystem.head := (filesystem.head fs + n) `mod` 2 ^ 32 |}
    end
  ∧ match (filesystem.fileStream_WriteAt w fs p off s).1 with
    | (fs', n, Some _) => n = 0 ∧ fs' = fs
    | (fs', n, None) => n = len p ∧ fs' = fs
    end.
Proof.
  assert (∀ a b, uint32 (a + uint32 b) = (a + b) `mod` 2 ^ 32) as Hadd.
  { intros a b. unfold uint32. by rewrite Zplus_mod_idemp_r. }
  split; [|split; [|split]].
  - unfold filesystem.fileStream_Read. destruct (filesystem.closed fs); stsimpl.
    { repeat split; done. }
    world_case w; stsimpl; [repeat split; done|].
    case_decide as Hshort; stsimpl; [repeat split; done|].
    rewrite copy_length, Hadd. unfold len in *.
    repeat split; try done; try lia.
    intros _ Hn. destruct p; [done|]. simpl in *. lia.
  - unfold filesystem.fileStream_ReadAt. destruct (filesystem.closed fs);
      stsimpl.
    { unfold len. repeat split; try done; lia. }
    world_case w; stsimpl.
    { unfold len. repeat split; try done; lia. }
    case_decide; stsimpl; rewrite copy_length; unfold len in *;
      repeat split; try done; lia.
  - unfold filesystem.fileStream_Write. destruct (filesystem.closed fs); stsimpl.
    { done. }
    world_case w; stsimpl; [done|]. by rewrite Hadd.
  - unfold filesystem.fileStream_WriteAt. destruct (filesystem.closed fs);
      stsimpl.
    { done. }
    world_case w; stsimpl; done.
Qed.

(** X14. [Mkdir], [Rename], [Unlink], [Rmdir], [SymLink] and [Truncate]
    make at most one call that changes the file system, the one of
    their kind, and when they return no error they have made it. *)
Theorem mutations_make_one_change path other length :
  let one (what : string) (r : option error) (evs : list filesystem.event) :=
    (∃ h, filesystem.changesOf evs = [(what, h)])
    ∨ filesystem.changesOf evs = [] ∧ r ≠ None in
  filesystem.journals (filesystem.Mkdir (filesystem.journaled w) path)
    (one "NewDir")
  ∧ filesystem.journals (filesystem.Rename (filesystem.journaled w) path other)
      (one "MoveTo")
  ∧ filesystem.journals (filesystem.Unlink (filesystem.journaled w) path)
      (one "Remove")
  ∧ filesystem.journals (filesystem.Rmdir (filesystem.journaled w) path)
      (one "Remove")
  ∧ filesystem.journals (filesystem.SymLink (filesystem.journaled w) path other)
      (one "NewSymLink")
  ∧ filesystem.journals
      (filesystem.Truncate (filesystem.journaled w) path length)
      (one "Truncate").
Proof.
  cbv zeta. repeat apply conj; intros s journal.
  - unfold filesystem.Mkdir. world_cases w; eexists;
      (split; [ first [ symmetry; apply app_nil_r
                      | rewrite <- ?app_assoc; reflexivity ] |]);
      simpl; first [ by right | left; by eexists ].
  - unfold filesystem.Rename. world_cases w; eexists;
      (split; [ first [ symmetry; apply app_nil_r
                      | rewrite <- ?app_assoc; reflexivity ] |]);
      simpl; first [ by right | left; by eexists ].
  - unfold filesystem.Unlink. world_cases w; eexists;
      (split; [ first [ symmetry; apply app_nil_r
                      | rewrite <- ?app_assoc; reflexivity ] |]);
      simpl; first [ by right | left; by eexists ].
  - unfold filesystem.Rmdir. world_cases w; eexists;
      (split; [ first [ symmetry; apply app_nil_r
                      | rewrite <- ?app_assoc; reflexivity ] |]);
      simpl; first [ by right | left; by eexists ].
  - unfold filesystem.SymLink. world_cases w; eexists;
      (split; [ first [ symmetry; apply app_nil_r
                      | rewrite <- ?app_assoc; reflexivity ] |]);
      simpl; first [ by right | left; by eexists ].
  - unfold filesystem.Truncate. world_cases w; eexists;
      (split; [ first [ symmetry; apply app_nil_r
                      | rewrite <- ?app_assoc; reflexivity ] |]);
      simpl; first [ by right | left; by eexists ].
Qed.

End filesystem_more.

Section filesystem_sessions.
Context {lib : PathLib} {S : Type} (w : filesystem.World S).

Ltac bag_solve :=
  simpl; repeat (case_decide; simplify_eq; simpl); try done.

Lemma perform_kept c fs s journal :
  let after :=
    (filesystem.perform (filesystem.streamFile (filesystem.journaled w)) c
       (fs, (s, journal))).2 in
  ∃ evs,
    after.2.2 = journal ++ evs
    ∧ (∀ bag,
         filesystem.kept evs
           ((if filesystem.closed fs then []
             else [(filesystem.FileHandle, filesystem.f fs)]) ++ bag)
         = Some ((if filesystem.closed after.1 then []
                  else [(filesystem.FileHandle, filesystem.f fs)]) ++ bag))
    ∧ filesystem.f after.1 = filesystem.f fs
    ∧ (filesystem.closed after.1 = true
       ↔ filesystem.closed fs = true ∨ c = filesystem.CallClose).
Proof.
  destruct fs as [h [|] pos]; destruct c; stream_cases w;
    eexists;
    (split; [ first [ symmetry; apply app_nil_r
                    | rewrite <- ?app_assoc; reflexivity ] |]);
    (split; [intros bag; simpl; rewrite ?decide_True by done; done|]);
    (split; [done|]); split; try (by left); try (by right); try done;
    intros [|]; done.
Qed.

Lemma performAll_kept cs fs s journal :
  let after :=
    (filesystem.performAll (filesystem.streamFile (filesystem.journaled w))
       cs (fs, (s, journal))).2 in
  ∃ evs,
    after.2.2 = journal ++ evs
    ∧ (∀ bag,
         filesystem.kept evs
           ((if filesystem.closed fs then []
             else [(filesystem.FileHandle, filesystem.f fs)]) ++ bag)
         = Some ((if filesystem.closed after.1 then []
                  else [(filesystem.FileHandle, filesystem.f fs)]) ++ bag))
    ∧ filesystem.f after.1 = filesystem.f fs
    ∧ (filesystem.closed after.1 = true
       ↔ filesystem.closed fs = true ∨ filesystem.CallClose ∈ cs).
Proof.
  revert fs s journal. induction cs as [|c cs IH]; intros fs s journal.
  - simpl. exists []. rewrite app_nil_r. repeat split; try done.
    + by left.
    + intros [|Hin]; [done|]. by apply elem_of_nil in Hin.
  - pose proof (perform_kept c fs s journal) as Hstep. cbv zeta in Hstep.
    cbv zeta. rewrite performAll_cons.
    destruct (filesystem.perform _ c (fs, (s, journal)))
      as [r [fs1 [s1 journal1]]].
    destruct Hstep as (evs1 & Hj1 & Hk1 & Hf1 & Hc1). simpl in *.
    specialize (IH fs1 s1 journal1). cbv zeta in IH.
    destruct (filesystem.performAll _ cs (fs1, (s1, journal1)))
      as [rs [fs2 [s2 journal2]]].
    destruct IH as (evs2 & Hj2 & Hk2 & Hf2 & Hc2). simpl in *.
    exists (evs1 ++ evs2). subst journal1 journal2.
    split; [by rewrite app_assoc|].
    split; [|split; [congruence|]].
    + intros bag. rewrite kept_app, Hk1. simpl. rewrite <- Hf1. apply Hk2.
    + rewrite Hc2, Hc1, elem_of_cons. intuition congruence.
Qed.

(** X15. A file stays held until its stream is closed.  After [OpenRead]
    or [OpenWrite] returned a stream and any sequence of calls was made on
    it, everything obtained since before the open has been released
    except, as long as the sequence has no [Close], the file of the
    stream; the stream is closed exactly when the sequence has a [Close].
    When the open fails, nothing stays held. *)
Theorem file_is_held_until_closed path create exclusive cs s journal :
  let session
        (opened : (option filesystem.fileStream * option error)
                  * (S * list filesystem.event)) :=
    match opened.1.1 with
    | Some stream =>
        let after :=
          (filesystem.performAll
             (filesystem.streamFile (filesystem.journaled w)) cs
             (stream, opened.2)).2 in
        ∃ evs,
          after.2.2 = journal ++ evs
          ∧ filesystem.kept evs []
            = Some (if filesystem.closed after.1 then []
                    else [(filesystem.FileHandle, filesystem.f stream)])
          ∧ (filesystem.closed after.1 = true ↔ filesystem.CallClose ∈ cs)
    | None =>
        ∃ evs, opened.2.2 = journal ++ evs ∧ filesystem.kept evs [] = Some []
    end in
  session (filesystem.OpenRead (filesystem.journaled w) path (s, journal))
  ∧ session (filesystem.OpenWrite (filesystem.journaled w) path create
               exclusive (s, journal)).
Proof.
  assert (∀ h s1 evs0,
            filesystem.kept evs0 [] = Some [(filesystem.FileHandle, h)] →
            let stream := {| filesystem.f := h; filesystem.closed := false;
                             filesystem.head := 0 |} in
            let after :=
              (filesystem.performAll
                 (filesystem.streamFile (filesystem.journaled w)) cs
                 (stream, (s1, journal ++ evs0))).2 in
            ∃ evs,
              after.2.2 = journal ++ evs
              ∧ filesystem.kept evs []
                = Some (if filesystem.closed after.1 then []
                        else [(filesystem.FileHandle, h)])
              ∧ (filesystem.closed after.1 = true
                 ↔ filesystem.CallClose ∈ cs)) as Huse.
  { intros h s1 evs0 Hopen. cbv zeta.
    pose proof (performAll_kept cs
                  {| filesystem.f := h; filesystem.closed := false;
                     filesystem.head := 0 |} s1 (journal ++ evs0)) as Hrun.
    cbv zeta in Hrun.
    destruct (filesystem.performAll _ cs _) as [rs [fs2 [s2 journal2]]].
    destruct Hrun as (evs & Hj & Hk & Hf & Hc). simpl in *.
    exists (evs0 ++ evs). split; [by rewrite app_assoc|].
    split.
    - rewrite kept_app, Hopen. simpl. specialize (Hk []).
      by rewrite !app_nil_r in Hk.
    - rewrite Hc. intuition congruence. }
  cbv zeta in Huse. cbv zeta. split.
  - unfold filesystem.OpenRead. world_cases w;
      first [ apply Huse; bag_solve
            | rewrite <- ?app_assoc; apply Huse; bag_solve
            | eexists;
              (split; [ first [ symmetry; apply app_nil_r
                              | rewrite <- ?app_assoc; reflexivity ] |]);
              bag_solve ].
  - unfold filesystem.OpenWrite, filesystem.OpenWrite_file.
    destruct create, exclusive; world_cases w;
      first [ apply Huse; bag_solve
            | rewrite <- ?app_assoc; apply Huse; bag_solve
            | eexists;
              (split; [ first [ symmetry; apply app_nil_r
                              | rewrite <- ?app_assoc; reflexivity ] |]);
              bag_solve ].
Qed.

End filesystem_sessions.

(** * The RPC proxies: panics, response shapes and composition *)

Section proxy_shape.
Context {conv : IDConv} {S : Type}.

(** X16. The shape of the responses of the server-side adapter
    [proxyMetadataCacheAsTwirp].  [NewEntry] and [ReadEntry] return
    either a result or an error, never both and never neither; a
    [ReadEntry] result carries either an entry (with empty owner and
    owner error) or a non-empty owner (with no entry).  [UpdateEntry] and
    [DeleteEntry] always return a result, also next to an error; when
    its owner is non-empty the error is nil, and when it is empty the
    owner error text is empty. *)
Theorem adapter_response_shape (impl : apis.MetadataCache S) s :
  (∀ request result err s',
     twirp.NewEntry (rpc.proxyMetadataCacheAsTwirp impl) request s
       = Returns ((result, err), s') →
     (result = None ↔ err ≠ None))
  ∧ (∀ request result err s',
     twirp.ReadEntry (rpc.proxyMetadataCacheAsTwirp impl) request s
       = Returns ((result, err), s') →
     (result = None ↔ err ≠ None)
     ∧ ∀ r, result = Some r →
         (twirp.ReadEntry_Owner r = "" ↔ twirp.ReadEntry_Entry r ≠ None)
         ∧ (twirp.ReadEntry_Owner r = "" → twirp.ReadEntry_OwnerErr r = ""))
  ∧ (∀ request result err s',
     twirp.UpdateEntry (rpc.proxyMetadataCacheAsTwirp impl) request s
       = Returns ((result, err), s') →
     ∃ r, result = Some r
          ∧ (twirp.UpdateEntry_Owner r ≠ "" → err = None)
          ∧ (twirp.UpdateEntry_Owner r = "" → twirp.UpdateEntry_OwnerErr r = ""))
  ∧ (∀ request result err s',
     twirp.DeleteEntry (rpc.proxyMetadataCacheAsTwirp impl) request s
       = Returns ((result, err), s') →
     ∃ r, result = Some r
          ∧ (twirp.DeleteEntry_Owner r ≠ "" → err = None)
          ∧ (twirp.DeleteEntry_Owner r = "" → twirp.DeleteEntry_OwnerErr r = "")).
Proof.
  split; [|split; [|split]].
  - intros request result err s'. simpl.
    unfold rpc.proxyMetadataCacheAsTwirp_NewEntry. msimpl.
    destruct (apis.NewEntry impl s) as [[[chunk [e|]] s1]|];
      intros [= <- <- <-] || discriminate; split; congruence.
  - intros request result err s'. simpl.
    unfold rpc.proxyMetadataCacheAsTwirp_ReadEntry. msimpl.
    destruct (apis.ReadEntry impl _ s) as [[[[entry owner] [e|]] s1]|];
      [destruct (decide (owner = ""))| |]; simpl;
      intros [= <- <- <-] || discriminate;
      (split; [split; congruence|]); intros r [= <-]; simpl;
      intuition congruence.
  - intros request result err s'. simpl.
    unfold rpc.proxyMetadataCacheAsTwirp_UpdateEntry. msimpl.
    destruct (twirp.UpdateEntry_PreviousEntry request); [|discriminate].
    destruct (twirp.UpdateEntry_NewEntry request); [|discriminate]. simpl.
    destruct (apis.UpdateEntry impl _ _ _ s) as [[[owner err1] s1]|];
      [|discriminate].
    destruct (decide (owner ≠ "")) as [Hne|He]; [destruct err1|]; simpl;
      intros [= <- <- <-] || discriminate;
      eexists; (split; [reflexivity|]); simpl; intuition congruence.
  - intros request result err s'. simpl.
    unfold rpc.proxyMetadataCacheAsTwirp_DeleteEntry. msimpl.
    destruct (twirp.DeleteEntry_PreviousEntry request); [|discriminate]. simpl.
    destruct (apis.DeleteEntry impl _ _ s) as [[[owner err1] s1]|];
      [|discriminate].
    destruct (decide (owner ≠ "")) as [Hne|He]; [destruct err1|]; simpl;
      intros [= <- <- <-] || discriminate;
      eexists; (split; [reflexivity|]); simpl; intuition congruence.
Qed.

End proxy_shape.

Section proxy_panics.
Context {conv : IDConv} {S : Type}.

(** X17. When the server-side adapter [proxyMetadataCacheAsTwirp] panics.
    [NewEntry] and [ReadEntry] panic only when the implementation does.
    [UpdateEntry] and [DeleteEntry] panic exactly when the request lacks
    one of its entries, when the implementation panics, or when the
    implementation names an owner without an error (the adapter then
    calls [Error()] on a nil error). *)
Theorem adapter_panics_exactly (impl : apis.MetadataCache S)
    (create : twirp.MetadataCache_NewEntry)
    (read : twirp.MetadataCache_ReadEntry)
    (update : twirp.MetadataCache_UpdateEntry)
    (delete : twirp.MetadataCache_DeleteEntry) s :
  (twirp.NewEntry (rpc.proxyMetadataCacheAsTwirp impl) create s = Panics
   ↔ apis.NewEntry impl s = Panics)
  ∧ (twirp.ReadEntry (rpc.proxyMetadataCacheAsTwirp impl) read s = Panics
     ↔ apis.ReadEntry impl (twirp.ReadEntry_Chunk read) s = Panics)
  ∧ (twirp.UpdateEntry (rpc.proxyMetadataCacheAsTwirp impl) update s = Panics
     ↔ twirp.UpdateEntry_PreviousEntry update = None
       ∨ twirp.UpdateEntry_NewEntry update = None
       ∨ ∃ previous new,
           twirp.UpdateEntry_PreviousEntry update = Some previous
           ∧ twirp.UpdateEntry_NewEntry update = Some new
           ∧ (apis.UpdateEntry impl (twirp.UpdateEntry_Chunk update)
                (rpc.entryFromWire previous) (rpc.entryFromWire new) s = Panics
              ∨ ∃ owner s',
                  apis.UpdateEntry impl (twirp.UpdateEntry_Chunk update)
                    (rpc.entryFromWire previous) (rpc.entryFromWire new) s
                    = Returns ((owner, None), s')
                  ∧ owner ≠ ""))
  ∧ (twirp.DeleteEntry (rpc.proxyMetadataCacheAsTwirp impl) delete s = Panics
     ↔ twirp.DeleteEntry_PreviousEntry delete = None
       ∨ ∃ previous,
           twirp.DeleteEntry_PreviousEntry delete = Some previous
           ∧ (apis.DeleteEntry impl (twirp.DeleteEntry_Chunk delete)
                (rpc.entryFromWire previous) s = Panics
              ∨ ∃ owner s',
                  apis.DeleteEntry impl (twirp.DeleteEntry_Chunk delete)
                    (rpc.entryFromWire previous) s
                    = Returns ((owner, None), s')
                  ∧ owner ≠ "")).
Proof.
  split; [|split; [|split]].
  - simpl. unfold rpc.proxyMetadataCacheAsTwirp_NewEntry. msimpl.
    destruct (apis.NewEntry impl s) as [[[chunk [e|]] s1]|]; simpl;
      split; congruence.
  - simpl. unfold rpc.proxyMetadataCacheAsTwirp_ReadEntry. msimpl.
    destruct (apis.ReadEntry impl _ s) as [[[[entry owner] [e|]] s1]|];
      [destruct (decide (owner = ""))| |]; simpl; split; congruence.
  - simpl. unfold rpc.proxyMetadataCacheAsTwirp_UpdateEntry. msimpl.
    destruct (twirp.UpdateEntry_PreviousEntry update) as [pw|];
      [|split; [by left | done]].
    destruct (twirp.UpdateEntry_NewEntry update) as [nw|];
      [|split; [by right; left | done]]. simpl.
    destruct (apis.UpdateEntry impl _ _ _ s) as [[[owner err] s1]|] eqn:Hcall.
    + destruct (decide (owner ≠ "")) as [Hne|He]; [destruct err as [e|]|];
        simpl.
      * split; [discriminate|].
        intros [H|[H|(p & n & Hp & Hn & H)]]; [discriminate..|].
        injection Hp as <-. injection Hn as <-. rewrite Hcall in H.
        destruct H as [H|(o & s' & H & Ho)]; [discriminate|].
        first [discriminate H | injection H as <- _ _; by destruct He].
      * split; [|done]. intros _. right; right. exists pw, nw.
        split; [done|]. split; [done|]. right. by exists owner, s1.
      * split; [discriminate|].
        intros [H|[H|(p & n & Hp & Hn & H)]]; [discriminate..|].
        injection Hp as <-. injection Hn as <-. rewrite Hcall in H.
        destruct H as [H|(o & s' & H & Ho)]; [discriminate|].
        first [discriminate H | injection H as <- _ _; by destruct He].
    + split; [|done]. intros _. right; right. exists pw, nw.
      split; [done|]. split; [done|]. by left.
  - simpl. unfold rpc.proxyMetadataCacheAsTwirp_DeleteEntry. msimpl.
    destruct (twirp.DeleteEntry_PreviousEntry delete) as [pw|];
      [|split; [by left | done]]. simpl.
    destruct (apis.DeleteEntry impl _ _ s) as [[[owner err] s1]|] eqn:Hcall.
    + destruct (decide (owner ≠ "")) as [Hne|He]; [destruct err as [e|]|];
        simpl.
      * split; [discriminate|].
        intros [H|(p & Hp & H)]; [discriminate|].
        injection Hp as <-. rewrite Hcall in H.
        destruct H as [H|(o & s' & H & Ho)]; [discriminate|].
        first [discriminate H | injection H as <- _ _; by destruct He].
      * split; [|done]. intros _. right. exists pw.
        split; [done|]. right. by exists owner, s1.
      * split; [discriminate|].
        intros [H|(p & Hp & H)]; [discriminate|].
        injection Hp as <-. rewrite Hcall in H.
        destruct H as [H|(o & s' & H & Ho)]; [discriminate|].
        first [discriminate H | injection H as <- _ _; by destruct He].
    + split; [|done]. intros _. right. exists pw. split; [done|]. by left.
Qed.

(** X18. What the client-side proxy [proxyTwirpAsMetadataCache] returns,
    whatever the server behind it does.  [NewEntry] returns chunk 0 next
    to an error.  [ReadEntry] never names an owner without an error and
    never returns an entry next to an error.  In [ReadEntry],
    [UpdateEntry] and [DeleteEntry] a non-empty owner always comes with an
    error built by [errors.New]. *)
Theorem proxy_results_keep_the_contract (server : twirp.MetadataCache S)
    chunk prev new s :
  (∀ c err s',
     apis.NewEntry (rpc.proxyTwirpAsMetadataCache server) s
       = Returns ((c, err), s') →
     err ≠ None → c = 0)
  ∧ (∀ entry owner err s',
     apis.ReadEntry (rpc.proxyTwirpAsMetadataCache server) chunk s
       = Returns ((entry, owner, err), s') →
     (err = None → owner = "")
     ∧ (err ≠ None → entry = apis.zeroEntry)
     ∧ (owner ≠ "" → ∃ text, err = Some (errors_New text)))
  ∧ (∀ owner err s',
     apis.UpdateEntry (rpc.proxyTwirpAsMetadataCache server) chunk prev new s
       = Returns ((owner, err), s') →
     owner ≠ "" → ∃ text, err = Some (errors_New text))
  ∧ (∀ owner err s',
     apis.DeleteEntry (rpc.proxyTwirpAsMetadataCache server) chunk prev s
       = Returns ((owner, err), s') →
     owner ≠ "" → ∃ text, err = Some (errors_New text)).
Proof.
  split; [|split; [|split]].
  - intros c err s'. simpl. unfold rpc.proxyTwirpAsMetadataCache_NewEntry.
    msimpl.
    destruct (twirp.NewEntry server _ s) as [[[[r|] [e|]] s1]|]; simpl;
      intros [= <- <- <-] || discriminate; congruence.
  - intros entry owner err s'. simpl.
    unfold rpc.proxyTwirpAsMetadataCache_ReadEntry. msimpl.
    destruct (twirp.ReadEntry server _ s) as [[[[r|] [e|]] s1]|]; simpl;
      try discriminate.
    + intros [= <- <- <-]. intuition congruence.
    + destruct (decide (twirp.ReadEntry_Owner r ≠ "")) as [Hne|He]; simpl.
      * intros [= <- <- <-]. split; [discriminate|]. split; [done|].
        intros _. by eexists.
      * destruct (twirp.ReadEntry_Entry r); simpl; [|discriminate].
        intros [= <- <- <-]. intuition congruence.
    + intros [= <- <- <-]. intuition congruence.
  - intros owner err s'. simpl.
    unfold rpc.proxyTwirpAsMetadataCache_UpdateEntry. msimpl.
    destruct (twirp.UpdateEntry server _ s) as [[[[r|] err1] s1]|]; simpl;
      try discriminate.
    destruct (decide (twirp.UpdateEntry_Owner r ≠ "")); simpl;
      intros [= <- <- <-]; [by eexists | done].
  - intros owner err s'. simpl.
    unfold rpc.proxyTwirpAsMetadataCache_DeleteEntry. msimpl.
    destruct (twirp.DeleteEntry server _ s) as [[[[r|] err1] s1]|]; simpl;
      try discriminate.
    destruct (decide (twirp.DeleteEntry_Owner r ≠ "")); simpl;
      intros [= <- <- <-]; [by eexists | done].
Qed.

(** X19. When the client-side proxy [proxyTwirpAsMetadataCache] panics.
    [NewEntry] panics exactly when the server panics or returns neither
    a result nor an error.  [ReadEntry] panics exactly when the server
    panics, returns neither a result nor an error, or returns without
    error a result that has neither an owner nor an entry.  [UpdateEntry]
    and [DeleteEntry] panic exactly when the server panics or returns no
    result, with or without an error. *)
Theorem proxy_panics_exactly (server : twirp.MetadataCache S)
    chunk prev new s :
  (apis.NewEntry (rpc.proxyTwirpAsMetadataCache server) s = Panics
   ↔ twirp.NewEntry server twirp.mkNewEntry s = Panics
     ∨ ∃ s', twirp.NewEntry server twirp.mkNewEntry s
             = Returns ((None, None), s'))
  ∧ (apis.ReadEntry (rpc.proxyTwirpAsMetadataCache server) chunk s = Panics
     ↔ twirp.ReadEntry server {| twirp.ReadEntry_Chunk := chunk |} s = Panics
       ∨ (∃ s', twirp.ReadEntry server {| twirp.ReadEntry_Chunk := chunk |} s
                = Returns ((None, None), s'))
       ∨ ∃ r s', twirp.ReadEntry server {| twirp.ReadEntry_Chunk := chunk |} s
                 = Returns ((Some r, None), s')
               ∧ twirp.ReadEntry_Owner r = ""
               ∧ twirp.ReadEntry_Entry r = None)
  ∧ (apis.UpdateEntry (rpc.proxyTwirpAsMetadataCache server) chunk prev new s
       = Panics
     ↔ twirp.UpdateEntry server
         {| twirp.UpdateEntry_Chunk := chunk;
            twirp.UpdateEntry_PreviousEntry := Some (rpc.entryToWire prev);
            twirp.UpdateEntry_NewEntry := Some (rpc.entryToWire new) |} s
         = Panics
       ∨ ∃ err s',
           twirp.UpdateEntry server
             {| twirp.UpdateEntry_Chunk := chunk;
                twirp.UpdateEntry_PreviousEntry := Some (rpc.entryToWire prev);
                twirp.UpdateEntry_NewEntry := Some (rpc.entryToWire new) |} s
           = Returns ((None, err), s'))
  ∧ (apis.DeleteEntry (rpc.proxyTwirpAsMetadataCache server) chunk prev s
       = Panics
     ↔ twirp.DeleteEntry server
         {| twirp.DeleteEntry_Chunk := chunk;
            twirp.DeleteEntry_PreviousEntry := Some (rpc.entryToWire prev) |} s
         = Panics
       ∨ ∃ err s',
           twirp.DeleteEntry server
             {| twirp.DeleteEntry_Chunk := chunk;
                twirp.DeleteEntry_PreviousEntry :=
                  Some (rpc.entryToWire prev) |} s
           = Returns ((None, err), s')).
Proof.
  split; [|split; [|split]].
  - simpl. unfold rpc.proxyTwirpAsMetadataCache_NewEntry. msimpl.
    destruct (twirp.NewEntry server _ s) as [[[[r|] [e|]] s1]|]; simpl;
      (split; [try discriminate | try done]).
    + intros [|[s' ?]]; discriminate.
    + intros [|[s' ?]]; discriminate.
    + intros [|[s' ?]]; discriminate.
    + intros _. right. by exists s1.
    + intros _. by left.
  - simpl. unfold rpc.proxyTwirpAsMetadataCache_ReadEntry. msimpl.
    destruct (twirp.ReadEntry server _ s) as [[[[r|] [e|]] s1]|]; simpl.
    + split; [discriminate|].
      intros [|[[s' ?]|(r' & s' & ? & _)]]; discriminate.
    + destruct (decide (twirp.ReadEntry_Owner r ≠ "")) as [Hne|He]; simpl.
      * split; [discriminate|].
        intros [|[[s' ?]|(r' & s' & [= <- _] & Ho & _)]];
          try discriminate. done.
      * destruct (twirp.ReadEntry_Entry r) as [entry|] eqn:Hentry; simpl.
        -- split; [discriminate|].
           intros [|[[s' ?]|(r' & s' & [= <- _] & _ & Hn)]];
             try discriminate. congruence.
        -- split; [|done]. intros _. right; right. exists r, s1.
           split; [done|]. split; [|done]. by apply dec_stable in He.
    + split; [discriminate|].
      intros [|[[s' ?]|(r' & s' & ? & _)]]; discriminate.
    + split; [|done]. intros _. right; left. by exists s1.
    + split; [|done]. intros _. by left.
  - simpl. unfold rpc.proxyTwirpAsMetadataCache_UpdateEntry. msimpl.
    destruct (twirp.UpdateEntry server _ s) as [[[[r|] err] s1]|]; simpl.
    + destruct (decide (twirp.UpdateEntry_Owner r ≠ "")); simpl;
        (split; [discriminate|]); intros [|(e & s' & ?)]; discriminate.
    + split; [|done]. intros _. right. by exists err, s1.
    + split; [|done]. intros _. by left.
  - simpl. unfold rpc.proxyTwirpAsMetadataCache_DeleteEntry. msimpl.
    destruct (twirp.DeleteEntry server _ s) as [[[[r|] err] s1]|]; simpl.
    + destruct (decide (twirp.DeleteEntry_Owner r ≠ "")); simpl;
        (split; [discriminate|]); intros [|(e & s' & ?)]; discriminate.
    + split; [|done]. intros _. right. by exists err, s1.
    + split; [|done]. intros _. by left.
Qed.

End proxy_panics.

Section proxy_composition.
Context {conv : IDConv} {S : Type}.

(** The client-side proxy directly over the server-side adapter, method
    by method, in terms of the implementation's outcome. *)
Lemma roundTrip_ReadEntry (impl : apis.MetadataCache S) chunk s :
  apis.ReadEntry (roundTrip impl) chunk s
  = match apis.ReadEntry impl chunk s with
    | Returns ((entry, owner, Some e), s') =>
        if decide (owner = "") then Returns ((apis.zeroEntry, "", Some e), s')
        else Returns ((apis.zeroEntry, owner, Some (errors_New (Error e))), s')
    | Returns ((entry, owner, None), s') =>
        Returns ((viaWire entry, "", None), s')
    | Panics => Panics
    end.
Proof.
  simpl. unfold rpc.proxyTwirpAsMetadataCache_ReadEntry. msimpl.
  unfold rpc.proxyMetadataCacheAsTwirp_ReadEntry. msimpl.
  destruct (apis.ReadEntry impl chunk s) as [[[[entry owner] [e|]] s']|];
    [destruct (decide (owner = "")) as [->|Hne]| |]; simpl; try done.
  by rewrite decide_True.
Qed.

Lemma roundTrip_UpdateEntry (impl : apis.MetadataCache S) chunk prev new s :
  apis.UpdateEntry (roundTrip impl) chunk prev new s
  = match apis.UpdateEntry impl chunk (viaWire prev) (viaWire new) s with
    | Returns ((owner, err), s') =>
        if decide (owner ≠ "") then
          match err with
          | Some e => Returns ((owner, Some (errors_New (Error e))), s')
          | None => Panics
          end
        else Returns (("", err), s')
    | Panics => Panics
    end.
Proof.
  simpl. unfold rpc.proxyTwirpAsMetadataCache_UpdateEntry. msimpl.
  unfold rpc.proxyMetadataCacheAsTwirp_UpdateEntry. msimpl.
  fold (viaWire prev) (viaWire new).
  destruct (apis.UpdateEntry impl chunk _ _ s) as [[[owner [e|]] s']|];
    try done; destruct (decide (owner ≠ "")) as [Hne|He]; simpl; try done.
  - by rewrite decide_True.
  - by rewrite decide_False.
  - by rewrite decide_False.
Qed.

Lemma roundTrip_DeleteEntry (impl : apis.MetadataCache S) chunk prev s :
  apis.DeleteEntry (roundTrip impl) chunk prev s
  = match apis.DeleteEntry impl chunk (viaWire prev) s with
    | Returns ((owner, err), s') =>
        if decide (owner ≠ "") then
          match err with
          | Some e => Returns ((owner, Some (errors_New (Error e))), s')
          | None => Panics
          end
        else Returns (("", err), s')
    | Panics => Panics
    end.
Proof.
  simpl. unfold rpc.proxyTwirpAsMetadataCache_DeleteEntry. msimpl.
  unfold rpc.proxyMetadataCacheAsTwirp_DeleteEntry. msimpl.
  fold (viaWire prev).
  destruct (apis.DeleteEntry impl chunk _ s) as [[[owner [e|]] s']|];
    try done; destruct (decide (owner ≠ "")) as [Hne|He]; simpl; try done.
  - by rewrite decide_True.
  - rewrite decide_False by done. apply dec_stable in He. by rewrite He.
  - rewrite decide_False by done. apply dec_stable in He. by rewrite He.
Qed.

(** X20. The two proxies fit together: the client-side proxy never trips
    over what the server-side adapter sends.  Through both, [NewEntry] and
    [ReadEntry] panic only when the implementation panics; [UpdateEntry]
    and [DeleteEntry] panic exactly when the implementation panics or
    names an owner without an error. *)
Theorem roundTrip_panics_exactly (impl : apis.MetadataCache S)
    chunk prev new s :
  (apis.NewEntry (roundTrip impl) s = Panics ↔ apis.NewEntry impl s = Panics)
  ∧ (apis.ReadEntry (roundTrip impl) chunk s = Panics
     ↔ apis.ReadEntry impl chunk s = Panics)
  ∧ (apis.UpdateEntry (roundTrip impl) chunk prev new s = Panics
     ↔ apis.UpdateEntry impl chunk (viaWire prev) (viaWire new) s = Panics
       ∨ ∃ owner s',
           apis.UpdateEntry impl chunk (viaWire prev) (viaWire new) s
             = Returns ((owner, None), s')
           ∧ owner ≠ "")
  ∧ (apis.DeleteEntry (roundTrip impl) chunk prev s = Panics
     ↔ apis.DeleteEntry impl chunk (viaWire prev) s = Panics
       ∨ ∃ owner s',
           apis.DeleteEntry impl chunk (viaWire prev) s
             = Returns ((owner, None), s')
           ∧ owner ≠ "").
Proof.
  split; [|split; [|split]].
  - simpl. unfold rpc.proxyTwirpAsMetadataCache_NewEntry. msimpl.
    unfold rpc.proxyMetadataCacheAsTwirp_NewEntry. msimpl.
    destruct (apis.NewEntry impl s) as [[[c [e|]] s']|]; simpl;
      split; congruence.
  - rewrite roundTrip_ReadEntry.
    destruct (apis.ReadEntry impl chunk s) as [[[[entry owner] [e|]] s']|];
      [destruct (decide (owner = ""))| |]; split; congruence.
  - rewrite roundTrip_UpdateEntry.
    destruct (apis.UpdateEntry impl chunk _ _ s) as [[[owner [e|]] s']|];
      [destruct (decide (owner ≠ ""))|destruct (decide (owner ≠ ""))|].
    + split; [discriminate|]. intros [H|(o & s1 & H & _)]; discriminate.
    + split; [discriminate|]. intros [H|(o & s1 & H & _)]; discriminate.
    + split; [|done]. intros _. right. by exists owner, s'.
    + split; [discriminate|]. intros [H|(o & s1 & H & Ho)]; [discriminate|].
      injection H as <- _. done.
    + split; [|done]. intros _. by left.
  - rewrite roundTrip_DeleteEntry.
    destruct (apis.DeleteEntry impl chunk _ s) as [[[owner [e|]] s']|];
      [destruct (decide (owner ≠ ""))|destruct (decide (owner ≠ ""))|].
    + split; [discriminate|]. intros [H|(o & s1 & H & _)]; discriminate.
    + split; [discriminate|]. intros [H|(o & s1 & H & _)]; discriminate.
    + split; [|done]. intros _. right. by exists owner, s'.
    + split; [discriminate|]. intros [H|(o & s1 & H & Ho)]; [discriminate|].
      injection H as <- _. done.
    + split; [|done]. intros _. by left.
Qed.

(** X21. [NewEntry] through the client-side proxy over the server-side
    adapter: on success the chunk number of the implementation, on
    failure the implementation's error itself next to chunk 0, in both
    cases with the implementation's next state. *)
Theorem NewEntry_round_trip (impl : apis.MetadataCache S) s :
  apis.NewEntry (roundTrip impl) s
  = match apis.NewEntry impl s with
    | Returns ((chunk, Some e), s') => Returns ((0, Some e), s')
    | Returns ((chunk, None), s') => Returns ((chunk, None), s')
    | Panics => Panics
    end.
Proof.
  simpl. unfold rpc.proxyTwirpAsMetadataCache_NewEntry. msimpl.
  unfold rpc.proxyMetadataCacheAsTwirp_NewEntry. msimpl.
  by destruct (apis.NewEntry impl s) as [[[c [e|]] s']|].
Qed.

(** X22. A second hop changes nothing: with slice conversions that undo
    each other, every method called through two stacked pairs of proxies
    has the outcome it has through one pair. *)
Theorem roundTrip_twice (impl : apis.MetadataCache S) chunk prev new s :
  (∀ ids, IntArrayToIDArray (IDArrayToIntArray ids) = ids) →
  apis.NewEntry (roundTrip (roundTrip impl)) s
    = apis.NewEntry (roundTrip impl) s
  ∧ apis.ReadEntry (roundTrip (roundTrip impl)) chunk s
    = apis.ReadEntry (roundTrip impl) chunk s
  ∧ apis.UpdateEntry (roundTrip (roundTrip impl)) chunk prev new s
    = apis.UpdateEntry (roundTrip impl) chunk prev new s
  ∧ apis.DeleteEntry (roundTrip (roundTrip impl)) chunk prev s
    = apis.DeleteEntry (roundTrip impl) chunk prev s.
Proof.
  intros Hrt. split; [|split; [|split]].
  - simpl. unfold rpc.proxyTwirpAsMetadataCache_NewEntry. msimpl.
    unfold rpc.proxyMetadataCacheAsTwirp_NewEntry. msimpl.
    unfold rpc.proxyTwirpAsMetadataCache_NewEntry. msimpl.
    unfold rpc.proxyMetadataCacheAsTwirp_NewEntry. msimpl.
    by destruct (apis.NewEntry impl s) as [[[c [e|]] s']|].
  - rewrite (roundTrip_ReadEntry (roundTrip impl)), roundTrip_ReadEntry.
    destruct (apis.ReadEntry impl chunk s) as [[[[entry owner] [e|]] s']|];
      [destruct (decide (owner = "")) as [->|Hne]| |]; try done.
    + by rewrite decide_False.
    + by rewrite (viaWire_id (viaWire entry)).
  - rewrite (roundTrip_UpdateEntry (roundTrip impl)), !roundTrip_UpdateEntry.
    rewrite !(viaWire_id (viaWire _)) by done.
    destruct (apis.UpdateEntry impl chunk _ _ s) as [[[owner [e|]] s']|];
      try done; destruct (decide (owner ≠ "")) as [Hne|He]; try done.
    by rewrite decide_True.
  - rewrite (roundTrip_DeleteEntry (roundTrip impl)), !roundTrip_DeleteEntry.
    rewrite !(viaWire_id (viaWire _)) by done.
    destruct (apis.DeleteEntry impl chunk _ s) as [[[owner [e|]] s']|];
      try done; destruct (decide (owner ≠ "")) as [Hne|He]; try done.
    by rewrite decide_True.
Qed.

End proxy_composition.

Lemma roundTrip_twice_witness :
  (∀ ids, IntArrayToIDArray (IDConv := examples.copyConv)
            (IDArrayToIntArray (IDConv := examples.copyConv) ids) = ids)
  ∧ apis.ReadEntry
      (roundTrip (conv := examples.copyConv)
         (roundTrip (conv := examples.copyConv) metadatacache.asMetadataCache))
      7 examples.someCache
    = apis.ReadEntry
        (roundTrip (conv := examples.copyConv) metadatacache.asMetadataCache)
        7 examples.someCache.
Proof.
  split; [reflexivity|].
  apply (roundTrip_twice (conv := examples.copyConv)
           metadatacache.asMetadataCache 7 examples.entry32 examples.entry33
           examples.someCache).
  reflexivity.
Defined.
